(** * Pinned memory tokens: a shallow embedding of
      kernel/object/pinned_memory_token_dispatcher.cpp

    The dispatcher pins a range of a VMO, maps it through the IOMMU of a
    bus transaction initiator (BTI) and keeps the resulting device
    addresses in [mapped_addrs_].  The embedding follows the C++ text
    function by function.  The collaborators that live outside this
    translation unit (the IOMMU driver, the VMO, the BTI bookkeeping) are
    kept abstract: the IOMMU is an arbitrary deterministic state machine,
    the VMO answers through the functions stored in its record, and every
    call that crosses the boundary is appended to a trace. *)

From Stdlib Require Import ZArith Lia Bool Sorted.
From stdpp Require Import base option list gmap.

Local Open Scope Z_scope.

(** ** Machine integers

    [size_t], [uint64_t], [dev_vaddr_t] and [paddr_t] are all 64-bit
    unsigned; they are carried as [Z] and every arithmetic result is
    reduced modulo [2^64]. *)

Definition UINT64_MAX : Z := 2 ^ 64 - 1.

Definition wrap64 (z : Z) : Z := z mod 2 ^ 64.
Definition add64 (a b : Z) : Z := wrap64 (a + b).
Definition sub64 (a b : Z) : Z := wrap64 (a - b).
Definition not64 (a : Z) : Z := wrap64 (Z.lnot a).

(** Modelled from the spec: the page-size macro is declared outside the
    dispatcher's translation unit; the spec's scenarios use 4096. *)
Definition PAGE_SIZE : Z := 4096.

(** Modelled from the spec: [ROUNDUP] is a macro of the kernel's headers,
    absent from this file; it rounds [a] up to a multiple of the power of
    two [b] by masking, [((a) + ((b)-1)) & ~((b)-1)]. *)
Definition ROUNDUP (a b : Z) : Z :=
  Z.land (add64 a (sub64 b 1)) (not64 (sub64 b 1)).

(** Modelled from the spec: [IS_PAGE_ALIGNED] is a macro of the kernel's
    headers; it tests the low bits below the page size. *)
Definition IS_PAGE_ALIGNED (x : Z) : bool :=
  Z.land x (sub64 PAGE_SIZE 1) =? 0.

(** Modelled from the spec: [fbl::is_pow2] is declared in fbl/algorithm.h;
    a nonzero value with a single bit set. *)
Definition is_pow2 (val : Z) : bool :=
  negb (val =? 0) && (Z.land (sub64 val 1) val =? 0).

(** ** Status codes ([zx_status_t]) *)

Definition ZX_OK : Z := 0.
Definition ZX_ERR_INTERNAL : Z := -1.
Definition ZX_ERR_NO_MEMORY : Z := -4.
Definition ZX_ERR_INVALID_ARGS : Z := -10.
Definition ZX_ERR_NOT_FOUND : Z := -25.

(** The rights mask handed out with a fresh token; its bits are defined
    outside this file and play no part here. *)
Inductive zx_rights_t : Type := ZX_DEFAULT_PMT_RIGHTS.

(** ** Outcomes

    A run either returns, halts the kernel (a failed [ASSERT], a failed
    [DEBUG_ASSERT] in a build that compiles them in, or an access outside
    an [fbl::Array]), or exhausts the loop budget of the model. *)

Inductive outcome (A : Type) : Type :=
| Ret (a : A)
| Panic
| OutOfFuel.
Arguments Ret {A} a.
Arguments Panic {A}.
Arguments OutOfFuel {A}.

#[global] Instance outcome_ret : MRet outcome := @Ret.
#[global] Instance outcome_bind : MBind outcome := λ A B f m,
  match m with
  | Ret a => f a
  | Panic => Panic
  | OutOfFuel => OutOfFuel
  end.

(** [ASSERT] is compiled in every build. *)
Definition ASSERT (cond : bool) : outcome unit :=
  if cond then Ret tt else Panic.

(** [fbl::Array::operator[]]: an index outside the array is a failed
    bounds assertion. *)
Definition array_get (a : list Z) (i : nat) : outcome Z :=
  match a !! i with
  | Some v => Ret v
  | None => Panic
  end.

Definition array_set (a : list Z) (i : nat) (v : Z) : outcome (list Z) :=
  if decide (i < length a)%nat then Ret (<[i:=v]> a) else Panic.

(** ** Collaborators *)

(** Modelled from the spec: the memory object is declared in
    vm/vm_object.h, outside this file.  [CommitRange] and [Pin] answer a
    status; [pages offset size] is the sequence of physical addresses
    that [Lookup] enumerates for the range, one per page. *)
Record VmObject : Type := {
  is_paged : bool;
  CommitRange : Z → Z → Z;
  Pin : Z → Z → Z;
  pages : Z → Z → list Z
}.

(** Modelled from the spec: [VmObject::Lookup] enumerates the physical
    pages of the range; it calls [fn] on every page with its index and
    physical address, threading the context, and stops at the first
    status that is not [ZX_OK]. *)
Fixpoint Lookup_from {C : Type} (fn : C → nat → Z → Z * C)
    (ctx : C) (index : nat) (pas : list Z) : Z * C :=
  match pas with
  | [] => (ZX_OK, ctx)
  | pa :: rest =>
      let '(status, ctx') := fn ctx index pa in
      if status =? ZX_OK then Lookup_from fn ctx' (S index) rest
      else (status, ctx')
  end.

Definition Lookup {C : Type} (vmo : VmObject) (offset size : Z)
    (fn : C → nat → Z → Z * C) (ctx : C) : Z * C :=
  Lookup_from fn ctx 0%nat (pages vmo offset size).

(** The bus transaction initiator, as far as the token reads it. *)
Record Bti : Type := {
  bti_id : Z;
  minimum_contiguity : Z
}.

(** Calls that leave the dispatcher. *)
Inductive Event : Type :=
| EvCommitRange (offset size : Z)
| EvPin (offset size : Z)
| EvUnpin (offset size : Z)
| EvMap (bus_txn_id offset size perms : Z)
| EvUnmap (bus_txn_id vaddr size : Z).

(** ** The token *)

Record PinnedMemoryTokenDispatcher : Type := {
  koid : nat;                      (* object identity, [this] *)
  vmo_ : VmObject;
  offset_ : Z;
  size_ : Z;
  is_contiguous_ : bool;
  bti_ : Bti;
  mapped_addrs_ : list Z;
  explicitly_unpinned_ : bool
}.

Definition set_mapped_addrs (t : PinnedMemoryTokenDispatcher) (a : list Z)
    : PinnedMemoryTokenDispatcher :=
  {| koid := koid t; vmo_ := vmo_ t; offset_ := offset_ t; size_ := size_ t;
     is_contiguous_ := is_contiguous_ t; bti_ := bti_ t;
     mapped_addrs_ := a; explicitly_unpinned_ := explicitly_unpinned_ t |}.

(** The IOMMU driver behind [bti_->iommu()], an interface with two entry
    points, and the build setting that decides whether [DEBUG_ASSERT] is
    compiled in.  [iommu_Map] answers [(status, vaddr, mapped_len)]; the
    two out-parameters are 64-bit, so [Map] below reads them modulo
    [2^64]. *)
Class Platform : Type := {
  IommuState : Type;
  iommu_Map : IommuState → Z → VmObject → Z → Z → Z → IommuState * (Z * Z * Z);
  iommu_Unmap : IommuState → Z → Z → Z → IommuState * Z;
  DEBUG_ASSERT_IMPLEMENTED : bool
}.

Section Dispatcher.

Context {plat : Platform}.

Definition DEBUG_ASSERT (cond : bool) : outcome unit :=
  if DEBUG_ASSERT_IMPLEMENTED then ASSERT cond else Ret tt.

(** Everything outside the token.  Modelled from the spec: the BTI's
    live-token and quarantine sets are owned by
    bus_transaction_initiator_dispatcher, which is not part of this
    file; [AddPmoLocked], [RemovePmo] and [Quarantine] register,
    deregister and quarantine a token. *)
Record World : Type := {
  iommu_st : IommuState;
  trace : list Event;
  bti_pmos : gset nat;
  bti_quarantine : gset nat
}.

Definition emit (w : World) (e : Event) : World :=
  {| iommu_st := iommu_st w; trace := trace w ++ [e];
     bti_pmos := bti_pmos w; bti_quarantine := bti_quarantine w |}.

Definition AddPmoLocked (w : World) (id : nat) : World :=
  {| iommu_st := iommu_st w; trace := trace w;
     bti_pmos := {[id]} ∪ bti_pmos w; bti_quarantine := bti_quarantine w |}.

Definition RemovePmo (w : World) (id : nat) : World :=
  {| iommu_st := iommu_st w; trace := trace w;
     bti_pmos := bti_pmos w ∖ {[id]}; bti_quarantine := bti_quarantine w |}.

Definition Quarantine (w : World) (id : nat) : World :=
  {| iommu_st := iommu_st w; trace := trace w;
     bti_pmos := bti_pmos w; bti_quarantine := {[id]} ∪ bti_quarantine w |}.

Definition Map (w : World) (id : Z) (vmo : VmObject) (offset size perms : Z)
    : World * (Z * Z * Z) :=
  let '(s', (status, vaddr, mapped_len)) :=
    iommu_Map (iommu_st w) id vmo offset size perms in
  ({| iommu_st := s'; trace := trace w ++ [EvMap id offset size perms];
      bti_pmos := bti_pmos w; bti_quarantine := bti_quarantine w |},
   (status, wrap64 vaddr, wrap64 mapped_len)).

Definition Unmap (w : World) (id vaddr size : Z) : World * Z :=
  let '(s', r) := iommu_Unmap (iommu_st w) id vaddr size in
  ({| iommu_st := s'; trace := trace w ++ [EvUnmap id vaddr size];
      bti_pmos := bti_pmos w; bti_quarantine := bti_quarantine w |}, r).

Definition Unpin (w : World) (offset size : Z) : World :=
  emit w (EvUnpin offset size).

(** *** InvalidateMappedAddrsLocked *)

Definition InvalidateMappedAddrsLocked (t : PinnedMemoryTokenDispatcher)
    : PinnedMemoryTokenDispatcher :=
  set_mapped_addrs t ((λ _, UINT64_MAX) <$> mapped_addrs_ t).

(** *** UnmapFromIommuLocked *)

(** The scatter-gather walk: the body of the [for] loop over the
    entries from index [i] on; [n] is [mapped_addrs_.size()]. *)
Fixpoint unmap_walk (id min_contig : Z) (n : nat) (addrs : list Z)
    (i : nat) (remaining : Z) (status : Z) (w : World)
    : outcome (World * Z) :=
  match addrs with
  | [] => Ret (w, status)
  | addr :: rest =>
      if addr =? UINT64_MAX then Ret (w, status)
      else
        let size := Z.min remaining min_contig in
        _ ← DEBUG_ASSERT ((size =? min_contig) || (i =? n - 1)%nat);
        let '(w', err) := Unmap w id addr size in
        _ ← DEBUG_ASSERT (err =? ZX_OK);
        let status' :=
          if negb (err =? ZX_OK) && (status =? ZX_OK) then err else status in
        unmap_walk id min_contig n rest (S i) (sub64 remaining size)
                   status' w'
  end.

Definition UnmapFromIommuLocked (t : PinnedMemoryTokenDispatcher)
    (w : World) : outcome (PinnedMemoryTokenDispatcher * World * Z) :=
  let bus_txn_id := bti_id (bti_ t) in
  first ← array_get (mapped_addrs_ t) 0;
  if first =? UINT64_MAX then Ret (t, w, ZX_OK)
  else
    '(w', status) ←
      (if is_contiguous_ t then
         Ret (Unmap w bus_txn_id first (size_ t))
       else
         let min_contig := minimum_contiguity (bti_ t) in
         unmap_walk bus_txn_id min_contig (length (mapped_addrs_ t))
                    (mapped_addrs_ t) 0 (size_ t) ZX_OK w);
    Ret (InvalidateMappedAddrsLocked t, w', status).


(** *** MapIntoIommu *)

Definition kInvalidAddr : Z := 1.

(** The [while (remaining > 0)] loop of the contiguous policy.  It
    answers the status and the base address it settled on. *)
Fixpoint map_contiguous_loop (fuel : nat) (t : PinnedMemoryTokenDispatcher)
    (perms : Z) (vaddr_base curr_offset remaining : Z) (w : World)
    : outcome (World * Z * Z) :=
  let id := bti_id (bti_ t) in
  match fuel with
  | O => OutOfFuel
  | S fuel' =>
      if 0 <? remaining then
        let '(w1, (status, vaddr, mapped_len)) :=
          Map w id (vmo_ t) curr_offset remaining perms in
        if negb (status =? ZX_OK) then
          let w2 :=
            if negb (vaddr_base =? kInvalidAddr)
            then fst (Unmap w1 id vaddr_base (sub64 curr_offset (offset_ t)))
            else w1 in
          Ret (w2, status, vaddr_base)
        else if vaddr_base =? kInvalidAddr then
          map_contiguous_loop fuel' t perms vaddr
            (add64 curr_offset mapped_len) (sub64 remaining mapped_len) w1
        else if negb (vaddr =? sub64 (add64 vaddr_base curr_offset) (offset_ t)) then
          let w2 := fst (Unmap w1 id vaddr_base (sub64 curr_offset (offset_ t))) in
          let w3 := fst (Unmap w2 id vaddr mapped_len) in
          Ret (w3, ZX_ERR_INTERNAL, vaddr_base)
        else
          map_contiguous_loop fuel' t perms vaddr_base
            (add64 curr_offset mapped_len) (sub64 remaining mapped_len) w1
      else Ret (w, ZX_OK, vaddr_base)
  end.

(** [for (i = 1; i < size; ++i) a[i] = a[i - 1] + min_contig], with
    [n] iterations left. *)
Fixpoint fill_strided (n : nat) (i : nat) (min_contig : Z) (a : list Z)
    : outcome (list Z) :=
  match n with
  | O => Ret a
  | S n' =>
      prev ← array_get a (i - 1);
      a' ← array_set a i (add64 prev min_contig);
      fill_strided n' (S i) min_contig a'
  end.

(** The inner [while (mapped_remaining > 0)] loop of the scatter-gather
    policy: one table entry per [min_contig] bytes of the extent. *)
Fixpoint split_extent (fuel : nat) (min_contig : Z) (a : list Z)
    (next_addr_idx : nat) (vaddr mapped_remaining : Z)
    : outcome (list Z * nat) :=
  match fuel with
  | O => OutOfFuel
  | S fuel' =>
      if 0 <? mapped_remaining then
        let addr_pages := Z.min mapped_remaining min_contig in
        a' ← array_set a next_addr_idx vaddr;
        split_extent fuel' min_contig a' (S next_addr_idx)
          (add64 vaddr addr_pages) (sub64 mapped_remaining addr_pages)
      else Ret (a, next_addr_idx)
  end.

(** The outer [while (remaining > 0)] loop of the scatter-gather
    policy, followed by the closing assertion. *)
Fixpoint map_scatter_loop (fuel : nat) (t : PinnedMemoryTokenDispatcher)
    (perms : Z) (next_addr_idx : nat) (curr_offset remaining : Z) (w : World)
    : outcome (PinnedMemoryTokenDispatcher * World * Z) :=
  let id := bti_id (bti_ t) in
  let min_contig := minimum_contiguity (bti_ t) in
  match fuel with
  | O => OutOfFuel
  | S fuel' =>
      if 0 <? remaining then
        let '(w1, (status, vaddr, mapped_len)) :=
          Map w id (vmo_ t) curr_offset remaining perms in
        if negb (status =? ZX_OK) then
          '(t', w2, err) ← UnmapFromIommuLocked t w1;
          _ ← ASSERT (err =? ZX_OK);
          Ret (t', w2, status)
        else
          _ ← DEBUG_ASSERT ((mapped_len mod min_contig =? 0)
                            || (remaining =? mapped_len));
          '(a', idx') ← split_extent fuel min_contig (mapped_addrs_ t)
                            next_addr_idx vaddr mapped_len;
          map_scatter_loop fuel' (set_mapped_addrs t a') perms idx'
            (add64 curr_offset mapped_len)
            (sub64 remaining (Z.min mapped_len remaining)) w1
      else
        _ ← DEBUG_ASSERT (next_addr_idx =? length (mapped_addrs_ t))%nat;
        Ret (t, w, ZX_OK)
  end.

Definition MapIntoIommu (fuel : nat) (t : PinnedMemoryTokenDispatcher)
    (perms : Z) (w : World)
    : outcome (PinnedMemoryTokenDispatcher * World * Z) :=
  let min_contig := minimum_contiguity (bti_ t) in
  if is_contiguous_ t then
    '(w', status, vaddr_base) ←
      map_contiguous_loop fuel t perms kInvalidAddr (offset_ t) (size_ t) w;
    if negb (status =? ZX_OK) then Ret (t, w', status)
    else
      a0 ← array_set (mapped_addrs_ t) 0 vaddr_base;
      a ← fill_strided (length a0 - 1) 1 min_contig a0;
      Ret (set_mapped_addrs t a, w', ZX_OK)
  else
    map_scatter_loop fuel t perms 0 (offset_ t) (size_ t) w.

(** *** MarkUnpinned, on_zero_handles, destructor, constructor *)

Definition MarkUnpinned (t : PinnedMemoryTokenDispatcher)
    : PinnedMemoryTokenDispatcher :=
  {| koid := koid t; vmo_ := vmo_ t; offset_ := offset_ t; size_ := size_ t;
     is_contiguous_ := is_contiguous_ t; bti_ := bti_ t;
     mapped_addrs_ := mapped_addrs_ t; explicitly_unpinned_ := true |}.

Definition on_zero_handles (t : PinnedMemoryTokenDispatcher) (w : World)
    : outcome (PinnedMemoryTokenDispatcher * World) :=
  '(t', w', status) ← UnmapFromIommuLocked t w;
  _ ← ASSERT (status =? ZX_OK);
  if explicitly_unpinned_ t' then Ret (t', w')
  else Ret (t', Quarantine w' (koid t')).

(** [~PinnedMemoryTokenDispatcher]: the object is gone afterwards, only
    the world remains. *)
Definition destroy (t : PinnedMemoryTokenDispatcher) (w : World)
    : outcome World :=
  '(t', w', status) ← UnmapFromIommuLocked t w;
  _ ← ASSERT (status =? ZX_OK);
  let w'' :=
    if is_paged (vmo_ t') then Unpin w' (offset_ t') (size_ t') else w' in
  Ret (RemovePmo w'' (koid t')).

(** The constructor; [mapped_addrs] is the freshly allocated array. *)
Definition construct (id : nat) (bti : Bti) (vmo : VmObject)
    (offset size : Z) (is_contiguous : bool) (mapped_addrs : list Z)
    (w : World) : PinnedMemoryTokenDispatcher * World :=
  let t := {| koid := id; vmo_ := vmo; offset_ := offset; size_ := size;
              is_contiguous_ := is_contiguous; bti_ := bti;
              mapped_addrs_ := mapped_addrs;
              explicitly_unpinned_ := false |} in
  (InvalidateMappedAddrsLocked t, AddPmoLocked w id).

(** *** Create *)

Definition check_contiguous (expected_addr : Z) (index : nat) (pa : Z)
    : Z * Z :=
  if negb (index =? 0)%nat && negb (pa =? expected_addr)
  then (ZX_ERR_NOT_FOUND, expected_addr)
  else (ZX_OK, add64 pa PAGE_SIZE).

(** The [unpin_vmo] auto-call, run when [Create] leaves before
    cancelling it. *)
Definition unpin_vmo (vmo : VmObject) (offset size : Z) (w : World) : World :=
  if is_paged vmo then Unpin w offset size else w.

(** The first part of [Create]: commit, pin and the contiguity probe.
    Answers [inl status] on the early returns. *)
Definition pin_and_probe (vmo : VmObject) (offset size : Z) (w : World)
    : World * (Z + bool) :=
  if is_paged vmo then
    let w1 := emit w (EvCommitRange offset size) in
    let status := CommitRange vmo offset size in
    if negb (status =? ZX_OK) then (w1, inl status)
    else
      let w2 := emit w1 (EvPin offset size) in
      let status := Pin vmo offset size in
      if negb (status =? ZX_OK) then (w2, inl status)
      else
        let '(status, _) := Lookup vmo offset size check_contiguous 0 in
        (w2, inr (status =? ZX_OK))
  else (w, inr true).

(** [alloc_addrs] and [alloc_pmt] say whether the two checked
    allocations succeed; [id] is the identity of the new object. *)
Definition Create (fuel : nat) (alloc_addrs alloc_pmt : bool) (id : nat)
    (bti : Bti) (vmo : VmObject) (offset size perms : Z) (w : World)
    : outcome (World * Z * option (PinnedMemoryTokenDispatcher * zx_rights_t)) :=
  _ ← DEBUG_ASSERT (IS_PAGE_ALIGNED offset && IS_PAGE_ALIGNED size);
  match pin_and_probe vmo offset size w with
  | (w1, inl status) => Ret (w1, status, None)
  | (w1, inr is_contiguous) =>
      let min_contig := minimum_contiguity bti in
      _ ← DEBUG_ASSERT (is_pow2 min_contig);
      let num_addrs := ROUNDUP size min_contig / min_contig in
      if negb alloc_addrs then
        Ret (unpin_vmo vmo offset size w1, ZX_ERR_NO_MEMORY, None)
      else
        let addr_array := replicate (Z.to_nat num_addrs) 0 in
        if negb alloc_pmt then
          Ret (unpin_vmo vmo offset size w1, ZX_ERR_NO_MEMORY, None)
        else
          let '(pmo, w2) :=
            construct id bti vmo offset size is_contiguous addr_array w1 in
          '(pmo', w3, status) ← MapIntoIommu fuel pmo perms w2;
          if negb (status =? ZX_OK) then
            w4 ← destroy pmo' w3;
            Ret (w4, status, None)
          else Ret (w3, ZX_OK, Some (pmo', ZX_DEFAULT_PMT_RIGHTS))
  end.

(** *** EncodeAddrs *)

(** The inner [for] of the expanded mode, with [n] iterations left at
    most: [limit] is [extent_base + min_contig]. *)
Fixpoint encode_extent (n : nat) (limit num_pages : Z) (addr : Z)
    (next_idx : nat) (out : list Z) : list Z * nat :=
  match n with
  | O => (out, next_idx)
  | S n' =>
      if (addr <? limit) && (Z.of_nat next_idx <? num_pages) then
        encode_extent n' limit num_pages (add64 addr PAGE_SIZE)
          (S next_idx) (<[next_idx := addr]> out)
      else (out, next_idx)
  end.

(** The outer [for] over the table entries. *)
Fixpoint encode_extents (min_contig num_pages : Z) (pmo_addrs : list Z)
    (next_idx : nat) (out : list Z) : list Z * nat :=
  match pmo_addrs with
  | [] => (out, next_idx)
  | extent_base :: rest =>
      let '(out', next_idx') :=
        encode_extent (Z.to_nat num_pages - next_idx)
          (add64 extent_base min_contig) num_pages extent_base next_idx out in
      encode_extents min_contig num_pages rest next_idx' out'
  end.

(** [mapped_addrs] is the caller's buffer of [mapped_addrs_count]
    elements; the answer carries the buffer as the call leaves it. *)
Definition EncodeAddrs (t : PinnedMemoryTokenDispatcher)
    (compress_results : bool) (mapped_addrs : list Z) : Z * list Z :=
  let mapped_addrs_count := length mapped_addrs in
  let pmo_addrs := mapped_addrs_ t in
  let found_addrs := length pmo_addrs in
  if compress_results then
    if negb (found_addrs =? mapped_addrs_count)%nat
    then (ZX_ERR_INVALID_ARGS, mapped_addrs)
    else (ZX_OK, pmo_addrs ++ drop found_addrs mapped_addrs)
  else
    let num_pages := size_ t / PAGE_SIZE in
    if negb (num_pages =? Z.of_nat mapped_addrs_count)
    then (ZX_ERR_INVALID_ARGS, mapped_addrs)
    else
      let min_contig := minimum_contiguity (bti_ t) in
      (ZX_OK, fst (encode_extents min_contig num_pages pmo_addrs 0 mapped_addrs)).

End Dispatcher.

(** ** A scripted IOMMU

    A driver whose answers are read off two scripts, one per entry
    point; it stands for an arbitrary run of the real driver.  When the
    map script is exhausted the driver refuses, when the unmap script is
    exhausted it agrees. *)

Module Scripted.

Definition state : Type := list (Z * Z * Z) * list Z.

Definition map (s : state) (id : Z) (vmo : VmObject)
    (offset size perms : Z) : state * (Z * Z * Z) :=
  match s.1 with
  | [] => (s, (ZX_ERR_NO_MEMORY, 0, 0))
  | r :: rest => ((rest, s.2), r)
  end.

Definition unmap (s : state) (id vaddr size : Z) : state * Z :=
  match s.2 with
  | [] => (s, ZX_OK)
  | r :: rest => ((s.1, rest), r)
  end.

Definition platform (debug : bool) : Platform :=
  {| IommuState := state; iommu_Map := map; iommu_Unmap := unmap;
     DEBUG_ASSERT_IMPLEMENTED := debug |}.

Definition world (debug : bool) (maps : list (Z * Z * Z)) (unmaps : list Z)
    : @World (platform debug) :=
  {| iommu_st := (maps, unmaps) : @IommuState (platform debug); trace := [];
     bti_pmos := ∅; bti_quarantine := ∅ |}.

(** A page-backed VMO whose range has the physical pages [pas]. *)
Definition paged_vmo (pas : list Z) : VmObject :=
  {| is_paged := true; CommitRange := λ _ _, ZX_OK; Pin := λ _ _, ZX_OK;
     pages := λ _ _, pas |}.

Definition bti (min_contig : Z) : Bti :=
  {| bti_id := 7; minimum_contiguity := min_contig |}.

Definition token (contiguous : bool) (size min_contig : Z) (addrs : list Z)
    : PinnedMemoryTokenDispatcher :=
  {| koid := 1; vmo_ := paged_vmo []; offset_ := 0; size_ := size;
     is_contiguous_ := contiguous; bti_ := bti min_contig;
     mapped_addrs_ := addrs; explicitly_unpinned_ := false |}.

End Scripted.

(** ** A bump-allocating IOMMU

    A driver that maps one page per call at the next free page-aligned
    device address and never fails; its state counts the pages handed
    out. *)

Module Paging.

Definition map (s : nat) (id : Z) (vmo : VmObject) (offset size perms : Z)
    : nat * (Z * Z * Z) :=
  (S s, (ZX_OK, 65536 + Z.of_nat s * PAGE_SIZE, PAGE_SIZE)).

Definition unmap (s : nat) (id vaddr size : Z) : nat * Z := (s, ZX_OK).

Definition platform (debug : bool) : Platform :=
  {| IommuState := nat; iommu_Map := map; iommu_Unmap := unmap;
     DEBUG_ASSERT_IMPLEMENTED := debug |}.

Definition world (debug : bool) : @World (platform debug) :=
  {| iommu_st := 0%nat : @IommuState (platform debug); trace := [];
     bti_pmos := ∅; bti_quarantine := ∅ |}.

End Paging.

(** ** Vocabulary of the properties *)

Definition all_sentinel (a : list Z) : Prop := Forall (λ v, v = UINT64_MAX) a.
Definition all_valid (a : list Z) : Prop := Forall (λ v, v ≠ UINT64_MAX) a.

(** The table is either wholly invalidated or wholly filled. *)
Definition table_binary (a : list Z) : Prop := all_sentinel a ∨ all_valid a.

(** The address does not sit in the last byte of a page, as the sentinel
    does; page-aligned addresses and [kInvalidAddr] qualify, and the
    property survives adding a multiple of the page size. *)
Definition off_sentinel (v : Z) : Prop := v mod PAGE_SIZE ≠ PAGE_SIZE - 1.

Definition is_unmap (e : Event) : Prop :=
  match e with EvUnmap _ _ _ => True | _ => False end.

Definition is_iommu_call (e : Event) : Prop :=
  match e with EvMap _ _ _ _ | EvUnmap _ _ _ => True | _ => False end.

Definition is_unpin (e : Event) : bool :=
  match e with EvUnpin _ _ => true | _ => false end.

(** How many times the trace unpins. *)
Definition unpin_count (evs : list Event) : nat :=
  length (filter (λ e, is_unpin e = true) evs).

(** The entry is the base of an extent of [min_contig] bytes that lies
    inside the 64-bit device address space. *)
Definition extent_in_range (min_contig : Z) (e : Z) : Prop :=
  0 ≤ e ∧ e + min_contig < 2 ^ 64.

(** [t'] is [t] up to the contents of the table. *)
Definition same_token (t t' : PinnedMemoryTokenDispatcher) : Prop :=
  koid t' = koid t ∧ vmo_ t' = vmo_ t ∧ offset_ t' = offset_ t ∧
  size_ t' = size_ t ∧ is_contiguous_ t' = is_contiguous_ t ∧
  bti_ t' = bti_ t ∧ explicitly_unpinned_ t' = explicitly_unpinned_ t ∧
  length (mapped_addrs_ t') = length (mapped_addrs_ t).

Section Extension.
Context {plat : Platform}.

(** [w'] is [w] after some calls satisfying [P], with the BTI's
    bookkeeping untouched. *)
Definition extends (P : Event → Prop) (w w' : World) : Prop :=
  bti_pmos w' = bti_pmos w ∧ bti_quarantine w' = bti_quarantine w ∧
  ∃ evs, trace w' = trace w ++ evs ∧ Forall P evs.

(** [n] iterations of the contiguous loop that map successfully and
    keep the contiguity check satisfied, from one loop state
    [(vaddr_base, curr_offset, remaining)] and world to another. *)
Inductive contiguous_progress (t : PinnedMemoryTokenDispatcher) (perms : Z)
    : nat → Z * Z * Z → World → Z * Z * Z → World → Prop :=
| progress_none s w : contiguous_progress t perms 0 s w s w
| progress_step n base curr rem w w1 vaddr mapped_len s' w' :
    0 < rem →
    Map w (bti_id (bti_ t)) (vmo_ t) curr rem perms =
      (w1, (ZX_OK, vaddr, mapped_len)) →
    base = kInvalidAddr ∨ vaddr = sub64 (add64 base curr) (offset_ t) →
    contiguous_progress t perms n
      (if base =? kInvalidAddr then vaddr else base,
       add64 curr mapped_len, sub64 rem mapped_len) w1 s' w' →
    contiguous_progress t perms (S n) (base, curr, rem) w s' w'.

(** Contracts of the IOMMU driver that some properties rely on: every
    successful [Map] reports a positive length; every successful [Map]
    hands out a page-aligned device address. *)
Definition map_lengths_positive : Prop :=
  ∀ w id vmo offset size perms w' vaddr mapped_len,
    Map w id vmo offset size perms = (w', (ZX_OK, vaddr, mapped_len)) →
    0 < mapped_len.

Definition map_addrs_aligned : Prop :=
  ∀ w id vmo offset size perms w' vaddr mapped_len,
    Map w id vmo offset size perms = (w', (ZX_OK, vaddr, mapped_len)) →
    vaddr mod PAGE_SIZE = 0.

(** The calls the scatter-gather unmap walk is meant to make: one
    [Unmap] per entry, each answer recorded. *)
Fixpoint unmap_each (id : Z) (calls : list (Z * Z)) (w : World)
    : World * list Z :=
  match calls with
  | [] => (w, [])
  | (addr, size) :: rest =>
      let '(w1, err) := Unmap w id addr size in
      let '(w2, errs) := unmap_each id rest w1 in
      (w2, err :: errs)
  end.
End Extension.

(** The first status in the list that is not [ZX_OK], if any. *)
Fixpoint first_error (errs : list Z) : Z :=
  match errs with
  | [] => ZX_OK
  | err :: rest => if err =? ZX_OK then first_error rest else err
  end.

(** The lengths the walk passes for [n] entries, from [remaining]. *)
Fixpoint walk_lengths (remaining min_contig : Z) (n : nat) : list Z :=
  match n with
  | O => []
  | S n' =>
      Z.min remaining min_contig
      :: walk_lengths (sub64 remaining (Z.min remaining min_contig))
           min_contig n'
  end.


Section Owed.
Context {plat : Platform}.


End Owed.

(** ** The FVM dump utility: system/uapp/fvm-dump/main.cpp

    [LoadPartitions] and [DumpSlices], the two functions of the utility
    that compute.  What they print is kept as a list of lines. *)

(** The constants of the on-disk format, declared in fvm/fvm.h outside
    this repository part: the number of entries of the partition table
    and the partition number that marks a free slice. *)
Class FvmFormat : Type := {
  FVM_MAX_ENTRIES : nat;
  FVM_SLICE_ENTRY_FREE : Z
}.

Record Slice : Type := {
  virtual_partition : Z;
  virtual_slice : Z;
  physical_slice : Z
}.

(** [entry] points into the partition table; it is kept as the index it
    points at. *)
Record Partition : Type := {
  entry : option nat;
  slices : list Slice
}.

Definition Allocated (p : Partition) : bool :=
  match entry p with Some _ => true | None => false end.

(** What [LoadPartitions] writes to stderr. *)
Inductive Diagnostic : Type :=
| VpartOutOfRange
| UnallocatedPartition (vpart : Z)
| SliceCountDisagreement (i : nat) (claimed actual : Z).

(** What [DumpSlices] writes to stdout, one constructor per [printf]. *)
Inductive Line : Type :=
| LSliceInfo
| LPhysicalSlice (pslice : Z)
| LVirtualSlice (vslice : Z)
| LPartition (vpart : Z)
| LPhysicalSlices (first last : Z)
| LVirtualSlices (first last : Z).

(** [fbl::Array::operator[]] on an array of any element type.  fbl is
    outside this repository part; an index outside the array is an error
    of the program (an assertion failure where fbl's debug assertions are
    on, undefined behaviour otherwise) and is [Panic] here. *)
Definition array_at {A : Type} (a : list A) (i : nat) : outcome A :=
  match a !! i with
  | Some x => Ret x
  | None => Panic
  end.

Definition array_update {A : Type} (a : list A) (i : nat) (f : A → A)
    : outcome (list A) :=
  match a !! i with
  | Some x => Ret (<[i:=f x]> a)
  | None => Panic
  end.

(** Dereferencing [run_start]. *)
Definition deref (p : option Slice) : outcome Slice :=
  match p with
  | Some s => Ret s
  | None => Panic
  end.

Section FvmDump.
Context {fmt : FvmFormat}.

(** *** LoadPartitions

    [slice_table] and [vpart_table] are raw pointers into the metadata:
    they are read as memory, a function of the index.  An entry of
    [slice_table] is read through its accessors as [(Vpart, Vslice)],
    an entry of [vpart_table] through its field [slices]. *)

(** The first loop, over the indices [idxs]. *)
Fixpoint init_partitions (idxs : list nat) (vpart_table : nat → Z)
    (partitions : list Partition) : outcome (list Partition) :=
  match idxs with
  | [] => Ret partitions
  | i :: rest =>
      let n := vpart_table i in
      partitions' ←
        (if negb (n =? 0)
         then array_update partitions i
                (λ p, {| entry := Some i; slices := slices p |})
         else Ret partitions);
      init_partitions rest vpart_table partitions'
  end.

(** The second loop; the state is the vector of slices, the array of
    partitions, [valid] and the diagnostics so far. *)
Fixpoint load_slices (idxs : list nat) (slice_table : nat → Z * Z)
    (st : list Slice * list Partition * bool * list Diagnostic)
    : outcome (list Slice * list Partition * bool * list Diagnostic) :=
  match idxs with
  | [] => Ret st
  | i :: rest =>
      let '(out, partitions, valid, diag) := st in
      let '(vpart, vslice) := slice_table i in
      if negb (vpart =? FVM_SLICE_ENTRY_FREE) then
        '(valid', diag') ←
          (if Z.of_nat FVM_MAX_ENTRIES <=? vpart then
             Ret (false, diag ++ [VpartOutOfRange])
           else
             p ← array_at partitions (Z.to_nat vpart);
             if negb (Allocated p)
             then Ret (false, diag ++ [UnallocatedPartition vpart])
             else Ret (valid, diag));
        let slice := {| virtual_partition := vpart; virtual_slice := vslice;
                        physical_slice := Z.of_nat i |} in
        partitions' ←
          array_update partitions (Z.to_nat vpart)
            (λ p, {| entry := entry p; slices := slices p ++ [slice] |});
        load_slices rest slice_table (out ++ [slice], partitions', valid', diag')
      else load_slices rest slice_table st
  end.

(** The third loop. *)
Fixpoint check_counts (idxs : list nat) (vpart_table : nat → Z)
    (partitions : list Partition) (st : bool * list Diagnostic)
    : outcome (bool * list Diagnostic) :=
  match idxs with
  | [] => Ret st
  | i :: rest =>
      p ← array_at partitions i;
      let st' :=
        match entry p with
        | Some k =>
            let claimed := vpart_table k in
            let actual := Z.of_nat (length (slices p)) in
            if negb (claimed =? actual)
            then (false, st.2 ++ [SliceCountDisagreement i claimed actual])
            else st
        | None => st
        end in
      check_counts rest vpart_table partitions st'
  end.

Definition LoadPartitions (slice_count : nat) (slice_table : nat → Z * Z)
    (vpart_table : nat → Z)
    : outcome (list Slice * list Partition * bool * list Diagnostic) :=
  partitions ←
    init_partitions (seq 1 (FVM_MAX_ENTRIES - 1)) vpart_table
      (replicate FVM_MAX_ENTRIES {| entry := None; slices := [] |});
  '(out, partitions, valid, diag) ←
    load_slices (seq 1 slice_count) slice_table ([], partitions, true, []);
  '(valid, diag) ←
    check_counts (seq 1 (FVM_MAX_ENTRIES - 1)) vpart_table partitions
      (valid, diag);
  Ret (out, partitions, valid, diag).

(** The slice built at index [i] of the second loop. *)
Definition slice_at (slice_table : nat → Z * Z) (i : nat) : Slice :=
  {| virtual_partition := (slice_table i).1;
     virtual_slice := (slice_table i).2;
     physical_slice := Z.of_nat i |}.

(** The slices of the entries that are not free, over the indices
    [idxs]. *)
Definition live_slices (slice_table : nat → Z * Z) (idxs : list nat)
    : list Slice :=
  flat_map
    (λ i, if negb ((slice_table i).1 =? FVM_SLICE_ENTRY_FREE)
          then [slice_at slice_table i] else [])
    idxs.

(** The index every live entry names is inside the partition array. *)
Definition vparts_in_range (slice_count : nat) (slice_table : nat → Z * Z)
    : Prop :=
  ∀ i : nat, (1 ≤ i ≤ slice_count)%nat →
    (slice_table i).1 ≠ FVM_SLICE_ENTRY_FREE →
    0 ≤ (slice_table i).1 < Z.of_nat FVM_MAX_ENTRIES.

End FvmDump.

(** The slices of a list that name partition [k]. *)
Definition slices_of (k : nat) (l : list Slice) : list Slice :=
  filter (λ s, virtual_partition s = Z.of_nat k) l.

Definition allocated_at (partitions : list Partition) (j : nat) : bool :=
  match partitions !! j with
  | Some p => Allocated p
  | None => false
  end.

(** A format of four partitions with tables read off lists; outside the
    list the memory reads as zero. *)
Module SmallDisk.

Definition format : FvmFormat :=
  {| FVM_MAX_ENTRIES := 4; FVM_SLICE_ENTRY_FREE := 0 |}.

Definition slice_table (entries : list (Z * Z)) (i : nat) : Z * Z :=
  nth i entries (0, 0).

Definition vpart_table (counts : list Z) (i : nat) : Z := nth i counts 0.

End SmallDisk.

(** *** DumpSlices *)

Definition end_run (run_start : option Slice) (run_length : Z)
    : outcome (list Line) :=
  if run_length =? 1 then
    s ← deref run_start;
    Ret [LPhysicalSlice (physical_slice s); LVirtualSlice (virtual_slice s);
         LPartition (virtual_partition s)]
  else if 1 <? run_length then
    s ← deref run_start;
    Ret [LPhysicalSlices (physical_slice s)
           (sub64 (add64 (physical_slice s) run_length) 1);
         LVirtualSlices (virtual_slice s)
           (sub64 (add64 (virtual_slice s) run_length) 1);
         LPartition (virtual_partition s)]
  else Ret [].

(** The [for] loop from index 1 on, followed by the closing [end_run];
    it answers the lines printed. *)
Fixpoint dump_loop (rest : list Slice) (run_start : option Slice)
    (run_length : Z) : outcome (list Line) :=
  match rest with
  | [] => end_run run_start run_length
  | slice :: rest' =>
      rs ← deref run_start;
      let expected_pslice := add64 (physical_slice rs) run_length in
      let expected_vslice := add64 (virtual_slice rs) run_length in
      if (physical_slice slice =? expected_pslice)
         && (virtual_slice slice =? expected_vslice)
         && (virtual_partition slice =? virtual_partition rs)
      then dump_loop rest' run_start (add64 run_length 1)
      else
        lines ← end_run run_start run_length;
        more ← dump_loop rest' (Some slice) 1;
        Ret (lines ++ more)
  end.

Definition DumpSlices (slices : list Slice) : outcome (list Line) :=
  let '(run_start, run_length) :=
    match slices with
    | [] => (None, 0)
    | s :: _ => (Some s, 1)
    end in
  lines ← dump_loop (tail slices) run_start run_length;
  Ret (LSliceInfo :: lines).

(** The reading of the dump: a run is its first slice and its length. *)

Definition slice_wf (s : Slice) : Prop :=
  0 ≤ virtual_partition s < 2 ^ 64 ∧ 0 ≤ virtual_slice s < 2 ^ 64 ∧
  0 ≤ physical_slice s < 2 ^ 64.

(** The lines of one run of at least one slice. *)
Definition run_lines (r : Slice * Z) : list Line :=
  if r.2 =? 1 then
    [LPhysicalSlice (physical_slice r.1); LVirtualSlice (virtual_slice r.1);
     LPartition (virtual_partition r.1)]
  else
    [LPhysicalSlices (physical_slice r.1)
       (sub64 (add64 (physical_slice r.1) r.2) 1);
     LVirtualSlices (virtual_slice r.1)
       (sub64 (add64 (virtual_slice r.1) r.2) 1);
     LPartition (virtual_partition r.1)].

(** The slices a run stands for. *)
Definition expand_run (r : Slice * Z) : list Slice :=
  (λ k : nat,
     {| virtual_partition := virtual_partition r.1;
        virtual_slice := wrap64 (virtual_slice r.1 + Z.of_nat k);
        physical_slice := wrap64 (physical_slice r.1 + Z.of_nat k) |})
    <$> seq 0 (Z.to_nat r.2).

(** The slice carries the run on: the test of the loop. *)
Definition continues (r : Slice * Z) (s : Slice) : bool :=
  (physical_slice s =? add64 (physical_slice r.1) r.2)
  && (virtual_slice s =? add64 (virtual_slice r.1) r.2)
  && (virtual_partition s =? virtual_partition r.1).

(** No run could have been carried on by the first slice of the next. *)
Fixpoint runs_maximal (runs : list (Slice * Z)) : Prop :=
  match runs with
  | r1 :: (r2 :: _) as rest => continues r1 r2.1 = false ∧ runs_maximal rest
  | _ => True
  end.

(** ** Vocabulary of the further properties *)

(** Every page of the list lies one page size after the one before. *)
Fixpoint pages_consecutive (pas : list Z) : bool :=
  match pas with
  | a :: (b :: _) as rest => (b =? add64 a PAGE_SIZE) && pages_consecutive rest
  | _ => true
  end.

(** [Create] holds a pin on the range: the VMO is paged and both
    [CommitRange] and [Pin] answered [ZX_OK]. *)
Definition pin_taken (vmo : VmObject) (offset size : Z) : bool :=
  is_paged vmo && (CommitRange vmo offset size =? ZX_OK)
  && (Pin vmo offset size =? ZX_OK).

(** The number of table entries an extent of [len] bytes takes. *)
Definition chunk_count (len min_contig : Z) : nat :=
  Z.to_nat ((len + min_contig - 1) / min_contig).

(** A linear IOMMU: it maps at most one page per call, at the device
    address [0x10000 + offset], and never fails. *)
Module Linear.

Definition map (s : unit) (id : Z) (vmo : VmObject) (offset size perms : Z)
    : unit * (Z * Z * Z) :=
  (s, (ZX_OK, 65536 + offset, Z.max 1 (Z.min size PAGE_SIZE))).

Definition unmap (s : unit) (id vaddr size : Z) : unit * Z := (s, ZX_OK).

Definition platform (debug : bool) : Platform :=
  {| IommuState := unit; iommu_Map := map; iommu_Unmap := unmap;
     DEBUG_ASSERT_IMPLEMENTED := debug |}.

Definition world (debug : bool) : @World (platform debug) :=
  {| iommu_st := tt : @IommuState (platform debug); trace := [];
     bti_pmos := ∅; bti_quarantine := ∅ |}.

End Linear.

(** A coarse IOMMU: whatever length it is asked for, it maps a whole
    block of 8192 bytes at the device address [0x10000 + offset], so it
    reports more than what remained when less than a block was left. *)
Module Coarse.

Definition map (s : unit) (id : Z) (vmo : VmObject) (offset size perms : Z)
    : unit * (Z * Z * Z) :=
  (s, (ZX_OK, 65536 + offset, 8192)).

Definition unmap (s : unit) (id vaddr size : Z) : unit * Z := (s, ZX_OK).

Definition platform (debug : bool) : Platform :=
  {| IommuState := unit; iommu_Map := map; iommu_Unmap := unmap;
     DEBUG_ASSERT_IMPLEMENTED := debug |}.

Definition world (debug : bool) : @World (platform debug) :=
  {| iommu_st := tt : @IommuState (platform debug); trace := [];
     bti_pmos := ∅; bti_quarantine := ∅ |}.

End Coarse.

Section Contracts.
Context {plat : Platform}.

(** Every successful [Map] of a nonempty range reports a length that is
    positive and no longer than what was asked for. *)
Definition map_lengths_bounded : Prop :=
  ∀ w id vmo offset size perms w' vaddr mapped_len,
    0 < size < 2 ^ 64 →
    Map w id vmo offset size perms = (w', (ZX_OK, vaddr, mapped_len)) →
    0 < mapped_len ≤ size.

(** The successful passes of the scatter-gather loop from one loop state
    [(curr_offset, remaining)] and world to another, with the extents
    [(vaddr, mapped_len)] the IOMMU returned, in order. *)
Inductive scatter_progress (id : Z) (vmo : VmObject) (min_contig perms : Z)
    : Z * Z → World → list (Z * Z) → Z * Z → World → Prop :=
| scatter_none s w : scatter_progress id vmo min_contig perms s w [] s w
| scatter_step curr rem w w1 vaddr mapped_len exts s' w' :
    0 < rem →
    Map w id vmo curr rem perms = (w1, (ZX_OK, vaddr, mapped_len)) →
    DEBUG_ASSERT ((mapped_len mod min_contig =? 0) || (rem =? mapped_len))
      = Ret tt →
    scatter_progress id vmo min_contig perms
      (add64 curr mapped_len, sub64 rem (Z.min mapped_len rem)) w1 exts s' w' →
    scatter_progress id vmo min_contig perms (curr, rem) w
      ((vaddr, mapped_len) :: exts) s' w'.

End Contracts.

(** The table entries of one extent: its chunk starts. *)
Definition extent_chunks (min_contig : Z) (ext : Z * Z) : list Z :=
  (λ j : nat, wrap64 (ext.1 + Z.of_nat j * min_contig))
    <$> seq 0 (chunk_count ext.2 min_contig).

Section WalkRoom.
Context {plat : Platform}.

(** The table has room for the scatter-gather walk that starts in loop
    state [s] and world [w] with [idx] entries already written: after
    any successful passes, the extent of the next successful map call
    still fits the [tbl] entries of the table and satisfies the
    assertion on its length, and a walk that has covered the range
    satisfies the closing assertion.  Both assertions hold trivially in
    a build without [DEBUG_ASSERT]. *)
Definition scatter_walk_fits (id : Z) (vmo : VmObject) (min_contig perms : Z)
    (tbl idx : nat) (s : Z * Z) (w : World) : Prop :=
  ∀ exts curr rem w1,
    scatter_progress id vmo min_contig perms s w exts (curr, rem) w1 →
    (0 < rem →
     ∀ w2 vaddr mapped_len,
       Map w1 id vmo curr rem perms = (w2, (ZX_OK, vaddr, mapped_len)) →
       DEBUG_ASSERT ((mapped_len mod min_contig =? 0) || (rem =? mapped_len))
         = Ret tt ∧
       (idx + length (flat_map (extent_chunks min_contig) exts)
        + chunk_count mapped_len min_contig ≤ tbl)%nat) ∧
    (rem ≤ 0 →
     DEBUG_ASSERT
       (idx + length (flat_map (extent_chunks min_contig) exts) =? tbl)%nat
       = Ret tt).

End WalkRoom.

(** ** Properties *)

Section Properties.

Context {plat : Platform}.

Lemma bind_Ret {A B} (m : outcome A) (f : A → outcome B) (b : B) :
  m ≫= f = Ret b → ∃ a, m = Ret a ∧ f a = Ret b.
Proof. destruct m; simpl; intros; eauto; discriminate. Qed.

Lemma same_token_refl t : same_token t t.
Proof. unfold same_token; tauto. Qed.

Lemma same_token_trans t1 t2 t3 :
  same_token t1 t2 → same_token t2 t3 → same_token t1 t3.
Proof. unfold same_token; intuition congruence. Qed.

Lemma extends_refl P w : extends P w w.
Proof.
  repeat split; auto. exists []. rewrite app_nil_r. split; auto.
Qed.

Lemma extends_trans P w1 w2 w3 :
  extends P w1 w2 → extends P w2 w3 → extends P w1 w3.
Proof.
  intros (Hp1 & Hq1 & e1 & Ht1 & Hf1) (Hp2 & Hq2 & e2 & Ht2 & Hf2).
  repeat split; try congruence.
  exists (e1 ++ e2). rewrite Ht2, Ht1, app_assoc. split; auto.
  apply Forall_app; auto.
Qed.

Lemma extends_weaken (P Q : Event → Prop) w w' :
  (∀ e, P e → Q e) → extends P w w' → extends Q w w'.
Proof.
  intros HPQ (Hp & Hq & e & Ht & Hf). repeat split; auto.
  exists e; split; auto. eapply Forall_impl; eauto.
Qed.

Lemma Unmap_extends w id vaddr size :
  extends is_unmap w (Unmap w id vaddr size).1.
Proof.
  unfold Unmap. destruct (iommu_Unmap _ _ _ _) as [s r]; simpl.
  repeat split; auto. eexists; split; eauto. repeat constructor.
Qed.

Lemma Unmap_trace w id vaddr size :
  trace (Unmap w id vaddr size).1 = trace w ++ [EvUnmap id vaddr size].
Proof. unfold Unmap. destruct (iommu_Unmap _ _ _ _); reflexivity. Qed.

Lemma unmap_walk_extends id mc n addrs : ∀ i rem st w w' st',
  unmap_walk id mc n addrs i rem st w = Ret (w', st') →
  extends is_unmap w w'.
Proof.
  induction addrs as [|addr rest IH]; simpl; intros i rem st w w' st' Hrun.
  - inversion Hrun; subst. apply extends_refl.
  - destruct (addr =? UINT64_MAX).
    + inversion Hrun; subst. apply extends_refl.
    + apply bind_Ret in Hrun as (_ & _ & Hrun).
      pose proof (Unmap_extends w id addr (Z.min rem mc)) as Hext.
      destruct (Unmap w id addr (Z.min rem mc)) as [w1 err].
      apply bind_Ret in Hrun as (_ & _ & Hrun).
      apply IH in Hrun. eapply extends_trans; eauto.
Qed.

Lemma Invalidate_all_sentinel t :
  all_sentinel (mapped_addrs_ (InvalidateMappedAddrsLocked t)).
Proof.
  unfold all_sentinel; simpl. apply Forall_fmap, Forall_true. reflexivity.
Qed.

Lemma Invalidate_length t :
  length (mapped_addrs_ (InvalidateMappedAddrsLocked t)) =
  length (mapped_addrs_ t).
Proof. simpl. apply length_fmap. Qed.

(** The two ways [UnmapFromIommuLocked] returns. *)
Lemma UnmapFromIommuLocked_inv t w t' w' st :
  UnmapFromIommuLocked t w = Ret (t', w', st) →
  (∃ rest, mapped_addrs_ t = UINT64_MAX :: rest ∧
           t' = t ∧ w' = w ∧ st = ZX_OK) ∨
  (∃ first rest, mapped_addrs_ t = first :: rest ∧ first ≠ UINT64_MAX ∧
           t' = InvalidateMappedAddrsLocked t ∧ extends is_unmap w w').
Proof.
  unfold UnmapFromIommuLocked. intros Hr.
  apply bind_Ret in Hr as (first & Hget & Hr).
  assert (∃ rest, mapped_addrs_ t = first :: rest) as [rest Ha].
  { unfold array_get in Hget.
    destruct (mapped_addrs_ t) as [|x rest]; simpl in Hget; [discriminate|].
    inversion Hget; eauto. }
  destruct (first =? UINT64_MAX) eqn:Hs.
  - apply Z.eqb_eq in Hs; subst first. inversion Hr; subst.
    left; eauto.
  - apply Z.eqb_neq in Hs.
    apply bind_Ret in Hr as ([w1 st1] & Hbody & Hr).
    inversion Hr; subst; clear Hr.
    right. exists first, rest.
    split; [assumption|]. split; [assumption|]. split; [reflexivity|].
    destruct (is_contiguous_ t).
    + inversion Hbody as [Hu].
      pose proof (Unmap_extends w (bti_id (bti_ t)) first (size_ t)) as Hx.
      rewrite Hu in Hx. exact Hx.
    + eapply unmap_walk_extends; eauto.
Qed.


(** After the unmap algorithm a table that was binary is invalidated, and
    only IOMMU unmap calls were made. *)
Lemma UnmapFromIommuLocked_post t w t' w' st :
  UnmapFromIommuLocked t w = Ret (t', w', st) →
  extends is_unmap w w' ∧
  length (mapped_addrs_ t') = length (mapped_addrs_ t) ∧
  (∃ rest, mapped_addrs_ t' = UINT64_MAX :: rest) ∧
  (table_binary (mapped_addrs_ t) → all_sentinel (mapped_addrs_ t')) ∧
  same_token t t'.
Proof.
  intros Hr. apply UnmapFromIommuLocked_inv in Hr
    as [(rest & Ha & -> & -> & ->)|(first & rest & Ha & Hne & -> & Hext)].
  - split; [apply extends_refl|]. split; auto. split; eauto.
    split; [|apply same_token_refl].
    rewrite Ha. intros [Hs|Hv]; auto. inversion Hv; congruence.
  - split; auto. split; [apply Invalidate_length|].
    split; [simpl; rewrite Ha; simpl; eauto|].
    split; [intros _; apply Invalidate_all_sentinel|].
    unfold same_token; simpl. rewrite length_fmap. tauto.
Qed.

Lemma Map_extends w id vmo offset size perms :
  extends is_iommu_call w (Map w id vmo offset size perms).1.
Proof.
  unfold Map. destruct (iommu_Map _ _ _ _ _ _) as [s [[st va] ml]]; simpl.
  repeat split; auto. eexists; split; eauto. repeat constructor.
Qed.

Lemma Unmap_extends_call w id vaddr size :
  extends is_iommu_call w (Unmap w id vaddr size).1.
Proof.
  eapply extends_weaken; [|apply Unmap_extends]. intros []; simpl; tauto.
Qed.

Lemma map_contiguous_loop_extends fuel t perms :
  ∀ base curr rem w w' st base',
  map_contiguous_loop fuel t perms base curr rem w = Ret (w', st, base') →
  extends is_iommu_call w w'.
Proof.
  induction fuel as [|fuel IH]; simpl; intros base curr rem w w' st base' Hr;
    [discriminate|].
  destruct (0 <? rem); [|inversion Hr; subst; apply extends_refl].
  pose proof (Map_extends w (bti_id (bti_ t)) (vmo_ t) curr rem perms) as Hm.
  destruct (Map w _ _ curr rem perms) as [w1 [[status vaddr] mapped_len]].
  simpl in Hm.
  destruct (negb (status =? ZX_OK)).
  { inversion Hr; subst; clear Hr. eapply extends_trans; [exact Hm|].
    destruct (negb (base' =? kInvalidAddr));
      [apply Unmap_extends_call|apply extends_refl]. }
  destruct (base =? kInvalidAddr).
  { eapply extends_trans; [exact Hm|]. eapply IH; eauto. }
  destruct (negb (vaddr =? _)).
  { inversion Hr; subst; clear Hr. eapply extends_trans; [exact Hm|].
    eapply extends_trans; apply Unmap_extends_call. }
  eapply extends_trans; [exact Hm|]. eapply IH; eauto.
Qed.

Lemma array_set_Ret a i v a' :
  array_set a i v = Ret a' → (i < length a)%nat ∧ a' = <[i:=v]> a.
Proof.
  unfold array_set. destruct (decide _); intros Hr; inversion Hr; auto.
Qed.

Lemma fill_strided_length n : ∀ i mc a a',
  fill_strided n i mc a = Ret a' → length a' = length a.
Proof.
  induction n as [|n IH]; simpl; intros i mc a a' Hr.
  - inversion Hr; auto.
  - apply bind_Ret in Hr as (prev & _ & Hr).
    apply bind_Ret in Hr as (a1 & Hset & Hr).
    apply array_set_Ret in Hset as [_ ->].
    apply IH in Hr. rewrite Hr. apply length_insert.
Qed.

Lemma split_extent_length fuel mc : ∀ a idx vaddr mrem a' idx',
  split_extent fuel mc a idx vaddr mrem = Ret (a', idx') →
  length a' = length a ∧ ((idx ≤ idx' ≤ length a)%nat ∨ mrem ≤ 0 ∧ idx' = idx).
Proof.
  induction fuel as [|fuel IH]; simpl; intros a idx vaddr mrem a' idx' Hr;
    [discriminate|].
  destruct (0 <? mrem) eqn:Hpos.
  - apply bind_Ret in Hr as (a1 & Hset & Hr).
    apply array_set_Ret in Hset as [Hlt ->].
    apply IH in Hr as [Hlen Hidx]. rewrite length_insert in Hlen, Hidx.
    split; auto. left. lia.
  - inversion Hr; subst. split; auto. right.
    apply Z.ltb_ge in Hpos. auto.
Qed.

Lemma same_token_set t a :
  length a = length (mapped_addrs_ t) → same_token t (set_mapped_addrs t a).
Proof. unfold same_token; simpl; tauto. Qed.

Lemma map_scatter_loop_frame fuel perms : ∀ t idx curr rem w t' w' st,
  map_scatter_loop fuel t perms idx curr rem w = Ret (t', w', st) →
  extends is_iommu_call w w' ∧ same_token t t'.
Proof.
  induction fuel as [|fuel IH]; intros t idx curr rem w t' w' st Hr;
    [discriminate|].
  cbn [map_scatter_loop] in Hr.
  destruct (0 <? rem).
  2:{ apply bind_Ret in Hr as (_ & _ & Hr). inversion Hr; subst.
      split; [apply extends_refl|apply same_token_refl]. }
  pose proof (Map_extends w (bti_id (bti_ t)) (vmo_ t) curr rem perms) as Hm.
  destruct (Map w _ _ curr rem perms) as [w1 [[status vaddr] mapped_len]].
  simpl in Hm.
  destruct (negb (status =? ZX_OK)).
  - apply bind_Ret in Hr as ([[t1 w2] err] & Hun & Hr).
    apply bind_Ret in Hr as (_ & _ & Hr). inversion Hr; subst; clear Hr.
    apply UnmapFromIommuLocked_post in Hun as (Hext & _ & _ & _ & Hsame).
    split; auto. eapply extends_trans; [exact Hm|].
    eapply extends_weaken; [|exact Hext]. intros []; simpl; tauto.
  - apply bind_Ret in Hr as (_ & _ & Hr).
    apply bind_Ret in Hr as ([a1 idx1] & Hsp & Hr).
    apply split_extent_length in Hsp as [Hlen _].
    apply IH in Hr as [Hext Hsame]. split.
    + eapply extends_trans; eauto.
    + eapply same_token_trans; [|exact Hsame]. apply same_token_set; auto.
Qed.

Lemma MapIntoIommu_frame fuel t perms w t' w' st :
  MapIntoIommu fuel t perms w = Ret (t', w', st) →
  extends is_iommu_call w w' ∧ same_token t t'.
Proof.
  unfold MapIntoIommu. destruct (is_contiguous_ t) eqn:Hc.
  - intros Hr. apply bind_Ret in Hr as ([[w1 st1] base] & Hloop & Hr).
    apply map_contiguous_loop_extends in Hloop.
    destruct (negb (st1 =? ZX_OK)).
    + inversion Hr; subst. split; [auto|apply same_token_refl].
    + apply bind_Ret in Hr as (a0 & Hset & Hr).
      apply bind_Ret in Hr as (a & Hfill & Hr). inversion Hr; subst.
      apply array_set_Ret in Hset as [_ ->].
      apply fill_strided_length in Hfill. rewrite length_insert in Hfill.
      split; auto. apply same_token_set; auto.
  - apply map_scatter_loop_frame.
Qed.

(** *** Arithmetic of the table size *)

Lemma wrap64_small z : 0 ≤ z < 2 ^ 64 → wrap64 z = z.
Proof. intros. unfold wrap64. apply Z.mod_small; auto. Qed.

Lemma wrap64_range z : 0 ≤ wrap64 z < 2 ^ 64.
Proof. unfold wrap64. apply Z.mod_pos_bound. lia. Qed.

Lemma pow2_bounds k : 0 ≤ k < 64 → 0 < 2 ^ k < 2 ^ 64.
Proof.
  intros. split; [apply Z.pow_pos_nonneg; lia|].
  apply Z.pow_lt_mono_r; lia.
Qed.

Lemma not64_mask k :
  0 ≤ k < 64 → not64 (2 ^ k - 1) = Z.land (Z.lnot (Z.ones k)) (Z.ones 64).
Proof.
  intros Hk. unfold not64, wrap64.
  rewrite Z.land_ones by lia. rewrite Z.ones_equiv. reflexivity.
Qed.

(** On a power of two and without overflow, [ROUNDUP] rounds up. *)
Lemma ROUNDUP_pow2 a k :
  0 ≤ k < 64 → 0 ≤ a → a + 2 ^ k ≤ 2 ^ 64 →
  ROUNDUP a (2 ^ k) = (a + 2 ^ k - 1) / 2 ^ k * 2 ^ k.
Proof.
  intros Hk Ha Hno. pose proof (pow2_bounds k Hk) as Hp.
  unfold ROUNDUP, add64, sub64.
  rewrite (wrap64_small (2 ^ k - 1)) by lia.
  rewrite (wrap64_small (a + (2 ^ k - 1))) by lia.
  rewrite not64_mask by lia.
  rewrite (Z.land_comm (Z.lnot _)). rewrite Z.land_assoc.
  rewrite (Z.land_ones _ 64) by lia.
  rewrite Z.mod_small by lia.
  rewrite <- Z.ldiff_land, Z.ldiff_ones_r by lia.
  rewrite Z.shiftr_div_pow2, Z.shiftl_mul_pow2 by lia.
  f_equal. f_equal. lia.
Qed.

Lemma num_addrs_pow2 a k :
  0 ≤ k < 64 → 0 ≤ a → a + 2 ^ k ≤ 2 ^ 64 →
  ROUNDUP a (2 ^ k) / 2 ^ k = (a + 2 ^ k - 1) / 2 ^ k.
Proof.
  intros Hk Ha Hno. rewrite ROUNDUP_pow2 by auto.
  apply Z.div_mul. pose proof (pow2_bounds k Hk). lia.
Qed.

(** *** Create *)

Lemma pin_and_probe_inv vmo offset size w w1 r :
  pin_and_probe vmo offset size w = (w1, r) →
  bti_pmos w1 = bti_pmos w ∧ bti_quarantine w1 = bti_quarantine w ∧
  iommu_st w1 = iommu_st w ∧
  unpin_count (trace w1) = unpin_count (trace w) ∧
  (∀ c, r = inr c →
     trace w1 = trace w ++
       (if is_paged vmo then [EvCommitRange offset size; EvPin offset size]
        else [])).
Proof.
  unfold pin_and_probe. destruct (is_paged vmo).
  - destruct (negb (CommitRange vmo offset size =? ZX_OK)).
    { intros Hr; inversion Hr; subst; simpl. repeat split; auto.
      - unfold unpin_count. rewrite filter_app, length_app. simpl. lia.
      - discriminate. }
    destruct (negb (Pin vmo offset size =? ZX_OK)).
    { intros Hr; inversion Hr; subst; simpl. repeat split; auto.
      - unfold unpin_count. rewrite !filter_app, !length_app. simpl. lia.
      - discriminate. }
    destruct (Lookup _ _ _ _ _) as [status e].
    intros Hr; inversion Hr; subst; simpl. repeat split; auto.
    + unfold unpin_count. rewrite !filter_app, !length_app. simpl. lia.
    + intros. rewrite <- app_assoc. reflexivity.
  - intros Hr; inversion Hr; subst. repeat split; auto.
    intros. rewrite app_nil_r. reflexivity.
Qed.

(** What a successful [Create] went through. *)
Lemma Create_success_inv fuel a1 a2 id bti vmo offset size perms w w' st t r :
  Create fuel a1 a2 id bti vmo offset size perms w = Ret (w', st, Some (t, r)) →
  st = ZX_OK ∧
  ∃ w1 c,
    pin_and_probe vmo offset size w = (w1, inr c) ∧
    MapIntoIommu fuel
      (construct id bti vmo offset size c
         (replicate (Z.to_nat (ROUNDUP size (minimum_contiguity bti)
                               / minimum_contiguity bti)) 0) w1).1
      perms (AddPmoLocked w1 id) = Ret (t, w', ZX_OK).
Proof.
  unfold Create. intros Hr.
  apply bind_Ret in Hr as (_ & _ & Hr).
  destruct (pin_and_probe vmo offset size w) as [w1 [status|c]];
    [inversion Hr|].
  apply bind_Ret in Hr as (_ & _ & Hr).
  destruct (negb a1); [inversion Hr|].
  destruct (negb a2); [inversion Hr|].
  cbn [construct] in Hr.
  apply bind_Ret in Hr as ([[pmo' w3] status] & Hmap & Hr).
  destruct (negb (status =? ZX_OK)) eqn:Hst.
  - apply bind_Ret in Hr as (w4 & _ & Hr). inversion Hr.
  - inversion Hr; subst. split; auto.
    exists w1, c. split; auto.
    apply negb_false_iff, Z.eqb_eq in Hst. subst status. exact Hmap.
Qed.

Lemma unpin_count_app evs1 evs2 :
  unpin_count (evs1 ++ evs2) = (unpin_count evs1 + unpin_count evs2)%nat.
Proof. unfold unpin_count. rewrite filter_app, length_app. reflexivity. Qed.

Lemma unpin_count_none evs :
  Forall is_iommu_call evs → unpin_count evs = 0%nat.
Proof.
  induction 1 as [|e evs He _ IH]; [reflexivity|].
  change (e :: evs) with ([e] ++ evs). rewrite unpin_count_app, IH.
  destruct e; simpl in He; try contradiction; reflexivity.
Qed.

Lemma extends_unpin_count w w' :
  extends is_iommu_call w w' →
  unpin_count (trace w') = unpin_count (trace w).
Proof.
  intros (_ & _ & evs & -> & Hf).
  rewrite unpin_count_app, (unpin_count_none evs Hf). lia.
Qed.

Lemma is_unmap_iommu_call e : is_unmap e → is_iommu_call e.
Proof. destruct e; simpl; tauto. Qed.

(** The world and the token a successful [Create] hands back. *)
Lemma Create_success_post fuel a1 a2 id bti vmo offset size perms w w' st t r :
  Create fuel a1 a2 id bti vmo offset size perms w = Ret (w', st, Some (t, r)) →
  st = ZX_OK ∧ koid t = id ∧ vmo_ t = vmo ∧ offset_ t = offset ∧
  size_ t = size ∧ bti_ t = bti ∧ explicitly_unpinned_ t = false ∧
  length (mapped_addrs_ t) =
    Z.to_nat (ROUNDUP size (minimum_contiguity bti) / minimum_contiguity bti) ∧
  bti_pmos w' = {[id]} ∪ bti_pmos w ∧
  bti_quarantine w' = bti_quarantine w ∧
  unpin_count (trace w') = unpin_count (trace w).
Proof.
  intros Hr. apply Create_success_inv in Hr as (-> & w1 & c & Hpp & Hmap).
  apply pin_and_probe_inv in Hpp as (Hp & Hq & _ & Hu & _).
  apply MapIntoIommu_frame in Hmap as [Hext Hsame].
  pose proof (extends_unpin_count _ _ Hext) as Hu'.
  destruct Hext as (Hp' & Hq' & _).
  destruct Hsame as (? & ? & ? & ? & ? & ? & ? & Hlen).
  simpl in *. rewrite length_fmap, length_replicate in Hlen.
  repeat split; try assumption; congruence.
Qed.

Lemma destroy_inv t w w' :
  destroy t w = Ret w' →
  ∃ t1 w1, UnmapFromIommuLocked t w = Ret (t1, w1, ZX_OK).
Proof.
  unfold destroy. intros Hr.
  apply bind_Ret in Hr as ([[t1 w1] st] & Hun & Hr).
  apply bind_Ret in Hr as (u & Has & _).
  unfold ASSERT in Has. destruct (st =? ZX_OK) eqn:Hst; [|discriminate].
  apply Z.eqb_eq in Hst; subst. eauto.
Qed.

(** *** The size of the table *)

(** C1 (amended): the table of every successfully created token has
    ceil(size / minimum_contiguity) entries, whether the range is
    contiguous or not; the contiguous policy fills all of them by
    striding from the base, it does not shrink the table to one entry. *)
Theorem Create_table_length fuel a1 a2 id bti vmo offset size perms w w' st t r k :
  Create fuel a1 a2 id bti vmo offset size perms w = Ret (w', st, Some (t, r)) →
  minimum_contiguity bti = 2 ^ k → 0 ≤ k < 64 →
  0 ≤ size → size + minimum_contiguity bti ≤ 2 ^ 64 →
  Z.of_nat (length (mapped_addrs_ t)) =
    (size + minimum_contiguity bti - 1) / minimum_contiguity bti.
Proof.
  intros Hr Hmc Hk Hsize Hno.
  apply Create_success_post in Hr as (_ & _ & _ & _ & _ & _ & _ & Hlen & _).
  rewrite Hlen, Hmc in *. rewrite num_addrs_pow2 by lia.
  apply Z2Nat.id. apply Z.div_pos; pose proof (pow2_bounds k Hk); lia.
Qed.

(** *** Unmapping, release and destruction *)

(** C4: with the sentinel in the first entry the unmap algorithm
    returns ZX_OK and leaves the token and the world (IOMMU state and
    trace included) as they were; so a second run after any run that
    returned changes nothing, makes no IOMMU call, and the table it
    finds and leaves is wholly the sentinel. *)
Theorem UnmapFromIommuLocked_idempotent t w rest t1 w1 st :
  (mapped_addrs_ t = UINT64_MAX :: rest →
     UnmapFromIommuLocked t w = Ret (t, w, ZX_OK)) ∧
  (UnmapFromIommuLocked t w = Ret (t1, w1, st) →
     UnmapFromIommuLocked t1 w1 = Ret (t1, w1, ZX_OK) ∧
     (table_binary (mapped_addrs_ t) → all_sentinel (mapped_addrs_ t1))).
Proof.
  assert (Hnoop : ∀ t0 (w0 : World) rest0,
             mapped_addrs_ t0 = UINT64_MAX :: rest0 →
             UnmapFromIommuLocked t0 w0 = Ret (t0, w0, ZX_OK)).
  { intros t0 w0 rest0 Ha. unfold UnmapFromIommuLocked, array_get.
    rewrite Ha. reflexivity. }
  split; [apply Hnoop|].
  intros Hr.
  apply UnmapFromIommuLocked_post in Hr as (_ & _ & [rest1 Ha1] & Hall & _).
  split; [eapply Hnoop; eauto|exact Hall].
Qed.


(** C5: the destructor runs the unmap algorithm first, whatever the
    state; when that succeeds it unpins the range once if the VMO is
    paged and not at all otherwise, removes the token from the BTI's
    live set and leaves the quarantine set alone.  Destroying a token
    straight after a successful [Create] therefore leaves the
    quarantine set as it was before the creation and adds exactly one
    unpin for a paged VMO. *)
Theorem destroy_releases_pin fuel a1 a2 id bti vmo offset size perms w0 st r
    t w t1 w1 w' :
  (UnmapFromIommuLocked t w = Ret (t1, w1, ZX_OK) →
     destroy t w =
       Ret (RemovePmo (if is_paged (vmo_ t)
                       then Unpin w1 (offset_ t) (size_ t) else w1) (koid t)) ∧
     extends is_unmap w w1) ∧
  (destroy t w = Ret w' →
     unpin_count (trace w') =
       (unpin_count (trace w) + (if is_paged (vmo_ t) then 1 else 0))%nat ∧
     bti_pmos w' = bti_pmos w ∖ {[koid t]} ∧
     bti_quarantine w' = bti_quarantine w) ∧
  (Create fuel a1 a2 id bti vmo offset size perms w0 = Ret (w, st, Some (t, r)) →
   destroy t w = Ret w' →
     bti_quarantine w' = bti_quarantine w0 ∧
     (id ∉ bti_pmos w') ∧
     unpin_count (trace w') =
       (unpin_count (trace w0) + (if is_paged vmo then 1 else 0))%nat).
Proof.
  assert (Hrun : ∀ t2 w2,
    UnmapFromIommuLocked t w = Ret (t2, w2, ZX_OK) →
    destroy t w =
      Ret (RemovePmo (if is_paged (vmo_ t)
                      then Unpin w2 (offset_ t) (size_ t) else w2) (koid t)) ∧
    extends is_unmap w w2).
  { intros t2 w2 Hun.
    pose proof (UnmapFromIommuLocked_post _ _ _ _ _ Hun)
      as (Hext & _ & _ & _ & Hsame).
    destruct Hsame as (Hk & Hv & Ho & Hs & _).
    split; [|exact Hext].
    unfold destroy. rewrite Hun. simpl. rewrite Hk, Hv, Ho, Hs. reflexivity. }
  assert (Hpost : ∀ w2, destroy t w = Ret w2 →
    unpin_count (trace w2) =
      (unpin_count (trace w) + (if is_paged (vmo_ t) then 1 else 0))%nat ∧
    bti_pmos w2 = bti_pmos w ∖ {[koid t]} ∧
    bti_quarantine w2 = bti_quarantine w).
  { intros w2 Hd. pose proof Hd as Hd'.
    apply destroy_inv in Hd' as (t2 & w3 & Hun).
    apply Hrun in Hun as [Hd2 Hext]. rewrite Hd2 in Hd.
    inversion Hd; subst; clear Hd.
    pose proof (extends_unpin_count w w3
                  (extends_weaken _ _ _ _ is_unmap_iommu_call Hext)) as Hc.
    destruct Hext as (Hp & Hq & _).
    destruct (is_paged (vmo_ t)); simpl.
    - rewrite unpin_count_app, Hc, Hp, Hq. auto.
    - rewrite Hc, Hp, Hq. split; [lia|auto]. }
  split; [apply Hrun|]. split; [apply Hpost|].
  intros Hc Hd.
  apply Create_success_post in Hc
    as (_ & Hk & Hv & _ & _ & _ & _ & _ & Hp & Hq & Hu).
  apply Hpost in Hd as (Hu' & Hp' & Hq').
  rewrite Hu', Hp', Hq', Hu, Hq, Hk, Hv.
  split; [reflexivity|]. split; [|reflexivity].
  rewrite elem_of_difference, elem_of_singleton. tauto.
Qed.

(** *** Address export *)

Lemma all_sentinel_replicate a :
  all_sentinel a → a = replicate (length a) UINT64_MAX.
Proof.
  intros Ha. symmetry. apply replicate_as_Forall. split; auto.
  eapply Forall_impl; [exact Ha|]. simpl; auto.
Qed.

Lemma encode_extent_sentinel n mc np idx out :
  encode_extent n (add64 UINT64_MAX mc) np UINT64_MAX idx out = (out, idx).
Proof.
  destruct n; simpl; [reflexivity|].
  pose proof (wrap64_range (UINT64_MAX + mc)) as Hr.
  unfold add64. replace (UINT64_MAX <? wrap64 (UINT64_MAX + mc)) with false;
    [reflexivity|].
  symmetry. apply Z.ltb_ge. unfold UINT64_MAX in *. lia.
Qed.

Lemma encode_extents_sentinel mc np a : ∀ idx out,
  all_sentinel a → encode_extents mc np a idx out = (out, idx).
Proof.
  induction a as [|e a IH]; simpl; intros idx out Ha; [reflexivity|].
  inversion Ha; subst. rewrite encode_extent_sentinel. apply IH; auto.
Qed.

(** C9 (amended): export does not look at whether the token is mapped.
    On an invalidated table and with a buffer of the right size it
    answers ZX_OK; the compressed mode hands out the sentinel in every
    element, the expanded mode writes nothing and the buffer comes back
    as the caller passed it. *)
Theorem EncodeAddrs_invalidated t compress buf :
  all_sentinel (mapped_addrs_ t) →
  (compress = true → length (mapped_addrs_ t) = length buf) →
  (compress = false → size_ t / PAGE_SIZE = Z.of_nat (length buf)) →
  EncodeAddrs t compress buf =
    (ZX_OK, if compress then replicate (length buf) UINT64_MAX else buf).
Proof.
  intros Hall Hc He. unfold EncodeAddrs. destruct compress.
  - specialize (Hc eq_refl) as Hsz. rewrite Hsz, Nat.eqb_refl. simpl.
    rewrite drop_all, app_nil_r, <- Hsz.
    f_equal. apply all_sentinel_replicate; auto.
  - rewrite (He eq_refl), Z.eqb_refl. simpl.
    rewrite encode_extents_sentinel by auto. reflexivity.
Qed.

Lemma encode_extent_spec n : ∀ (c : nat) addr (idx : nat) out np,
  0 ≤ addr → addr + Z.of_nat c * PAGE_SIZE < 2 ^ 64 →
  (Z.to_nat np - idx ≤ n)%nat → 0 ≤ np →
  length out = Z.to_nat np →
  ∃ out',
    encode_extent n (addr + Z.of_nat c * PAGE_SIZE) np addr idx out =
      (out', (idx + Nat.min c (Z.to_nat np - idx))%nat) ∧
    length out' = length out ∧
    (∀ j : nat, (j < Nat.min c (Z.to_nat np - idx))%nat →
       out' !! (idx + j)%nat = Some (addr + Z.of_nat j * PAGE_SIZE)) ∧
    (∀ i : nat, (i < idx)%nat → out' !! i = out !! i).
Proof.
  induction n as [|n IH]; intros c addr idx out np Haddr Hlim Hn Hnp Hlen.
  - simpl. exists out. replace (Z.to_nat np - idx)%nat with 0%nat by lia.
    rewrite Nat.min_0_r, Nat.add_0_r. repeat split; auto. intros; lia.
  - cbn [encode_extent]. destruct c as [|c].
    { exists out. replace (Z.of_nat 0 * PAGE_SIZE) with 0 by lia.
      rewrite Z.add_0_r, Z.ltb_irrefl. cbn [andb].
      rewrite Nat.min_0_l, Nat.add_0_r.
      repeat split; auto. intros; lia. }
    assert (HP : 0 < PAGE_SIZE) by reflexivity.
    replace (addr <? addr + Z.of_nat (S c) * PAGE_SIZE) with true
      by (symmetry; apply Z.ltb_lt; nia).
    destruct (Z.of_nat idx <? np) eqn:Hidx; cbn [andb].
    2:{ apply Z.ltb_ge in Hidx. exists out.
        replace (Z.to_nat np - idx)%nat with 0%nat by lia.
        rewrite Nat.min_0_r, Nat.add_0_r. repeat split; auto. intros; lia. }
    apply Z.ltb_lt in Hidx.
    unfold add64. rewrite wrap64_small by nia.
    replace (addr + Z.of_nat (S c) * PAGE_SIZE)
      with (addr + PAGE_SIZE + Z.of_nat c * PAGE_SIZE) in * by lia.
    destruct (IH c (addr + PAGE_SIZE) (S idx) (<[idx:=addr]> out) np)
      as (out' & Hrun & Hlen' & Hnew & Hold); try lia.
    { rewrite length_insert. auto. }
    exists out'. rewrite Hrun, Hlen', length_insert.
    replace (Nat.min (S c) (Z.to_nat np - idx))
      with (S (Nat.min c (Z.to_nat np - S idx))) by lia.
    split; [f_equal; lia|]. split; [reflexivity|]. split.
    + intros [|j] Hj.
      * rewrite Nat.add_0_r, Hold by lia.
        rewrite list_lookup_insert_eq by lia. f_equal. lia.
      * replace (idx + S j)%nat with (S idx + j)%nat by lia.
        rewrite Hnew by lia. f_equal. lia.
    + intros i Hi. rewrite Hold by lia.
      apply list_lookup_insert_ne. lia.
Qed.

Lemma encode_extents_spec mc np (ppc : nat) :
  mc = Z.of_nat ppc * PAGE_SIZE → (0 < ppc)%nat → 0 ≤ np →
  ∀ table (k idx : nat) out,
  Forall (extent_in_range mc) table →
  length out = Z.to_nat np →
  idx = Nat.min (k * ppc) (Z.to_nat np) →
  ∃ out',
    encode_extents mc np table idx out =
      (out', Nat.min ((k + length table) * ppc) (Z.to_nat np)) ∧
    length out' = length out ∧
    (∀ i : nat,
       (idx ≤ i < Nat.min ((k + length table) * ppc) (Z.to_nat np))%nat →
       ∃ e, table !! (i / ppc - k)%nat = Some e ∧
            out' !! i = Some (e + Z.of_nat (i mod ppc) * PAGE_SIZE)) ∧
    (∀ i : nat, (i < idx)%nat → out' !! i = out !! i).
Proof.
  intros Hmc Hppc Hnp.
  assert (HP : 0 < PAGE_SIZE) by reflexivity.
  induction table as [|e rest IH]; intros k idx out Hext Hlen Hidx.
  - simpl. rewrite Nat.add_0_r, <- Hidx. exists out.
    repeat split; auto. intros; lia.
  - apply Forall_cons in Hext as [[He0 He1] Hrest].
    cbn [encode_extents].
    unfold add64. rewrite wrap64_small by (split; [nia|exact He1]).
    rewrite Hmc in He1 |- *.
    destruct (encode_extent_spec (Z.to_nat np - idx) ppc e idx out np)
      as (out1 & Hrun & Hlen1 & Hnew & Hold); auto.
    rewrite <- Hmc in Hrun |- *. rewrite Hrun. cbv beta iota.
    assert (Hidx1 : (idx + Nat.min ppc (Z.to_nat np - idx))%nat =
                    Nat.min (S k * ppc) (Z.to_nat np)) by nia.
    destruct (IH (S k) _ out1 Hrest ltac:(congruence) Hidx1)
      as (out' & Hrun' & Hlen' & Hnew' & Hold').
    replace (k + length (e :: rest))%nat with (S k + length rest)%nat
      by (simpl; lia).
    exists out'. rewrite Hrun'.
    split; [reflexivity|]. split; [congruence|]. split.
    + intros i Hi.
      destruct (Nat.lt_ge_cases i (Nat.min (S k * ppc) (Z.to_nat np)))
        as [Hlt|Hge].
      * assert (Hk : idx = (k * ppc)%nat) by nia.
        assert (Hj : (i - idx < ppc)%nat) by nia.
        assert (Hdiv : (i / ppc)%nat = k).
        { symmetry. apply (Nat.div_unique i ppc k (i - idx)); nia. }
        assert (Hmod : (i mod ppc)%nat = (i - idx)%nat).
        { symmetry. apply (Nat.mod_unique i ppc k (i - idx)); nia. }
        exists e. rewrite Hdiv, Hmod, Nat.sub_diag. split; [reflexivity|].
        rewrite Hold' by lia.
        replace i with (idx + (i - idx))%nat at 1 by lia.
        apply Hnew. lia.
      * destruct (Hnew' i) as (e' & Hl & Ho); [lia|].
        exists e'. split; [|exact Ho].
        assert (S k ≤ i / ppc)%nat
          by (apply Nat.div_le_lower_bound; nia).
        replace (i / ppc - k)%nat with (S (i / ppc - S k)) by lia.
        exact Hl.
    + intros i Hi. rewrite Hold' by lia. apply Hold; auto.
Qed.

(** C8: for a token whose table has ceil(size / min_contig) entries,
    each the base of a min_contig extent inside the address space, the
    expanded export into a buffer of size / PAGE_SIZE elements answers
    ZX_OK and fills every element: element [i] is entry
    [i / pages_per_chunk] plus [(i mod pages_per_chunk) * PAGE_SIZE].
    So chunk starts are the table entries in order, addresses step by
    the page size inside a chunk, and the last chunk stops at the page
    count. *)
Theorem EncodeAddrs_expanded t buf (ppc : nat) :
  minimum_contiguity (bti_ t) = Z.of_nat ppc * PAGE_SIZE → (0 < ppc)%nat →
  0 ≤ size_ t →
  Z.of_nat (length (mapped_addrs_ t)) =
    (size_ t + minimum_contiguity (bti_ t) - 1) / minimum_contiguity (bti_ t) →
  Forall (extent_in_range (minimum_contiguity (bti_ t))) (mapped_addrs_ t) →
  Z.of_nat (length buf) = size_ t / PAGE_SIZE →
  ∃ out,
    EncodeAddrs t false buf = (ZX_OK, out) ∧
    length out = length buf ∧
    ∀ i : nat, (i < length buf)%nat →
      ∃ e, mapped_addrs_ t !! (i / ppc)%nat = Some e ∧
           out !! i = Some (e + Z.of_nat (i mod ppc) * PAGE_SIZE).
Proof.
  intros Hmc Hppc Hsize Hlen Hext Hbuf.
  assert (HP : PAGE_SIZE = 4096) by reflexivity.
  set (mc := minimum_contiguity (bti_ t)) in *.
  set (np := size_ t / PAGE_SIZE) in *.
  assert (Hnp : 0 ≤ np) by (apply Z.div_pos; lia).
  assert (Hmcpos : 0 < mc) by nia.
  assert (Hcover : (Z.to_nat np ≤ length (mapped_addrs_ t) * ppc)%nat).
  { assert (size_ t ≤ Z.of_nat (length (mapped_addrs_ t)) * mc).
    { rewrite Hlen.
      pose proof (Z.div_mod (size_ t + mc - 1) mc ltac:(lia)).
      pose proof (Z.mod_pos_bound (size_ t + mc - 1) mc Hmcpos). nia. }
    assert (np * PAGE_SIZE ≤ size_ t).
    { pose proof (Z.div_mod (size_ t) PAGE_SIZE ltac:(lia)).
      pose proof (Z.mod_pos_bound (size_ t) PAGE_SIZE ltac:(lia)).
      fold np in H1. nia. }
    apply Nat2Z.inj_le. rewrite Z2Nat.id by lia. nia. }
  destruct (encode_extents_spec mc np ppc Hmc Hppc Hnp (mapped_addrs_ t)
              0%nat 0%nat buf Hext ltac:(lia) ltac:(lia))
    as (out & Hrun & Hlen' & Hnew & _).
  exists out. unfold EncodeAddrs. fold np mc.
  replace (np =? Z.of_nat (length buf)) with true
    by (symmetry; apply Z.eqb_eq; lia).
  cbn [negb]. rewrite Hrun. split; [reflexivity|]. split; [exact Hlen'|].
  intros i Hi. destruct (Hnew i) as (e & Hl & Ho); [simpl; lia|].
  exists e. rewrite Nat.sub_0_r in Hl. auto.
Qed.

(** *** The contiguous policy *)

Lemma contiguous_progress_run t perms n s w s' w' :
  contiguous_progress t perms n s w s' w' →
  ∀ fuel,
    map_contiguous_loop (n + fuel) t perms s.1.1 s.1.2 s.2 w =
    map_contiguous_loop fuel t perms s'.1.1 s'.1.2 s'.2 w'.
Proof.
  induction 1 as [|n base curr rem w w1 vaddr ml s' w' Hrem Hmap Hok _ IH];
    intros fuel; [reflexivity|].
  cbn [Nat.add map_contiguous_loop fst snd].
  apply Z.ltb_lt in Hrem. rewrite Hrem, Hmap. cbn [negb Z.eqb ZX_OK].
  rewrite <- (IH fuel). cbn [fst snd].
  destruct (base =? kInvalidAddr) eqn:Hb; [reflexivity|].
  destruct Hok as [Hk | Hk]; [subst base; discriminate|subst vaddr].
  rewrite Z.eqb_refl. reflexivity.
Qed.

Lemma contiguous_mismatch fuel t perms base curr rem w w1 vaddr mapped_len :
  0 < rem → base ≠ kInvalidAddr →
  Map w (bti_id (bti_ t)) (vmo_ t) curr rem perms =
    (w1, (ZX_OK, vaddr, mapped_len)) →
  vaddr ≠ sub64 (add64 base curr) (offset_ t) →
  map_contiguous_loop (S fuel) t perms base curr rem w =
    Ret ((Unmap (Unmap w1 (bti_id (bti_ t)) base
                   (sub64 curr (offset_ t))).1
            (bti_id (bti_ t)) vaddr mapped_len).1,
         ZX_ERR_INTERNAL, base).
Proof.
  intros Hrem Hbase Hmap Hne. cbn [map_contiguous_loop].
  apply Z.ltb_lt in Hrem. rewrite Hrem, Hmap. cbn [negb Z.eqb ZX_OK].
  apply Z.eqb_neq in Hbase, Hne. rewrite Hbase, Hne. reflexivity.
Qed.

Lemma DEBUG_ASSERT_true : DEBUG_ASSERT true = Ret tt.
Proof. unfold DEBUG_ASSERT. destruct DEBUG_ASSERT_IMPLEMENTED; reflexivity. Qed.

(** C2: in the contiguous policy, once a base address is recorded
    ([vaddr_base] differs from [kInvalidAddr], the loop's test for a
    call that is not the first), a map call that answers an address
    other than base + (curr_offset - offset) makes the loop unmap the
    range built so far and the range just returned and answer
    ZX_ERR_INTERNAL; [Create] then fails with that status, hands out no
    token, the destructor unpins a paged VMO and takes the token off
    the BTI's list, and nothing is quarantined. *)
Theorem contiguous_mismatch_fails_creation
    fuel id bti vmo offset size perms w w1 n base curr rem wn wm
    vaddr mapped_len :
  IS_PAGE_ALIGNED offset = true → IS_PAGE_ALIGNED size = true →
  is_pow2 (minimum_contiguity bti) = true →
  0 < ROUNDUP size (minimum_contiguity bti) / minimum_contiguity bti →
  pin_and_probe vmo offset size w = (w1, inr true) →
  contiguous_progress
    (construct id bti vmo offset size true
       (replicate (Z.to_nat (ROUNDUP size (minimum_contiguity bti)
                             / minimum_contiguity bti)) 0) w1).1
    perms n (kInvalidAddr, offset, size) (AddPmoLocked w1 id)
    (base, curr, rem) wn →
  base ≠ kInvalidAddr → 0 < rem →
  Map wn (bti_id bti) vmo curr rem perms = (wm, (ZX_OK, vaddr, mapped_len)) →
  vaddr ≠ sub64 (add64 base curr) offset →
  (n < fuel)%nat →
  ∃ w',
    Create fuel true true id bti vmo offset size perms w =
      Ret (w', ZX_ERR_INTERNAL, None) ∧
    trace w' =
      trace wm ++
      [EvUnmap (bti_id bti) base (sub64 curr offset);
       EvUnmap (bti_id bti) vaddr mapped_len] ++
      (if is_paged vmo then [EvUnpin offset size] else []) ∧
    (id ∉ bti_pmos w') ∧
    bti_quarantine w' = bti_quarantine w.
Proof.
  intros Hao Has Hpow Hnum Hpp Hprog Hbase Hrem Hmap Hne Hfuel.
  set (N := Z.to_nat (ROUNDUP size (minimum_contiguity bti)
                      / minimum_contiguity bti)) in *.
  set (t0 := (construct id bti vmo offset size true (replicate N 0) w1).1)
    in *.
  set (w3 := (Unmap (Unmap wm (bti_id bti) base (sub64 curr offset)).1
                (bti_id bti) vaddr mapped_len).1).
  assert (Hloop : MapIntoIommu fuel t0 perms (AddPmoLocked w1 id) =
                  Ret (t0, w3, ZX_ERR_INTERNAL)).
  { unfold MapIntoIommu. change (is_contiguous_ t0) with true. cbv iota.
    replace fuel with (n + S (fuel - n - 1))%nat by lia.
    pose proof (contiguous_progress_run _ _ _ _ _ _ _ Hprog
                  (S (fuel - n - 1))) as Hrun.
    cbn [fst snd] in Hrun. change (offset_ t0) with offset.
    change (size_ t0) with size. rewrite Hrun.
    rewrite (contiguous_mismatch _ t0 perms base curr rem wn wm vaddr
               mapped_len Hrem Hbase Hmap Hne).
    reflexivity. }
  assert (Hun : UnmapFromIommuLocked t0 w3 = Ret (t0, w3, ZX_OK)).
  { unfold UnmapFromIommuLocked, array_get. subst t0. cbn [fst construct
      InvalidateMappedAddrsLocked set_mapped_addrs mapped_addrs_].
    destruct N as [|N'] eqn:HN; [subst N; lia|]. reflexivity. }
  pose proof (MapIntoIommu_frame _ _ _ _ _ _ _ Hloop) as [Hext _].
  apply pin_and_probe_inv in Hpp as Hinv.
  destruct Hinv as (Hp1 & Hq1 & _).
  destruct Hext as (Hp3 & Hq3 & _). simpl in Hp3, Hq3.
  exists (RemovePmo (unpin_vmo vmo offset size w3) id).
  split.
  { unfold Create. rewrite Hao, Has. cbn [andb].
    rewrite DEBUG_ASSERT_true. cbn [mbind outcome_bind].
    rewrite Hpp, Hpow, DEBUG_ASSERT_true. cbn [mbind outcome_bind negb].
    fold N. change (construct id bti vmo offset size true (replicate N 0) w1)
      with (t0, AddPmoLocked w1 id).
    cbv iota beta. rewrite Hloop. cbn [mbind outcome_bind].
    cbn [Z.eqb ZX_ERR_INTERNAL ZX_OK negb].
    unfold destroy. rewrite Hun. reflexivity. }
  split.
  { unfold w3, unpin_vmo. destruct (is_paged vmo); cbn [RemovePmo trace].
    - unfold Unpin, emit. cbn [trace]. rewrite !Unmap_trace.
      rewrite <- !app_assoc. reflexivity.
    - rewrite !Unmap_trace, app_nil_r, <- !app_assoc. reflexivity. }
  split.
  { unfold unpin_vmo. destruct (is_paged vmo); simpl;
      rewrite elem_of_difference, elem_of_singleton; tauto. }
  unfold unpin_vmo. destruct (is_paged vmo); simpl; congruence.
Qed.

(** *** Termination of the scatter-gather walk *)

Lemma bind_fuel {A B} (m : outcome A) (f : A → outcome B) :
  m ≠ OutOfFuel → (∀ a, m = Ret a → f a ≠ OutOfFuel) →
  m ≫= f ≠ OutOfFuel.
Proof. destruct m; simpl; intros Hm Hf; auto; discriminate. Qed.

Lemma DEBUG_ASSERT_fuel c : DEBUG_ASSERT c ≠ OutOfFuel.
Proof.
  unfold DEBUG_ASSERT, ASSERT.
  destruct DEBUG_ASSERT_IMPLEMENTED, c; discriminate.
Qed.

Lemma ASSERT_fuel c : ASSERT c ≠ OutOfFuel.
Proof. unfold ASSERT. destruct c; discriminate. Qed.

Lemma unmap_walk_fuel id mc n addrs : ∀ i rem st w,
  unmap_walk id mc n addrs i rem st w ≠ OutOfFuel.
Proof.
  induction addrs as [|addr rest IH]; simpl; intros i rem st w;
    [discriminate|].
  destruct (addr =? UINT64_MAX); [discriminate|].
  apply bind_fuel; [apply DEBUG_ASSERT_fuel|]. intros _ _.
  destruct (Unmap w id addr (Z.min rem mc)) as [w1 err].
  apply bind_fuel; [apply DEBUG_ASSERT_fuel|]. intros _ _. apply IH.
Qed.

(** The unmap algorithm has no unbounded loop. *)
Lemma UnmapFromIommuLocked_fuel t w : UnmapFromIommuLocked t w ≠ OutOfFuel.
Proof.
  unfold UnmapFromIommuLocked. apply bind_fuel.
  { unfold array_get. destruct (_ !! _); discriminate. }
  intros first _. destruct (first =? UINT64_MAX); [discriminate|].
  apply bind_fuel.
  { destruct (is_contiguous_ t); [discriminate|apply unmap_walk_fuel]. }
  intros [w1 st] _. discriminate.
Qed.

Lemma split_extent_fuel fuel mc : ∀ a idx vaddr mrem,
  (length a - idx < fuel)%nat →
  split_extent fuel mc a idx vaddr mrem ≠ OutOfFuel.
Proof.
  induction fuel as [|fuel IH]; intros a idx vaddr mrem Hf; [lia|].
  simpl. destruct (0 <? mrem); [|discriminate].
  unfold array_set. destruct (decide (idx < length a)%nat); [|discriminate].
  simpl. apply IH. rewrite length_insert. lia.
Qed.

Lemma split_extent_progress fuel mc a idx vaddr mrem a' idx' :
  0 < mrem →
  split_extent fuel mc a idx vaddr mrem = Ret (a', idx') →
  (idx < idx')%nat.
Proof.
  intros Hpos Hr. destruct fuel as [|fuel]; [discriminate|].
  simpl in Hr. apply Z.ltb_lt in Hpos. rewrite Hpos in Hr.
  apply bind_Ret in Hr as (a1 & Hset & Hr).
  apply array_set_Ret in Hset as [Hlt ->].
  apply split_extent_length in Hr as [_ Hidx]. lia.
Qed.

Lemma sub64_le a b : 0 ≤ b ≤ a → 0 ≤ sub64 a b ≤ a - b.
Proof.
  intros. unfold sub64. pose proof (wrap64_range (a - b)).
  split; [lia|]. unfold wrap64. apply Z.mod_le; lia.
Qed.

Lemma map_scatter_loop_fuel perms :
  map_lengths_positive →
  ∀ fuel t idx curr rem w,
    0 ≤ rem → (Z.to_nat rem < fuel)%nat →
    (length (mapped_addrs_ t) < fuel + idx)%nat →
    map_scatter_loop fuel t perms idx curr rem w ≠ OutOfFuel.
Proof.
  intros Hpos. induction fuel as [|fuel IH];
    intros t idx curr rem w Hrem Hf Hlen; [lia|].
  cbn [map_scatter_loop].
  destruct (0 <? rem) eqn:Hr.
  2:{ apply bind_fuel; [apply DEBUG_ASSERT_fuel|]. discriminate. }
  apply Z.ltb_lt in Hr.
  destruct (Map w _ _ curr rem perms) as [w1 [[status vaddr] ml]] eqn:Hmap.
  destruct (negb (status =? ZX_OK)) eqn:Hst.
  - apply bind_fuel; [apply UnmapFromIommuLocked_fuel|].
    intros [[t1 w2] err] _.
    apply bind_fuel; [apply ASSERT_fuel|]. discriminate.
  - apply negb_false_iff, Z.eqb_eq in Hst. subst status.
    apply Hpos in Hmap as Hml.
    apply bind_fuel; [apply DEBUG_ASSERT_fuel|]. intros _ _.
    apply bind_fuel; [apply split_extent_fuel; lia|].
    intros [a1 idx1] Hsp.
    pose proof (split_extent_progress _ _ _ _ _ _ _ _ Hml Hsp) as Hidx.
    apply split_extent_length in Hsp as [Hl _].
    pose proof (sub64_le rem (Z.min ml rem) ltac:(lia)) as Hsub.
    apply IH; [lia|lia|]. simpl. lia.
Qed.

(** *** The table is wholly filled or wholly invalidated *)

Lemma off_sentinel_valid v : off_sentinel v → v ≠ UINT64_MAX.
Proof. intros Hv ->. apply Hv. reflexivity. Qed.

Lemma aligned_off_sentinel v : v mod PAGE_SIZE = 0 → off_sentinel v.
Proof. unfold off_sentinel. intros ->. discriminate. Qed.

Lemma wrap64_mod_page z : wrap64 z mod PAGE_SIZE = z mod PAGE_SIZE.
Proof.
  unfold wrap64. apply Z.mod_mod_divide.
  exists (2 ^ 52). reflexivity.
Qed.

Lemma add64_off_sentinel v mc :
  mc mod PAGE_SIZE = 0 → off_sentinel v → off_sentinel (add64 v mc).
Proof.
  unfold off_sentinel, add64. intros Hmc Hv.
  rewrite wrap64_mod_page, Z.add_mod, Hmc, Z.add_0_r, Z.mod_mod by discriminate.
  exact Hv.
Qed.

Lemma off_sentinel_all_valid a : Forall off_sentinel a → all_valid a.
Proof.
  intros Ha. eapply Forall_impl; [exact Ha|]. apply off_sentinel_valid.
Qed.

Lemma Map_range w id vmo offset size perms w' st vaddr ml :
  Map w id vmo offset size perms = (w', (st, vaddr, ml)) →
  0 ≤ vaddr < 2 ^ 64 ∧ 0 ≤ ml < 2 ^ 64.
Proof.
  unfold Map. destruct (iommu_Map _ _ _ _ _ _) as [s [[st0 va] l]].
  intros Hr; inversion Hr; subst. split; apply wrap64_range.
Qed.

Lemma map_contiguous_loop_base fuel t perms :
  map_addrs_aligned →
  ∀ base curr rem w w' st base',
    off_sentinel base →
    map_contiguous_loop fuel t perms base curr rem w = Ret (w', st, base') →
    off_sentinel base'.
Proof.
  intros Hal. induction fuel as [|fuel IH]; simpl;
    intros base curr rem w w' st base' Hb Hr; [discriminate|].
  destruct (0 <? rem); [|inversion Hr; subst; auto].
  destruct (Map w _ _ curr rem perms) as [w1 [[status vaddr] ml]] eqn:Hmap.
  destruct (negb (status =? ZX_OK)) eqn:Hst; [inversion Hr; subst; auto|].
  apply negb_false_iff, Z.eqb_eq in Hst. subst status.
  apply Hal in Hmap.
  destruct (base =? kInvalidAddr).
  { eapply IH; [|exact Hr]. apply aligned_off_sentinel; auto. }
  destruct (negb (vaddr =? _)); [inversion Hr; subst; auto|].
  eapply IH; eauto.
Qed.

Lemma fill_strided_off_sentinel mc :
  mc mod PAGE_SIZE = 0 →
  ∀ n i a a',
    (1 ≤ i)%nat → (n + i = length a)%nat →
    Forall off_sentinel (take i a) →
    fill_strided n i mc a = Ret a' →
    Forall off_sentinel a'.
Proof.
  intros Hmc. induction n as [|n IH]; simpl; intros i a a' Hi Hlen Hpre Hr.
  - inversion Hr; subst. rewrite take_ge in Hpre by lia. exact Hpre.
  - apply bind_Ret in Hr as (prev & Hget & Hr).
    apply bind_Ret in Hr as (a1 & Hset & Hr).
    apply array_set_Ret in Hset as [Hlt ->].
    unfold array_get in Hget.
    destruct (a !! (i - 1)%nat) as [p|] eqn:Hl; inversion Hget; subst p.
    assert (Hp : off_sentinel prev).
    { eapply (Forall_lookup_1 _ (take i a) (i - 1)); [exact Hpre|].
      rewrite lookup_take_lt by lia. exact Hl. }
    eapply IH; [| |  |exact Hr]; [lia|rewrite length_insert; lia|].
    rewrite (take_S_r _ _ (add64 prev mc))
      by (apply list_lookup_insert_eq; lia).
    rewrite take_insert_ge by lia.
    apply Forall_app. split; [exact Hpre|].
    constructor; [|constructor]. apply add64_off_sentinel; auto.
Qed.

(** The loop invariant of the scatter-gather policy: the entries below
    [idx] are filled, the others still hold the sentinel. *)
Lemma split_extent_filled mc :
  mc mod PAGE_SIZE = 0 → 0 < mc →
  ∀ fuel a idx vaddr mrem a' idx',
    off_sentinel vaddr ∨ mrem ≤ 0 →
    0 ≤ mrem < 2 ^ 64 →
    Forall off_sentinel (take idx a) → all_sentinel (drop idx a) →
    split_extent fuel mc a idx vaddr mrem = Ret (a', idx') →
    Forall off_sentinel (take idx' a') ∧ all_sentinel (drop idx' a') ∧
    (idx ≤ idx' ≤ Nat.max idx (length a))%nat ∧
    mrem ≤ Z.of_nat (idx' - idx) * mc.
Proof.
  intros Hmc Hpos. induction fuel as [|fuel IH]; simpl;
    intros a idx vaddr mrem a' idx' Hv Hm Hpre Hsuf Hr; [discriminate|].
  destruct (0 <? mrem) eqn:Hgt.
  2:{ apply Z.ltb_ge in Hgt. inversion Hr; subst.
      repeat split; auto; lia. }
  apply Z.ltb_lt in Hgt.
  destruct Hv as [Hv|Hv]; [|lia].
  apply bind_Ret in Hr as (a1 & Hset & Hr).
  apply array_set_Ret in Hset as [Hlt ->].
  assert (Hsub : sub64 mrem (Z.min mrem mc) = mrem - Z.min mrem mc).
  { unfold sub64. apply wrap64_small. lia. }
  rewrite Hsub in Hr.
  apply IH in Hr as (Hpre' & Hsuf' & Hidx & Hcov).
  - rewrite length_insert in Hidx.
    repeat split; auto; try lia.
    replace (idx' - idx)%nat with (S (idx' - S idx)) by lia.
    rewrite Nat2Z.inj_succ. lia.
  - destruct (Z.le_gt_cases mc mrem) as [Hle|Hlt'].
    + left. rewrite Z.min_r by lia. apply add64_off_sentinel; auto.
    + right. lia.
  - lia.
  - rewrite (take_S_r _ _ vaddr) by (apply list_lookup_insert_eq; lia).
    rewrite take_insert_ge by lia.
    apply Forall_app. split; [exact Hpre|]. repeat constructor. exact Hv.
  - rewrite drop_insert_lt by lia.
    replace (S idx) with (idx + 1)%nat by lia. rewrite <- drop_drop.
    apply Forall_drop. exact Hsuf.
Qed.

Lemma map_scatter_loop_binary perms mc size :
  map_addrs_aligned → mc mod PAGE_SIZE = 0 → 0 < mc → size < 2 ^ 64 →
  ∀ fuel t idx curr rem w t' w' st,
    minimum_contiguity (bti_ t) = mc →
    0 ≤ rem ≤ size →
    Forall off_sentinel (take idx (mapped_addrs_ t)) →
    all_sentinel (drop idx (mapped_addrs_ t)) →
    (idx ≤ length (mapped_addrs_ t))%nat →
    size - rem ≤ Z.of_nat idx * mc →
    Z.of_nat (length (mapped_addrs_ t)) * mc < size + mc →
    map_scatter_loop fuel t perms idx curr rem w = Ret (t', w', st) →
    (st = ZX_OK ∧ Forall off_sentinel (mapped_addrs_ t')) ∨
    (st ≠ ZX_OK ∧ all_sentinel (mapped_addrs_ t')).
Proof.
  intros Hal Hmc Hpos Hsz. induction fuel as [|fuel IH];
    intros t idx curr rem w t' w' st Hbti Hrem Hpre Hsuf Hidx Hcov Hlen Hr;
    [discriminate|].
  cbn [map_scatter_loop] in Hr. rewrite Hbti in Hr.
  destruct (0 <? rem) eqn:Hgt.
  2:{ apply Z.ltb_ge in Hgt.
      apply bind_Ret in Hr as (_ & _ & Hr). inversion Hr; subst.
      left. split; [reflexivity|].
      assert (idx = length (mapped_addrs_ t')) by nia.
      subst idx. rewrite firstn_all in Hpre. exact Hpre. }
  apply Z.ltb_lt in Hgt.
  destruct (Map w _ _ curr rem perms) as [w1 [[status vaddr] ml]] eqn:Hmap.
  destruct (negb (status =? ZX_OK)) eqn:Hst.
  - apply negb_true_iff, Z.eqb_neq in Hst.
    apply bind_Ret in Hr as ([[t1 w2] err] & Hun & Hr).
    apply bind_Ret in Hr as (u & _ & Hr). inversion Hr; subst; clear Hr.
    right. split; [exact Hst|].
    apply UnmapFromIommuLocked_inv in Hun
      as [(rest & Ha & -> & _)|(first & rest & Ha & Hne & -> & _)].
    + destruct idx as [|idx]; [exact Hsuf|].
      rewrite Ha in Hpre. simpl in Hpre.
      apply Forall_cons in Hpre as [Hp _].
      apply off_sentinel_valid in Hp. congruence.
    + apply Invalidate_all_sentinel.
  - apply negb_false_iff, Z.eqb_eq in Hst. subst status.
    pose proof (Map_range _ _ _ _ _ _ _ _ _ _ Hmap) as [_ Hml].
    apply Hal in Hmap.
    apply bind_Ret in Hr as (u & _ & Hr).
    apply bind_Ret in Hr as ([a1 idx1] & Hsp & Hr).
    pose proof (split_extent_length _ _ _ _ _ _ _ _ Hsp) as [Hl1 _].
    apply (split_extent_filled mc Hmc Hpos) in Hsp
      as (Hpre1 & Hsuf1 & Hidx1 & Hcov1); auto;
      [|left; apply aligned_off_sentinel; auto].
    assert (Hsub : sub64 rem (Z.min ml rem) = rem - Z.min ml rem).
    { unfold sub64. apply wrap64_small. lia. }
    rewrite Hsub in Hr.
    eapply IH in Hr; eauto; cbn [set_mapped_addrs mapped_addrs_ bti_];
      try lia.
    assert (Z.of_nat idx1 * mc =
            Z.of_nat idx * mc + Z.of_nat (idx1 - idx) * mc)
      by (rewrite Nat2Z.inj_sub by lia; lia).
    lia.
Qed.

Lemma MapIntoIommu_binary fuel t perms w t' w' st :
  map_addrs_aligned →
  minimum_contiguity (bti_ t) mod PAGE_SIZE = 0 →
  0 < minimum_contiguity (bti_ t) →
  0 ≤ size_ t < 2 ^ 64 →
  all_sentinel (mapped_addrs_ t) →
  Z.of_nat (length (mapped_addrs_ t)) * minimum_contiguity (bti_ t)
    < size_ t + minimum_contiguity (bti_ t) →
  MapIntoIommu fuel t perms w = Ret (t', w', st) →
  (st = ZX_OK ∧ all_valid (mapped_addrs_ t')) ∨
  (st ≠ ZX_OK ∧ all_sentinel (mapped_addrs_ t')).
Proof.
  intros Hal Hmc Hpos Hsz Hall Hlen. unfold MapIntoIommu.
  destruct (is_contiguous_ t).
  - intros Hr. apply bind_Ret in Hr as ([[w1 st1] base] & Hloop & Hr).
    apply (map_contiguous_loop_base _ _ _ Hal) in Hloop;
      [|unfold off_sentinel; discriminate].
    destruct (negb (st1 =? ZX_OK)) eqn:Hst.
    + apply negb_true_iff, Z.eqb_neq in Hst. inversion Hr; subst. auto.
    + apply negb_false_iff, Z.eqb_eq in Hst.
      apply bind_Ret in Hr as (a0 & Hset & Hr).
      apply bind_Ret in Hr as (a & Hfill & Hr). inversion Hr; subst.
      apply array_set_Ret in Hset as [Hlt ->].
      left. split; [reflexivity|]. apply off_sentinel_all_valid.
      eapply (fill_strided_off_sentinel _ Hmc); [| | |exact Hfill].
      * lia.
      * rewrite length_insert. lia.
      * rewrite (take_S_r _ _ base) by (apply list_lookup_insert_eq; lia).
        simpl. repeat constructor. exact Hloop.
  - intros Hr.
    eapply (map_scatter_loop_binary perms _ (size_ t) Hal Hmc Hpos) in Hr;
      [|lia|reflexivity|lia|constructor|exact Hall|lia|lia|exact Hlen].
    destruct Hr as [[? Hv]|?]; auto.
    left. split; auto. apply off_sentinel_all_valid; auto.
Qed.

Lemma land_le a b : 0 ≤ a → Z.land a b ≤ a.
Proof.
  intros Ha.
  assert (Hdis : Z.land (Z.ldiff a b) (Z.land a b) = 0).
  { apply Z.bits_inj'. intros n Hn.
    rewrite !Z.land_spec, Z.ldiff_spec, Z.bits_0.
    destruct (Z.testbit a n), (Z.testbit b n); reflexivity. }
  pose proof (Z.add_nocarry_lor _ _ Hdis) as Hsum.
  rewrite Z.lor_ldiff_and in Hsum.
  assert (0 ≤ Z.ldiff a b) by (apply Z.ldiff_nonneg; auto).
  lia.
Qed.

(** The table [Create] allocates is never longer than the range needs. *)
Lemma num_addrs_bound size mc :
  0 < mc → 0 ≤ size →
  Z.of_nat (Z.to_nat (ROUNDUP size mc / mc)) * mc < size + mc.
Proof.
  intros Hmc Hsize. unfold ROUNDUP.
  set (x := add64 size (sub64 mc 1)).
  assert (Hx : 0 ≤ x ≤ size + mc - 1).
  { unfold x, add64, sub64.
    pose proof (wrap64_range (mc - 1)).
    pose proof (wrap64_range (size + wrap64 (mc - 1))).
    assert (wrap64 (mc - 1) ≤ mc - 1) by (apply Z.mod_le; lia).
    assert (wrap64 (size + wrap64 (mc - 1)) ≤ size + wrap64 (mc - 1))
      by (apply Z.mod_le; lia).
    lia. }
  pose proof (land_le x (not64 (sub64 mc 1)) ltac:(lia)) as Hle.
  assert (0 ≤ Z.land x (not64 (sub64 mc 1)))
    by (apply Z.land_nonneg; lia).
  pose proof (Z.mul_div_le (Z.land x (not64 (sub64 mc 1))) mc Hmc).
  rewrite Z2Nat.id by (apply Z.div_pos; lia). lia.
Qed.

Lemma on_zero_handles_inv t w t' w' :
  on_zero_handles t w = Ret (t', w') →
  ∃ w1, UnmapFromIommuLocked t w = Ret (t', w1, ZX_OK).
Proof.
  unfold on_zero_handles. intros Hr.
  apply bind_Ret in Hr as ([[t1 w1] st] & Hun & Hr).
  apply bind_Ret in Hr as (u & Has & Hr).
  unfold ASSERT in Has. destruct (st =? ZX_OK) eqn:Hst; [|discriminate].
  apply Z.eqb_eq in Hst; subst.
  destruct (explicitly_unpinned_ t1); inversion Hr; subst; eauto.
Qed.

(** C6: with an IOMMU that hands out page-aligned addresses and a
    minimum contiguity that is a positive multiple of the page size,
    every operation that completes leaves the table wholly filled or
    wholly invalidated: [Create] yields a wholly filled table; the
    mapping run on a freshly constructed token ends wholly filled on
    success and wholly invalidated on failure; the unmap algorithm and
    the last-handle hook turn a binary table into a wholly invalidated
    one; [MarkUnpinned] leaves the table alone.  The destructor's only
    access to the table is the unmap algorithm. *)
Theorem table_binary_invariant bti size :
  map_addrs_aligned →
  minimum_contiguity bti mod PAGE_SIZE = 0 →
  0 < minimum_contiguity bti →
  0 ≤ size < 2 ^ 64 →
  (∀ fuel a1 a2 id vmo offset perms w w' st t r,
     Create fuel a1 a2 id bti vmo offset size perms w
       = Ret (w', st, Some (t, r)) →
     all_valid (mapped_addrs_ t) ∧ table_binary (mapped_addrs_ t)) ∧
  (∀ fuel id vmo offset c a w perms t' w' st,
     MapIntoIommu fuel (construct id bti vmo offset size c a w).1 perms
       (construct id bti vmo offset size c a w).2 = Ret (t', w', st) →
     Z.of_nat (length a) * minimum_contiguity bti
       < size + minimum_contiguity bti →
     table_binary (mapped_addrs_ t') ∧
     (st = ZX_OK → all_valid (mapped_addrs_ t')) ∧
     (st ≠ ZX_OK → all_sentinel (mapped_addrs_ t'))) ∧
  (∀ t w t' w' st,
     table_binary (mapped_addrs_ t) →
     UnmapFromIommuLocked t w = Ret (t', w', st) →
     all_sentinel (mapped_addrs_ t') ∧ table_binary (mapped_addrs_ t')) ∧
  (∀ t, table_binary (mapped_addrs_ t) →
        table_binary (mapped_addrs_ (MarkUnpinned t))) ∧
  (∀ t w t' w',
     table_binary (mapped_addrs_ t) →
     on_zero_handles t w = Ret (t', w') →
     all_sentinel (mapped_addrs_ t') ∧ table_binary (mapped_addrs_ t')).
Proof.
  intros Hal Hmc Hpos Hsz.
  assert (Hmap : ∀ fuel id vmo offset c a w perms t' w' st,
     MapIntoIommu fuel (construct id bti vmo offset size c a w).1 perms
       (construct id bti vmo offset size c a w).2 = Ret (t', w', st) →
     Z.of_nat (length a) * minimum_contiguity bti
       < size + minimum_contiguity bti →
     (st = ZX_OK ∧ all_valid (mapped_addrs_ t')) ∨
     (st ≠ ZX_OK ∧ all_sentinel (mapped_addrs_ t'))).
  { intros fuel id vmo offset c a w perms t' w' st Hr Hlen.
    eapply MapIntoIommu_binary in Hr; eauto.
    - apply Invalidate_all_sentinel.
    - cbn [construct fst]. rewrite Invalidate_length. exact Hlen. }
  assert (Hun : ∀ t w t' w' st,
     table_binary (mapped_addrs_ t) →
     UnmapFromIommuLocked t w = Ret (t', w', st) →
     all_sentinel (mapped_addrs_ t') ∧ table_binary (mapped_addrs_ t')).
  { intros t w t' w' st Hb Hr.
    apply UnmapFromIommuLocked_post in Hr as (_ & _ & _ & Hall & _).
    split; [|left]; auto. }
  split; [|split; [|split; [exact Hun|split]]].
  - intros fuel a1 a2 id vmo offset perms w w' st t r Hc.
    apply Create_success_inv in Hc as (_ & w1 & c & _ & Hr).
    apply Hmap in Hr.
    + destruct Hr as [[_ Hv]|[Hne _]]; [|congruence].
      split; [|right]; auto.
    + rewrite length_replicate. apply num_addrs_bound; lia.
  - intros fuel id vmo offset c a w perms t' w' st Hr Hlen.
    destruct (Hmap _ _ _ _ _ _ _ _ _ _ _ Hr Hlen) as [[-> Hv]|[Hne Hs]].
    + split; [right; auto|]. split; [auto|congruence].
    + split; [left; auto|]. split; [congruence|auto].
  - intros t Hb. exact Hb.
  - intros t w t' w' Hb Hr.
    apply on_zero_handles_inv in Hr as [w1 Hr]. eapply Hun; eauto.
Qed.

(** *** The scatter-gather unmap walk *)

Lemma first_error_step st err errs :
  first_error
    ((if negb (err =? ZX_OK) && (st =? ZX_OK) then err else st) :: errs) =
  first_error (st :: err :: errs).
Proof.
  simpl. destruct (err =? ZX_OK) eqn:He, (st =? ZX_OK) eqn:Hs; simpl;
    rewrite ?He, ?Hs; reflexivity.
Qed.

(** With [DEBUG_ASSERT] compiled out the walk over a filled table makes
    one unmap call per entry, in order, whatever the calls answer, and
    reports the first answer that is not ZX_OK. *)
Lemma unmap_walk_release id mc n addrs :
  DEBUG_ASSERT_IMPLEMENTED = false → all_valid addrs →
  ∀ i rem st w,
    unmap_walk id mc n addrs i rem st w =
    Ret ((unmap_each id (zip addrs (walk_lengths rem mc (length addrs))) w).1,
         first_error
           (st :: (unmap_each id
                     (zip addrs (walk_lengths rem mc (length addrs))) w).2)).
Proof.
  intros Hrel. induction addrs as [|addr rest IH]; intros Hv i rem st w.
  - cbn [unmap_walk length walk_lengths zip zip_with unmap_each fst snd
           first_error].
    destruct (st =? ZX_OK) eqn:Hs; [|reflexivity].
    apply Z.eqb_eq in Hs. subst. reflexivity.
  - apply Forall_cons in Hv as [Hne Hv].
    cbn [unmap_walk length walk_lengths zip zip_with unmap_each].
    apply Z.eqb_neq in Hne. rewrite Hne.
    unfold DEBUG_ASSERT. rewrite Hrel. cbn [mbind outcome_bind].
    destruct (Unmap w id addr (Z.min rem mc)) as [w1 err].
    cbn [mbind outcome_bind]. rewrite (IH Hv).
    destruct (unmap_each id _ w1) as [w2 errs]. cbn [fst snd].
    rewrite first_error_step. reflexivity.
Qed.

(** The lengths of the walk: [min_contig] for every entry but the
    last, which gets what is left. *)
Lemma walk_lengths_chunks mc : 0 < mc →
  ∀ n rem,
    Z.of_nat n * mc < rem ≤ Z.of_nat (S n) * mc → rem < 2 ^ 64 →
    walk_lengths rem mc (S n) = replicate n mc ++ [rem - Z.of_nat n * mc].
Proof.
  intros Hmc. induction n as [|n IH]; intros rem Hrem Hlt.
  - simpl. f_equal. lia.
  - change (walk_lengths rem mc (S (S n)))
      with (Z.min rem mc
            :: walk_lengths (sub64 rem (Z.min rem mc)) mc (S n)).
    rewrite Z.min_r by lia.
    assert (Hsub : sub64 rem mc = rem - mc)
      by (unfold sub64; apply wrap64_small; lia).
    rewrite Hsub, (IH (rem - mc)) by lia.
    cbn [replicate app]. do 3 f_equal. lia.
Qed.

Lemma UnmapFromIommuLocked_release t w first rest :
  DEBUG_ASSERT_IMPLEMENTED = false →
  is_contiguous_ t = false →
  mapped_addrs_ t = first :: rest → all_valid (first :: rest) →
  UnmapFromIommuLocked t w =
    Ret (InvalidateMappedAddrsLocked t,
         (unmap_each (bti_id (bti_ t))
            (zip (mapped_addrs_ t)
               (walk_lengths (size_ t) (minimum_contiguity (bti_ t))
                  (length (mapped_addrs_ t)))) w).1,
         first_error
           (unmap_each (bti_id (bti_ t))
              (zip (mapped_addrs_ t)
                 (walk_lengths (size_ t) (minimum_contiguity (bti_ t))
                    (length (mapped_addrs_ t)))) w).2).
Proof.
  intros Hrel Hc Ha Hv. unfold UnmapFromIommuLocked, array_get.
  rewrite Hc. rewrite Ha at 1. cbn [lookup list_lookup mbind outcome_bind].
  pose proof Hv as Hv'. apply Forall_cons in Hv' as [Hne _].
  apply Z.eqb_neq in Hne. rewrite Hne.
  rewrite <- Ha in Hv. rewrite (unmap_walk_release _ _ _ _ Hrel Hv).
  reflexivity.
Qed.

(** *** The last handle *)






End Properties.

(** ** The properties on concrete runs *)

Ltac run_in H := vm_compute in H; first [discriminate | congruence].
Ltac read_off H := vm_compute in H; injection H; intros; subst; reflexivity.

Lemma Paging_lengths_positive debug :
  @map_lengths_positive (Paging.platform debug).
Proof.
  intros w id vmo offset size perms w' vaddr ml Hr.
  unfold Map in Hr. simpl in Hr. inversion Hr; subst. reflexivity.
Qed.

Lemma Paging_addrs_aligned debug :
  @map_addrs_aligned (Paging.platform debug).
Proof.
  intros w id vmo offset size perms w' vaddr ml Hr.
  unfold Map in Hr. simpl in Hr. inversion Hr; subst.
  unfold wrap64. rewrite Z.mod_mod_divide by (exists (2 ^ 52); reflexivity).
  rewrite Z.add_mod, Z.mod_mul by discriminate. reflexivity.
Qed.

(** C1, on the spec's own scenario: four contiguous pages, minimum
    contiguity equal to the page size.  The token is contiguous and its
    table has four entries, not one. *)
Lemma Create_contiguous_table_counterexample :
  ∃ w t r,
    Create (plat := Scripted.platform true) 10 true true 1
      (Scripted.bti 4096)
      (Scripted.paged_vmo [4096; 8192; 12288; 16384]) 0 16384 3
      (Scripted.world true [(ZX_OK, 65536, 16384)] [])
    = Ret (w, ZX_OK, Some (t, r)) ∧
    is_contiguous_ t = true ∧
    mapped_addrs_ t = [65536; 69632; 73728; 77824] ∧
    Z.of_nat (length (mapped_addrs_ t)) ≠
      (if is_contiguous_ t then 1 else (16384 + 4096 - 1) / 4096).
Proof.
  do 3 eexists. split; [vm_compute; reflexivity|].
  vm_compute. repeat split; discriminate.
Qed.

Lemma Create_table_length_witness :
  ∃ w t r,
    Create (plat := Scripted.platform true) 10 true true 1
      (Scripted.bti 4096)
      (Scripted.paged_vmo [4096; 8192; 12288; 16384]) 0 16384 3
      (Scripted.world true [(ZX_OK, 65536, 16384)] [])
    = Ret (w, ZX_OK, Some (t, r)) ∧
    Z.of_nat (length (mapped_addrs_ t)) = (16384 + 4096 - 1) / 4096.
Proof.
  destruct (Create (plat := Scripted.platform true) 10 true true 1
              (Scripted.bti 4096)
              (Scripted.paged_vmo [4096; 8192; 12288; 16384]) 0 16384 3
              (Scripted.world true [(ZX_OK, 65536, 16384)] []))
    as [[[w st] [[t r]|]]| |] eqn:E; try run_in E.
  exists w, t, r.
  assert (Hst : st = ZX_OK) by read_off E.
  subst st. split; [reflexivity|].
  apply (Create_table_length _ _ _ _ _ _ _ _ _ _ _ _ _ _ 12 E);
    [reflexivity|lia|lia|vm_compute; discriminate].
Defined.

(** A contiguous two-page request whose second chunk comes back at an
    address that does not continue the first. *)
Lemma contiguous_mismatch_fails_creation_witness :
  ∃ w',
    Create (plat := Scripted.platform true) 10 true true 1 (Scripted.bti 4096)
      (Scripted.paged_vmo [4096; 8192]) 0 8192 3
      (Scripted.world true [(ZX_OK, 65536, 4096); (ZX_OK, 131072, 4096)] [])
    = Ret (w', ZX_ERR_INTERNAL, None) ∧
    trace w' =
      [EvCommitRange 0 8192; EvPin 0 8192; EvMap 7 0 8192 3;
       EvMap 7 4096 4096 3; EvUnmap 7 65536 4096; EvUnmap 7 131072 4096;
       EvUnpin 0 8192] ∧
    (1%nat ∉ bti_pmos w') ∧ bti_quarantine w' = ∅.
Proof.
  set (vmo := Scripted.paged_vmo [4096; 8192]).
  set (w := Scripted.world true
              [(ZX_OK, 65536, 4096); (ZX_OK, 131072, 4096)] []).
  set (w1 := (pin_and_probe vmo 0 8192 w).1).
  set (t0 := (construct 1 (Scripted.bti 4096) vmo 0 8192 true
                (replicate (Z.to_nat (ROUNDUP 8192 4096 / 4096)) 0) w1).1).
  set (wn := (Map (AddPmoLocked w1 1) 7 vmo 0 8192 3).1).
  set (wm := (Map wn 7 vmo 4096 4096 3).1).
  destruct (contiguous_mismatch_fails_creation (plat := Scripted.platform true)
              10 1 (Scripted.bti 4096) vmo 0 8192 3 w w1 1
              65536 4096 4096 wn wm 131072 4096)
    as (w' & Hc & Ht & Hp & Hq).
  - reflexivity.
  - reflexivity.
  - reflexivity.
  - reflexivity.
  - reflexivity.
  - apply (progress_step t0 3 0 kInvalidAddr 0 8192 (AddPmoLocked w1 1) wn
             65536 4096).
    + reflexivity.
    + reflexivity.
    + left; reflexivity.
    + apply progress_none.
  - discriminate.
  - reflexivity.
  - reflexivity.
  - discriminate.
  - lia.
  - exists w'. split; [exact Hc|]. split; [rewrite Ht; reflexivity|].
    split; [exact Hp|exact Hq].
Defined.


(** Unmapping the same token twice. *)
Lemma UnmapFromIommuLocked_idempotent_witness :
  ∃ t1 w1 st,
    UnmapFromIommuLocked (plat := Scripted.platform true)
      (Scripted.token false 8192 4096 [65536; 69632])
      (Scripted.world true [] []) = Ret (t1, w1, st) ∧
    UnmapFromIommuLocked t1 w1 = Ret (t1, w1, ZX_OK) ∧
    all_sentinel (mapped_addrs_ t1) ∧
    UnmapFromIommuLocked (plat := Scripted.platform true)
      (Scripted.token true 8192 4096 [UINT64_MAX; 69632])
      (Scripted.world true [] [ZX_ERR_INTERNAL])
    = Ret (Scripted.token true 8192 4096 [UINT64_MAX; 69632],
           Scripted.world true [] [ZX_ERR_INTERNAL], ZX_OK).
Proof.
  set (t := Scripted.token false 8192 4096 [65536; 69632]).
  set (w := Scripted.world true [] []).
  destruct (UnmapFromIommuLocked t w) as [[[t1 w1] st]| |] eqn:E;
    try run_in E.
  exists t1, w1, st. split; [reflexivity|].
  destruct (UnmapFromIommuLocked_idempotent t w [] t1 w1 st) as [_ H2].
  destruct (H2 E) as [Hagain Hall].
  split; [exact Hagain|].
  split; [apply Hall; right; repeat constructor; discriminate|].
  destruct (UnmapFromIommuLocked_idempotent
              (plat := Scripted.platform true)
              (Scripted.token true 8192 4096 [UINT64_MAX; 69632])
              (Scripted.world true [] [ZX_ERR_INTERNAL]) [69632]
              t1 w1 st) as [H1 _].
  apply H1. reflexivity.
Defined.

(** Creating a paged scatter-gather token and destroying it at once. *)
Lemma destroy_releases_pin_witness :
  ∃ w t r w',
    Create (plat := Scripted.platform true) 10 true true 1
      (Scripted.bti 4096) (Scripted.paged_vmo [4096; 12288]) 0 8192 3
      (Scripted.world true
         [(ZX_OK, 65536, 4096); (ZX_OK, 131072, 4096)] [])
    = Ret (w, ZX_OK, Some (t, r)) ∧
    destroy t w = Ret w' ∧
    bti_quarantine w' = ∅ ∧ (1%nat ∉ bti_pmos w') ∧
    unpin_count (trace w') = 1%nat ∧
    bti_pmos w' = bti_pmos w ∖ {[1%nat]} ∧
    trace w' =
      [EvCommitRange 0 8192; EvPin 0 8192; EvMap 7 0 8192 3;
       EvMap 7 4096 4096 3; EvUnmap 7 65536 4096;
       EvUnmap 7 131072 4096; EvUnpin 0 8192].
Proof.
  destruct (Create (plat := Scripted.platform true) 10 true true 1
              (Scripted.bti 4096) (Scripted.paged_vmo [4096; 12288]) 0 8192 3
              (Scripted.world true
                 [(ZX_OK, 65536, 4096); (ZX_OK, 131072, 4096)] []))
    as [[[w st] [[t r]|]]| |] eqn:Ec; try run_in Ec.
  pose proof Ec as Ec'. vm_compute in Ec'.
  injection Ec' as Hw Hst Ht Hr.
  destruct (destroy t w) as [w'| |] eqn:Ed;
    try (rewrite <- Hw, <- Ht in Ed; run_in Ed).
  destruct (UnmapFromIommuLocked t w) as [[[t1 w1] st1]| |] eqn:Eu;
    try (rewrite <- Hw, <- Ht in Eu; run_in Eu).
  pose proof Eu as Eu'. rewrite <- Hw, <- Ht in Eu'. vm_compute in Eu'.
  injection Eu' as Ht1 Hw1 Hst1. subst st1.
  destruct (destroy_releases_pin (plat := Scripted.platform true)
              10 true true 1 (Scripted.bti 4096)
              (Scripted.paged_vmo [4096; 12288]) 0 8192 3
              (Scripted.world true
                 [(ZX_OK, 65536, 4096); (ZX_OK, 131072, 4096)] [])
              st r t w t1 w1 w') as (Hrun & Hpost & Hround).
  destruct (Hrun Eu) as [Hd _].
  destruct (Hpost Ed) as (_ & Hpm & _).
  destruct (Hround Ec Ed) as (Hq & Hp & Hu).
  exists w, t, r, w'.
  split; [rewrite <- Hst; reflexivity|]. split; [exact Ed|].
  split; [exact Hq|]. split; [exact Hp|].
  split; [rewrite Hu; reflexivity|].
  split; [rewrite Hpm, <- Ht; reflexivity|].
  rewrite Hd in Ed. injection Ed as Hw'.
  rewrite <- Hw', <- Ht, <- Hw1. reflexivity.
Defined.

(** A four-page scatter-gather creation through the bump allocator. *)
Lemma table_binary_invariant_witness :
  ∃ w t r,
    Create (plat := Paging.platform true) 10 true true 1
      (Scripted.bti 4096)
      (Scripted.paged_vmo [4096; 12288; 20480; 36864]) 0 16384 3
      (Paging.world true) = Ret (w, ZX_OK, Some (t, r)) ∧
    mapped_addrs_ t = [65536; 69632; 73728; 77824] ∧
    all_valid (mapped_addrs_ t) ∧ table_binary (mapped_addrs_ t).
Proof.
  set (t := {| koid := 1;
               vmo_ := Scripted.paged_vmo [4096; 12288; 20480; 36864];
               offset_ := 0; size_ := 16384; is_contiguous_ := false;
               bti_ := Scripted.bti 4096;
               mapped_addrs_ := [65536; 69632; 73728; 77824];
               explicitly_unpinned_ := false |}).
  set (w := {| iommu_st := 4%nat : @IommuState (Paging.platform true);
               trace := [EvCommitRange 0 16384; EvPin 0 16384;
                         EvMap 7 0 16384 3; EvMap 7 4096 12288 3;
                         EvMap 7 8192 8192 3; EvMap 7 12288 4096 3];
               bti_pmos := {[1%nat]} ∪ ∅; bti_quarantine := ∅ |}).
  assert (E : Create (plat := Paging.platform true) 10 true true 1
                (Scripted.bti 4096)
                (Scripted.paged_vmo [4096; 12288; 20480; 36864]) 0 16384 3
                (Paging.world true)
              = Ret (w, ZX_OK, Some (t, ZX_DEFAULT_PMT_RIGHTS))).
  { vm_cast_no_check
      (eq_refl (Ret (w, ZX_OK, Some (t, ZX_DEFAULT_PMT_RIGHTS)))). }
  exists w, t, ZX_DEFAULT_PMT_RIGHTS.
  split; [exact E|]. split; [reflexivity|].
  destruct (table_binary_invariant (plat := Paging.platform true)
              (Scripted.bti 4096) 16384) as (Hcreate & _).
  - apply Paging_addrs_aligned.
  - reflexivity.
  - reflexivity.
  - split; [discriminate|reflexivity].
  - exact (Hcreate _ _ _ _ _ _ _ _ _ _ _ _ E).
Defined.

(** C7, on a run: a scatter-gather token of two chunks whose first
    unmap call fails.  With [DEBUG_ASSERT] compiled in the walk stops at
    the assertion that follows the call: the second entry is never
    unmapped, no status is reported and the table is not invalidated.
    With [DEBUG_ASSERT] compiled out the same run unmaps both entries,
    reports the first error and invalidates the table. *)
Theorem unmap_walk_debug_assert_halts :
  UnmapFromIommuLocked (plat := Scripted.platform true)
    (Scripted.token false 8192 4096 [65536; 69632])
    (Scripted.world true [] [ZX_ERR_INTERNAL; ZX_OK]) = Panic ∧
  match UnmapFromIommuLocked (plat := Scripted.platform false)
          (Scripted.token false 8192 4096 [65536; 69632])
          (Scripted.world false [] [ZX_ERR_INTERNAL; ZX_OK]) with
  | Ret (t', w', status) =>
      status = ZX_ERR_INTERNAL ∧
      trace w' = [EvUnmap 7 65536 4096; EvUnmap 7 69632 4096] ∧
      mapped_addrs_ t' = [UINT64_MAX; UINT64_MAX]
  | _ => False
  end.
Proof. vm_compute. repeat split. Qed.

(** Three pages behind two chunks of two pages: the last chunk is cut
    at the page count. *)
Lemma EncodeAddrs_expanded_witness :
  ∃ out,
    EncodeAddrs (Scripted.token false 12288 8192 [65536; 131072]) false
      [0; 0; 0] = (ZX_OK, out) ∧
    out = [65536; 69632; 131072].
Proof.
  destruct (EncodeAddrs_expanded
              (Scripted.token false 12288 8192 [65536; 131072])
              [0; 0; 0] 2) as (out & Hr & Hlen & Hout).
  - reflexivity.
  - lia.
  - discriminate.
  - reflexivity.
  - repeat constructor; discriminate.
  - reflexivity.
  - exists out. split; [exact Hr|].
    vm_compute in Hr. injection Hr as Ho. rewrite <- Ho. reflexivity.
Defined.

(** C9, on a run: after invalidation the expanded export answers ZX_OK
    and leaves the caller's buffer as it found it, whatever it held; the
    element is not the sentinel nor made from it. *)
Lemma EncodeAddrs_invalidated_counterexample :
  EncodeAddrs (Scripted.token false 4096 4096 [UINT64_MAX]) false [5]
    = (ZX_OK, [5]) ∧
  EncodeAddrs (Scripted.token false 4096 4096 [UINT64_MAX]) false [6]
    = (ZX_OK, [6]) ∧
  [5] ≠ [UINT64_MAX].
Proof. vm_compute. repeat split; discriminate. Qed.

Lemma EncodeAddrs_invalidated_witness :
  EncodeAddrs (Scripted.token false 8192 4096 [UINT64_MAX; UINT64_MAX])
    false [5; 6] = (ZX_OK, [5; 6]) ∧
  EncodeAddrs (Scripted.token false 8192 4096 [UINT64_MAX; UINT64_MAX])
    true [5; 6] = (ZX_OK, [UINT64_MAX; UINT64_MAX]).
Proof.
  split.
  - apply (EncodeAddrs_invalidated
             (Scripted.token false 8192 4096 [UINT64_MAX; UINT64_MAX])
             false [5; 6]).
    + repeat constructor.
    + discriminate.
    + reflexivity.
  - apply (EncodeAddrs_invalidated
             (Scripted.token false 8192 4096 [UINT64_MAX; UINT64_MAX])
             true [5; 6]).
    + repeat constructor.
    + reflexivity.
    + discriminate.
Defined.

(** ** Further properties of the dispatcher *)

Section Creation.
Context {plat : Platform}.

Lemma Lookup_check_contiguous_next pas : ∀ expected index,
  ((Lookup_from check_contiguous expected (S index) pas).1 =? ZX_OK) =
  match pas with
  | [] => true
  | pa :: _ => (pa =? expected) && pages_consecutive pas
  end.
Proof.
  induction pas as [|pa rest IH]; intros expected index; [reflexivity|].
  cbn [Lookup_from]. unfold check_contiguous at 1.
  cbn [Nat.eqb negb andb].
  destruct (pa =? expected) eqn:He; cbn [negb andb].
  - change (ZX_OK =? ZX_OK) with true. cbv iota. rewrite IH.
    destruct rest as [|pb rest']; reflexivity.
  - reflexivity.
Qed.

Lemma Lookup_check_contiguous pas expected :
  ((Lookup_from check_contiguous expected 0 pas).1 =? ZX_OK) =
  pages_consecutive pas.
Proof.
  destruct pas as [|pa rest]; [reflexivity|].
  cbn [Lookup_from]. unfold check_contiguous at 1.
  cbn [Nat.eqb negb andb]. change (ZX_OK =? ZX_OK) with true. cbv iota.
  rewrite Lookup_check_contiguous_next.
  destruct rest as [|pb rest']; reflexivity.
Qed.

Lemma pin_and_probe_contiguous vmo offset size w w1 c :
  pin_and_probe vmo offset size w = (w1, inr c) →
  c = negb (is_paged vmo) || pages_consecutive (pages vmo offset size).
Proof.
  unfold pin_and_probe. destruct (is_paged vmo); cbn [negb orb].
  - destruct (negb (CommitRange vmo offset size =? ZX_OK)); [discriminate|].
    destruct (negb (Pin vmo offset size =? ZX_OK)); [discriminate|].
    pose proof (Lookup_check_contiguous (pages vmo offset size) 0) as Hl.
    unfold Lookup. destruct (Lookup_from _ _ _ _) as [status e].
    cbn [fst] in Hl. intros Hr; inversion Hr; subst. exact Hl.
  - intros Hr; inversion Hr; reflexivity.
Qed.

(** X1: the token [Create] hands out is marked contiguous exactly when
    the VMO is physical (not paged) or every page that [Lookup]
    enumerates lies one page size after its predecessor. *)
Theorem Create_is_contiguous fuel a1 a2 id bti vmo offset size perms w w' st t r :
  Create fuel a1 a2 id bti vmo offset size perms w = Ret (w', st, Some (t, r)) →
  is_contiguous_ t =
    negb (is_paged vmo) || pages_consecutive (pages vmo offset size).
Proof.
  intros Hc. apply Create_success_inv in Hc as (_ & w1 & c & Hpp & Hmap).
  apply MapIntoIommu_frame in Hmap as [_ Hsame].
  destruct Hsame as (_ & _ & _ & _ & Hcont & _). cbn in Hcont.
  rewrite Hcont. eapply pin_and_probe_contiguous; eauto.
Qed.

Lemma pin_and_probe_pin_taken vmo offset size w w1 r :
  pin_and_probe vmo offset size w = (w1, r) →
  match r with
  | inl status => status ≠ ZX_OK ∧ pin_taken vmo offset size = false ∧
                  is_paged vmo = true
  | inr _ => pin_taken vmo offset size = is_paged vmo
  end.
Proof.
  unfold pin_and_probe, pin_taken. destruct (is_paged vmo); cbn [andb].
  - destruct (CommitRange vmo offset size =? ZX_OK) eqn:Hc; cbn [negb andb].
    2:{ intros Hr; inversion Hr; subst. apply Z.eqb_neq in Hc. auto. }
    destruct (Pin vmo offset size =? ZX_OK) eqn:Hp; cbn [negb].
    2:{ intros Hr; inversion Hr; subst. apply Z.eqb_neq in Hp. auto. }
    destruct (Lookup _ _ _ _ _). intros Hr; inversion Hr; subst. reflexivity.
  - intros Hr; inversion Hr; subst. reflexivity.
Qed.

Lemma destroy_post t w w' :
  destroy t w = Ret w' →
  unpin_count (trace w') =
    (unpin_count (trace w) + (if is_paged (vmo_ t) then 1 else 0))%nat ∧
  bti_pmos w' = bti_pmos w ∖ {[koid t]} ∧
  bti_quarantine w' = bti_quarantine w ∧
  ∃ t1 w1, UnmapFromIommuLocked t w = Ret (t1, w1, ZX_OK) ∧
           trace w' = trace w1 ++
             (if is_paged (vmo_ t) then [EvUnpin (offset_ t) (size_ t)] else []).
Proof.
  intros Hd. pose proof Hd as Hd'.
  apply destroy_inv in Hd' as (t1 & w1 & Hun).
  pose proof (UnmapFromIommuLocked_post _ _ _ _ _ Hun)
    as (Hext & _ & _ & _ & Hsame).
  destruct Hsame as (Hk & Hv & Ho & Hs & _).
  unfold destroy in Hd. rewrite Hun in Hd. simpl in Hd.
  rewrite Hk, Hv, Ho, Hs in Hd. inversion Hd; subst; clear Hd.
  pose proof (extends_unpin_count w w1
                (extends_weaken _ _ _ _ is_unmap_iommu_call Hext)) as Hc.
  destruct Hext as (Hp & Hq & _).
  destruct (is_paged (vmo_ t)); simpl.
  - rewrite unpin_count_app, Hc, Hp, Hq. repeat split; eauto.
  - rewrite Hc, Hp, Hq. split; [lia|]. split; [reflexivity|].
    split; [reflexivity|]. exists t1, w1. rewrite app_nil_r. auto.
Qed.

(** X2: a [Create] that returns without a token returns an error status
    and leaks nothing: the range is unpinned once if the pin had been
    taken and not at all otherwise, the token is not left on the BTI's
    list, and the quarantine set is untouched. *)
Theorem Create_failure_releases fuel a1 a2 id bti vmo offset size perms w w' st :
  Create fuel a1 a2 id bti vmo offset size perms w = Ret (w', st, None) →
  id ∉ bti_pmos w →
  st ≠ ZX_OK ∧
  unpin_count (trace w') =
    (unpin_count (trace w)
     + (if pin_taken vmo offset size then 1 else 0))%nat ∧
  bti_pmos w' = bti_pmos w ∧
  bti_quarantine w' = bti_quarantine w.
Proof.
  unfold Create. intros Hr Hid.
  apply bind_Ret in Hr as (_ & _ & Hr).
  destruct (pin_and_probe vmo offset size w) as [w1 res] eqn:Hpp.
  pose proof (pin_and_probe_pin_taken _ _ _ _ _ _ Hpp) as Hpin.
  apply pin_and_probe_inv in Hpp as (Hp1 & Hq1 & _ & Hu1 & _).
  destruct res as [status|c].
  { destruct Hpin as (Hne & -> & _). inversion Hr; subst.
    repeat split; auto. lia. }
  rewrite Hpin.
  assert (Hroll : ∀ w2 : World, w2 = unpin_vmo vmo offset size w1 →
            unpin_count (trace w2) =
              (unpin_count (trace w) + (if is_paged vmo then 1 else 0))%nat ∧
            bti_pmos w2 = bti_pmos w ∧ bti_quarantine w2 = bti_quarantine w).
  { intros w2 ->. unfold unpin_vmo. destruct (is_paged vmo); simpl.
    - rewrite unpin_count_app, Hu1. auto.
    - rewrite Hu1. split; [lia|auto]. }
  apply bind_Ret in Hr as (_ & _ & Hr).
  destruct (negb a1).
  { inversion Hr; subst. split; [discriminate|]. apply Hroll; reflexivity. }
  destruct (negb a2).
  { inversion Hr; subst. split; [discriminate|]. apply Hroll; reflexivity. }
  cbn [construct] in Hr.
  apply bind_Ret in Hr as ([[pmo' w3] status] & Hmap & Hr).
  destruct (negb (status =? ZX_OK)) eqn:Hst; [|inversion Hr].
  apply negb_true_iff, Z.eqb_neq in Hst.
  apply bind_Ret in Hr as (w4 & Hd & Hr). inversion Hr; subst; clear Hr.
  apply MapIntoIommu_frame in Hmap as [Hext Hsame].
  pose proof (extends_unpin_count _ _ Hext) as Hu3.
  destruct Hext as (Hp3 & Hq3 & _).
  destruct Hsame as (Hk & Hv & _). simpl in Hk, Hv, Hp3, Hq3, Hu3.
  apply destroy_post in Hd as (Hu4 & Hp4 & Hq4 & _).
  rewrite Hu4, Hp4, Hq4, Hu3, Hp3, Hq3, Hk, Hv, Hu1, Hp1, Hq1.
  split; [exact Hst|]. split; [reflexivity|]. split; [|reflexivity].
  apply set_eq. intros x.
  rewrite elem_of_difference, elem_of_union, elem_of_singleton.
  split; [intros [[->|Hx] Hn]; [contradiction|exact Hx]|].
  intros Hx. split; [right; exact Hx|]. intros ->. contradiction.
Qed.

(** X3: when the commit, the pin or one of the two allocations fails,
    [Create] never reaches the IOMMU and registers nothing: it yields no
    token, the driver state and the BTI's list are as before, no map or
    unmap call is recorded, and the status is the one [CommitRange] or
    [Pin] answered, or ZX_ERR_NO_MEMORY for a failed allocation. *)
Theorem Create_early_failure fuel a1 a2 id bti vmo offset size perms w w' st res :
  Create fuel a1 a2 id bti vmo offset size perms w = Ret (w', st, res) →
  (is_paged vmo = true ∧ pin_taken vmo offset size = false)
  ∨ a1 = false ∨ a2 = false →
  res = None ∧
  iommu_st w' = iommu_st w ∧
  bti_pmos w' = bti_pmos w ∧
  (∃ evs, trace w' = trace w ++ evs ∧ Forall (λ e, ¬ is_iommu_call e) evs) ∧
  st = (if is_paged vmo && negb (CommitRange vmo offset size =? ZX_OK)
        then CommitRange vmo offset size
        else if is_paged vmo && negb (Pin vmo offset size =? ZX_OK)
        then Pin vmo offset size
        else ZX_ERR_NO_MEMORY).
Proof.
  unfold Create. intros Hr Hearly.
  apply bind_Ret in Hr as (_ & _ & Hr).
  unfold pin_taken in Hearly. revert Hr. unfold pin_and_probe.
  destruct (is_paged vmo) eqn:Hpaged; cbn [andb].
  - destruct (CommitRange vmo offset size =? ZX_OK) eqn:Hc; cbn [negb].
    2:{ intros Hr; inversion Hr; subst. cbn [emit iommu_st bti_pmos trace].
        repeat split; auto. eexists; split; [reflexivity|].
        repeat constructor; tauto. }
    destruct (Pin vmo offset size =? ZX_OK) eqn:Hp; cbn [negb].
    2:{ intros Hr; inversion Hr; subst. cbn [emit iommu_st bti_pmos trace].
        repeat split; auto. eexists; split; [rewrite <- app_assoc; reflexivity|].
        repeat constructor; tauto. }
    destruct (Lookup _ _ _ _ _) as [status e]. intros Hr.
    apply bind_Ret in Hr as (_ & _ & Hr).
    destruct Hearly as [[_ Hf]|Hearly]; [discriminate|].
    assert (Hcase : negb a1 = true ∨ negb a1 = false ∧ negb a2 = true).
    { destruct a1, a2; cbn; destruct Hearly; auto; discriminate. }
    destruct Hcase as [Ha|[Ha Hb]]; rewrite Ha in Hr; [|rewrite Hb in Hr];
      inversion Hr; subst; unfold unpin_vmo; rewrite Hpaged;
      cbn [Unpin emit iommu_st bti_pmos trace];
      (repeat split; auto; eexists;
       split; [rewrite <- !app_assoc; reflexivity|repeat constructor; tauto]).
  - intros Hr. apply bind_Ret in Hr as (_ & _ & Hr).
    destruct Hearly as [[Hf _]|Hearly]; [discriminate|].
    assert (Hcase : negb a1 = true ∨ negb a1 = false ∧ negb a2 = true).
    { destruct a1, a2; cbn; destruct Hearly; auto; discriminate. }
    destruct Hcase as [Ha|[Ha Hb]]; rewrite Ha in Hr; [|rewrite Hb in Hr];
      inversion Hr; subst; unfold unpin_vmo; rewrite Hpaged;
      (repeat split; auto; exists []; rewrite app_nil_r; split; auto).
Qed.

End Creation.

Section Mapping.
Context {plat : Platform}.

Lemma add64_stride base mc (j : nat) :
  add64 (wrap64 (base + Z.of_nat j * mc)) mc =
  wrap64 (base + Z.of_nat (S j) * mc).
Proof.
  unfold add64, wrap64. rewrite Zplus_mod_idemp_l. f_equal. lia.
Qed.

Lemma fill_strided_spec mc base : ∀ n i a a',
  (1 ≤ i)%nat → (n + i = length a)%nat →
  (∀ j : nat, (j < i)%nat → a !! j = Some (wrap64 (base + Z.of_nat j * mc))) →
  fill_strided n i mc a = Ret a' →
  length a' = length a ∧
  ∀ j : nat, (j < length a)%nat →
    a' !! j = Some (wrap64 (base + Z.of_nat j * mc)).
Proof.
  induction n as [|n IH]; simpl; intros i a a' Hi Hlen Hpre Hr.
  - inversion Hr; subst. split; [reflexivity|]. intros j Hj. apply Hpre. lia.
  - apply bind_Ret in Hr as (prev & Hget & Hr).
    apply bind_Ret in Hr as (a1 & Hset & Hr).
    apply array_set_Ret in Hset as [Hlt ->].
    unfold array_get in Hget. rewrite (Hpre (i - 1)%nat) in Hget by lia.
    inversion Hget; subst prev; clear Hget.
    rewrite add64_stride in Hr.
    replace (S (i - 1)) with i in Hr by lia.
    apply IH in Hr as [Hl Hall]; [| lia | rewrite length_insert; lia |].
    + rewrite length_insert in Hl, Hall. auto.
    + intros j Hj. destruct (decide (j = i)) as [->|Hne].
      * apply list_lookup_insert_eq. lia.
      * rewrite list_lookup_insert_ne by lia. apply Hpre. lia.
Qed.

Lemma map_contiguous_loop_keeps_base fuel t perms :
  ∀ base curr rem w w' st base',
    base ≠ kInvalidAddr →
    map_contiguous_loop fuel t perms base curr rem w = Ret (w', st, base') →
    base' = base.
Proof.
  induction fuel as [|fuel IH]; simpl; intros base curr rem w w' st base' Hb Hr;
    [discriminate|].
  destruct (0 <? rem); [|inversion Hr; subst; auto].
  destruct (Map w _ _ curr rem perms) as [w1 [[status vaddr] ml]].
  destruct (negb (status =? ZX_OK)); [inversion Hr; subst; auto|].
  apply Z.eqb_neq in Hb. rewrite Hb in Hr. apply Z.eqb_neq in Hb.
  destruct (negb (vaddr =? _)); [inversion Hr; subst; auto|].
  eapply IH; eauto.
Qed.

(** X4: when the contiguous policy succeeds, the table is the stride
    from the address the first map call returned: entry [j] holds
    base + j * minimum_contiguity, reduced modulo 2^64; only entry 0
    comes from the IOMMU. *)
Theorem contiguous_table_strided fuel t perms w t' w' w1 st1 base ml :
  is_contiguous_ t = true → 0 < size_ t →
  Map w (bti_id (bti_ t)) (vmo_ t) (offset_ t) (size_ t) perms
    = (w1, (st1, base, ml)) →
  base ≠ kInvalidAddr →
  MapIntoIommu fuel t perms w = Ret (t', w', ZX_OK) →
  length (mapped_addrs_ t') = length (mapped_addrs_ t) ∧
  ∀ j : nat, (j < length (mapped_addrs_ t'))%nat →
    mapped_addrs_ t' !! j =
      Some (wrap64 (base + Z.of_nat j * minimum_contiguity (bti_ t))).
Proof.
  intros Hc Hsize Hmap Hbase Hr. unfold MapIntoIommu in Hr. rewrite Hc in Hr.
  apply bind_Ret in Hr as ([[w2 st2] base2] & Hloop & Hr).
  destruct (negb (st2 =? ZX_OK)) eqn:Hst.
  { apply negb_true_iff, Z.eqb_neq in Hst. inversion Hr; subst. contradiction. }
  apply negb_false_iff, Z.eqb_eq in Hst. subst st2.
  apply bind_Ret in Hr as (a0 & Hset & Hr).
  apply bind_Ret in Hr as (a & Hfill & Hr). inversion Hr; subst; clear Hr.
  apply array_set_Ret in Hset as [Hlt ->].
  assert (Hb2 : base2 = base).
  { destruct fuel as [|fuel]; [discriminate|]. cbn [map_contiguous_loop] in Hloop.
    apply Z.ltb_lt in Hsize. rewrite Hsize, Hmap in Hloop.
    destruct (negb (st1 =? ZX_OK)) eqn:Hs1.
    { apply negb_true_iff, Z.eqb_neq in Hs1. inversion Hloop; subst.
      contradiction. }
    change (kInvalidAddr =? kInvalidAddr) with true in Hloop. cbv iota in Hloop.
    eapply map_contiguous_loop_keeps_base; eauto. }
  subst base2.
  pose proof (Map_range _ _ _ _ _ _ _ _ _ _ Hmap) as [Hrange _].
  apply (fill_strided_spec _ base) in Hfill as [Hl Hall];
    [| lia | rewrite length_insert; lia |].
  - cbn [set_mapped_addrs mapped_addrs_]. rewrite length_insert in Hl, Hall.
    split; [exact Hl|]. intros j Hj. apply Hall. lia.
  - intros j Hj. assert (j = 0%nat) as -> by lia.
    rewrite list_lookup_insert_eq by lia. f_equal.
    rewrite Z.mul_0_l, Z.add_0_r. symmetry. apply wrap64_small. exact Hrange.
Qed.

(** X5: in the contiguous policy a map call that fails ends the mapping
    with the driver's status, unchanged; the range built so far is
    unmapped in one call if a base has been recorded and no unmap call
    is made otherwise, and the table is not touched. *)
Theorem contiguous_map_failure fuel t perms w n base curr rem wn wm
    status vaddr mapped_len :
  is_contiguous_ t = true →
  contiguous_progress t perms n (kInvalidAddr, offset_ t, size_ t) w
    (base, curr, rem) wn →
  0 < rem →
  Map wn (bti_id (bti_ t)) (vmo_ t) curr rem perms
    = (wm, (status, vaddr, mapped_len)) →
  status ≠ ZX_OK →
  (n < fuel)%nat →
  ∃ w',
    MapIntoIommu fuel t perms w = Ret (t, w', status) ∧
    trace w' =
      trace wm ++
      (if base =? kInvalidAddr then []
       else [EvUnmap (bti_id (bti_ t)) base (sub64 curr (offset_ t))]).
Proof.
  intros Hc Hprog Hrem Hmap Hst Hfuel.
  unfold MapIntoIommu. rewrite Hc.
  replace fuel with (n + S (fuel - n - 1))%nat by lia.
  pose proof (contiguous_progress_run _ _ _ _ _ _ _ Hprog
                (S (fuel - n - 1))) as Hrun.
  cbn [fst snd] in Hrun. rewrite Hrun. cbn [map_contiguous_loop].
  apply Z.ltb_lt in Hrem. rewrite Hrem, Hmap.
  apply Z.eqb_neq in Hst. rewrite Hst. cbn [negb mbind outcome_bind].
  rewrite Hst. cbn [negb].
  eexists. split; [reflexivity|].
  destruct (base =? kInvalidAddr); cbn [negb].
  - rewrite app_nil_r. reflexivity.
  - apply Unmap_trace.
Qed.

Lemma fill_strided_fuel n : ∀ i mc a, fill_strided n i mc a ≠ OutOfFuel.
Proof.
  induction n as [|n IH]; simpl; intros i mc a; [discriminate|].
  apply bind_fuel.
  { unfold array_get. destruct (_ !! _); discriminate. }
  intros prev _. apply bind_fuel.
  { unfold array_set. destruct (decide _); discriminate. }
  intros a' _. apply IH.
Qed.

Lemma map_contiguous_loop_fuel t perms :
  map_lengths_bounded →
  ∀ fuel base curr rem w,
    0 ≤ rem < 2 ^ 64 → (Z.to_nat rem < fuel)%nat →
    map_contiguous_loop fuel t perms base curr rem w ≠ OutOfFuel.
Proof.
  intros Hb. induction fuel as [|fuel IH]; intros base curr rem w Hrem Hf;
    [lia|].
  cbn [map_contiguous_loop].
  destruct (0 <? rem) eqn:Hgt; [|discriminate].
  apply Z.ltb_lt in Hgt.
  destruct (Map w _ _ curr rem perms) as [w1 [[status vaddr] ml]] eqn:Hmap.
  destruct (negb (status =? ZX_OK)) eqn:Hst; [discriminate|].
  apply negb_false_iff, Z.eqb_eq in Hst. subst status.
  apply Hb in Hmap; [|lia].
  assert (Hsub : sub64 rem ml = rem - ml)
    by (unfold sub64; apply wrap64_small; lia).
  rewrite Hsub.
  destruct (base =? kInvalidAddr); [apply IH; lia|].
  destruct (negb (vaddr =? _)); [discriminate|]. apply IH; lia.
Qed.

(** X6: with an IOMMU that never reports more than it was asked for,
    nor a zero length, the contiguous mapping does not run out of
    budget once the budget exceeds the size of the range. *)
Theorem contiguous_walk_terminates fuel t perms w :
  map_lengths_bounded →
  is_contiguous_ t = true →
  0 ≤ size_ t < 2 ^ 64 →
  (Z.to_nat (size_ t) < fuel)%nat →
  MapIntoIommu fuel t perms w ≠ OutOfFuel.
Proof.
  intros Hb Hc Hsize Hf. unfold MapIntoIommu. rewrite Hc.
  apply bind_fuel; [apply map_contiguous_loop_fuel; auto|].
  intros [[w1 st] base] _.
  destruct (negb (st =? ZX_OK)); [discriminate|].
  apply bind_fuel.
  { unfold array_set. destruct (decide _); discriminate. }
  intros a0 _. apply bind_fuel; [apply fill_strided_fuel|]. discriminate.
Qed.

End Mapping.

Section Unmapping.
Context {plat : Platform}.

Lemma unmap_walk_calls id mc n addrs : ∀ i rem st w w' st',
  all_valid addrs →
  unmap_walk id mc n addrs i rem st w = Ret (w', st') →
  trace w' =
    trace w ++ zip_with (EvUnmap id) addrs
                 (walk_lengths rem mc (length addrs)).
Proof.
  induction addrs as [|addr rest IH]; intros i rem st w w' st' Hv Hr.
  - inversion Hr; subst. simpl. rewrite app_nil_r. reflexivity.
  - apply Forall_cons in Hv as [Hne Hv]. cbn [unmap_walk] in Hr.
    apply Z.eqb_neq in Hne. rewrite Hne in Hr.
    apply bind_Ret in Hr as (u & _ & Hr).
    pose proof (Unmap_trace w id addr (Z.min rem mc)) as Ht.
    destruct (Unmap w id addr (Z.min rem mc)) as [w1 err].
    apply bind_Ret in Hr as (u' & _ & Hr).
    apply IH in Hr; [|exact Hv]. rewrite Hr. cbn [fst] in Ht. rewrite Ht.
    cbn [length walk_lengths zip_with]. rewrite <- app_assoc. reflexivity.
Qed.

Lemma unmap_walk_sentinel id mc n prefix rest : ∀ i rem st w,
  unmap_walk id mc n (prefix ++ UINT64_MAX :: rest) i rem st w =
  unmap_walk id mc n prefix i rem st w.
Proof.
  induction prefix as [|addr prefix IH]; intros i rem st w.
  - reflexivity.
  - cbn [app unmap_walk]. destruct (addr =? UINT64_MAX); [reflexivity|].
    destruct (DEBUG_ASSERT _); cbn [mbind outcome_bind]; try reflexivity.
    destruct (Unmap w id addr (Z.min rem mc)) as [w1 err].
    destruct (DEBUG_ASSERT _); cbn [mbind outcome_bind]; try reflexivity.
    apply IH.
Qed.

(** X7: the scatter-gather unmap walk stops at the first sentinel.  On a
    table whose filled entries are followed by a sentinel, a walk that
    returns has made one unmap call per filled entry, in table order,
    [min_contig] bytes each as long as that much remains, and none for
    any entry behind the sentinel. *)
Theorem unmap_walk_stops_at_sentinel id mc n prefix rest i rem st w w' st' :
  all_valid prefix →
  unmap_walk id mc n (prefix ++ UINT64_MAX :: rest) i rem st w
    = Ret (w', st') →
  trace w' =
    trace w ++ zip_with (EvUnmap id) prefix
                 (walk_lengths rem mc (length prefix)).
Proof.
  intros Hv Hr. rewrite unmap_walk_sentinel in Hr.
  eapply unmap_walk_calls; eauto.
Qed.

Lemma UnmapFromIommuLocked_noop t (w : World) rest :
  mapped_addrs_ t = UINT64_MAX :: rest →
  UnmapFromIommuLocked t w = Ret (t, w, ZX_OK).
Proof.
  intros Ha. unfold UnmapFromIommuLocked, array_get. rewrite Ha. reflexivity.
Qed.

(** X8: after the last-handle hook has returned, the destructor,
    whenever it runs, makes no IOMMU call and cannot trip its assertion.
    The destructor cannot run while the quarantine set holds the token;
    in every world whose quarantine set does not hold it (the hook's own
    world for a token marked unpinned, a later one once the BTI has let
    a quarantined token go) it returns, having unpinned a paged VMO once
    and taken the token off the BTI's list, and it leaves the IOMMU and
    the quarantine set as it found them.  For a token marked unpinned
    the hook itself leaves the quarantine set alone. *)
Theorem destroy_after_on_zero_handles t w t1 w1 :
  on_zero_handles t w = Ret (t1, w1) →
  (explicitly_unpinned_ t = true →
   bti_quarantine w1 = bti_quarantine w) ∧
  (∀ w' : World,
     koid t ∉ bti_quarantine w' →
     ∃ w2,
       destroy t1 w' = Ret w2 ∧
       trace w2 =
         trace w' ++
         (if is_paged (vmo_ t) then [EvUnpin (offset_ t) (size_ t)] else []) ∧
       iommu_st w2 = iommu_st w' ∧
       bti_pmos w2 = bti_pmos w' ∖ {[koid t]} ∧
       bti_quarantine w2 = bti_quarantine w' ∧
       koid t ∉ bti_quarantine w2).
Proof.
  intros Hz. pose proof Hz as Hz'.
  apply on_zero_handles_inv in Hz' as [w0 Hun].
  pose proof (UnmapFromIommuLocked_post _ _ _ _ _ Hun)
    as ((_ & Hq0 & _) & _ & [rest Ha] & _ & Hsame).
  destruct Hsame as (Hk & Hv & Ho & Hs & _ & _ & Hflag & _).
  split.
  { intros Hf. unfold on_zero_handles in Hz. rewrite Hun in Hz. simpl in Hz.
    rewrite Hflag, Hf in Hz. inversion Hz; subst. exact Hq0. }
  intros w' Hnq. eexists. split.
  { unfold destroy. rewrite (UnmapFromIommuLocked_noop t1 w' rest Ha).
    cbn [mbind outcome_bind ASSERT Z.eqb ZX_OK]. reflexivity. }
  rewrite Hv, Ho, Hs, Hk.
  destruct (is_paged (vmo_ t)); cbn.
  - repeat split; auto.
  - rewrite app_nil_r. repeat split; auto.
Qed.

(** X9: the whole life of a token.  After a successful [Create]: if
    the token is marked unpinned, the last-handle hook followed by the
    destructor leaves the BTI's list and the quarantine set as they were
    before the creation and has unpinned a paged VMO exactly once; if it
    is not, the last-handle hook leaves the token in the quarantine set
    and on the BTI's list, and the range has not been unpinned at all
    since before the creation. *)
Theorem token_life_cycle fuel a1 a2 id bti vmo offset size perms w0 w st t r :
  Create fuel a1 a2 id bti vmo offset size perms w0
    = Ret (w, st, Some (t, r)) →
  id ∉ bti_pmos w0 →
  (∀ t1 w1 w2,
     on_zero_handles (MarkUnpinned t) w = Ret (t1, w1) →
     destroy t1 w1 = Ret w2 →
     bti_pmos w2 = bti_pmos w0 ∧
     bti_quarantine w2 = bti_quarantine w0 ∧
     unpin_count (trace w2) =
       (unpin_count (trace w0) + (if is_paged vmo then 1 else 0))%nat) ∧
  (∀ t1 w1,
     on_zero_handles t w = Ret (t1, w1) →
     bti_pmos w1 = {[id]} ∪ bti_pmos w0 ∧
     bti_quarantine w1 = {[id]} ∪ bti_quarantine w0 ∧
     unpin_count (trace w1) = unpin_count (trace w0)).
Proof.
  intros Hc Hid.
  apply Create_success_post in Hc
    as (_ & Hk & Hv & _ & _ & _ & Hflag & _ & Hp & Hq & Hu).
  assert (Hhook : ∀ tz t1 w1,
            koid tz = id →
            on_zero_handles tz w = Ret (t1, w1) →
            koid t1 = id ∧ vmo_ t1 = vmo_ tz ∧
            bti_pmos w1 = {[id]} ∪ bti_pmos w0 ∧
            bti_quarantine w1 =
              (if explicitly_unpinned_ tz then bti_quarantine w0
               else {[id]} ∪ bti_quarantine w0) ∧
            unpin_count (trace w1) = unpin_count (trace w0)).
  { intros tz t1 w1 Hkz Hz. pose proof Hz as Hz'.
    apply on_zero_handles_inv in Hz' as [wu Hun].
    pose proof (UnmapFromIommuLocked_post _ _ _ _ _ Hun)
      as (Hext & _ & _ & _ & Hsame).
    destruct Hsame as (Hk1 & Hv1 & _ & _ & _ & _ & Hf1 & _).
    pose proof (extends_unpin_count w wu
                  (extends_weaken _ _ _ _ is_unmap_iommu_call Hext)) as Hcu.
    destruct Hext as (Hpu & Hqu & _).
    unfold on_zero_handles in Hz. rewrite Hun in Hz. simpl in Hz.
    rewrite Hf1, Hk1, Hkz in Hz.
    split; [congruence|]. split; [exact Hv1|].
    destruct (explicitly_unpinned_ tz); inversion Hz; subst; simpl;
      rewrite ?Hpu, ?Hqu, ?Hcu, ?Hp, ?Hq, ?Hu; auto. }
  split.
  - intros t1 w1 w2 Hz Hd.
    destruct (Hhook (MarkUnpinned t) t1 w1 Hk Hz)
      as (Hk1 & Hv1 & Hp1 & Hq1 & Hu1).
    cbn [explicitly_unpinned_ MarkUnpinned vmo_] in Hq1, Hv1.
    apply destroy_post in Hd as (Hu2 & Hp2 & Hq2 & _).
    rewrite Hu2, Hp2, Hq2, Hk1, Hv1, Hv, Hp1, Hq1, Hu1.
    split; [|split; reflexivity].
    apply set_eq. intros x.
    rewrite elem_of_difference, elem_of_union, elem_of_singleton.
    split; [intros [[->|Hx] Hn]; [contradiction|exact Hx]|].
    intros Hx. split; [right; exact Hx|]. intros ->. contradiction.
  - intros t1 w1 Hz.
    destruct (Hhook t t1 w1 Hk Hz) as (_ & _ & Hp1 & Hq1 & Hu1).
    rewrite Hflag in Hq1. split; [exact Hp1|]. split; [exact Hq1|exact Hu1].
Qed.

End Unmapping.

Section ScatterGather.
Context {plat : Platform}.

Lemma chunk_count_zero mc : 0 < mc → chunk_count 0 mc = 0%nat.
Proof.
  intros. unfold chunk_count.
  replace (0 + mc - 1) with (mc - 1) by lia.
  rewrite Z.div_small by lia. reflexivity.
Qed.

Lemma chunk_count_step len mc :
  0 < mc → 0 < len →
  chunk_count len mc = S (chunk_count (len - Z.min len mc) mc).
Proof.
  intros Hmc Hlen. unfold chunk_count.
  destruct (Z.le_gt_cases mc len) as [Hge|Hlt].
  - rewrite Z.min_r by lia.
    replace (len + mc - 1) with (len - mc + mc - 1 + 1 * mc) by lia.
    rewrite Z.div_add by lia.
    rewrite Z2Nat.inj_add; [|apply Z.div_pos; lia|lia].
    simpl. lia.
  - rewrite Z.min_l by lia. replace (len - len) with 0 by lia.
    fold (chunk_count 0 mc). rewrite chunk_count_zero by lia.
    replace (len + mc - 1) with (len - 1 + 1 * mc) by lia.
    rewrite Z.div_add, Z.div_small by lia. reflexivity.
Qed.

Lemma wrap64_add_l a b : wrap64 (wrap64 a + b) = wrap64 (a + b).
Proof. unfold wrap64. apply Zplus_mod_idemp_l. Qed.

Lemma split_extent_spec mc : 0 < mc →
  ∀ fuel a idx vaddr len,
    0 ≤ vaddr < 2 ^ 64 → 0 ≤ len < 2 ^ 64 →
    (idx + chunk_count len mc ≤ length a)%nat →
    (chunk_count len mc < fuel)%nat →
    ∃ a',
      split_extent fuel mc a idx vaddr len
        = Ret (a', (idx + chunk_count len mc)%nat) ∧
      length a' = length a ∧
      (∀ j : nat, (j < chunk_count len mc)%nat →
         a' !! (idx + j)%nat = Some (wrap64 (vaddr + Z.of_nat j * mc))) ∧
      (∀ k : nat, (k < idx ∨ idx + chunk_count len mc ≤ k)%nat →
         a' !! k = a !! k).
Proof.
  intros Hmc. induction fuel as [|fuel IH];
    intros a idx vaddr len Hva Hlen Hfit Hf; [lia|].
  cbn [split_extent]. destruct (0 <? len) eqn:Hgt.
  2:{ apply Z.ltb_ge in Hgt. assert (len = 0) as -> by lia.
      rewrite chunk_count_zero by lia. rewrite Nat.add_0_r.
      exists a. repeat split; auto. intros; lia. }
  apply Z.ltb_lt in Hgt.
  rewrite (chunk_count_step len mc) in * by lia.
  unfold array_set. destruct (decide (idx < length a)%nat) as [Hlt|]; [|lia].
  cbn [mbind outcome_bind].
  assert (Hsub : sub64 len (Z.min len mc) = len - Z.min len mc)
    by (unfold sub64; apply wrap64_small; lia).
  rewrite Hsub.
  destruct (IH (<[idx:=vaddr]> a) (S idx) (add64 vaddr (Z.min len mc))
              (len - Z.min len mc))
    as (a' & Hrun & Hl & Hnew & Hold);
    [apply wrap64_range|lia|rewrite length_insert; lia|lia|].
  exists a'. rewrite Hrun, Hl, length_insert.
  split; [f_equal; f_equal; lia|]. split; [reflexivity|]. split.
  - intros [|j] Hj.
    + rewrite Nat.add_0_r, Hold by lia.
      rewrite list_lookup_insert_eq by lia. f_equal.
      rewrite Z.mul_0_l, Z.add_0_r. symmetry. apply wrap64_small. exact Hva.
    + replace (idx + S j)%nat with (S idx + j)%nat by lia.
      rewrite Hnew by lia. f_equal.
      destruct (Z.le_gt_cases mc len) as [Hge|Hlt'].
      * rewrite Z.min_r by lia. unfold add64.
        rewrite wrap64_add_l. f_equal. lia.
      * rewrite Z.min_l in Hj by lia. replace (len - len) with 0 in Hj by lia.
        rewrite chunk_count_zero in Hj by lia. lia.
  - intros k Hk. rewrite Hold by lia. apply list_lookup_insert_ne. lia.
Qed.

(** X10: splitting an extent.  An extent of [len] bytes at [vaddr] that
    fits the table takes ceil(len / min_contig) consecutive entries from
    [next_addr_idx]: entry [j] of them is vaddr + j * min_contig (modulo
    2^64), the index moves past them, and no other entry changes. *)
Theorem split_extent_chunks mc fuel a idx vaddr len :
  0 < mc →
  0 ≤ vaddr < 2 ^ 64 → 0 ≤ len < 2 ^ 64 →
  (idx + chunk_count len mc ≤ length a)%nat →
  (chunk_count len mc < fuel)%nat →
  ∃ a',
    split_extent fuel mc a idx vaddr len
      = Ret (a', (idx + chunk_count len mc)%nat) ∧
    length a' = length a ∧
    (∀ j : nat, (j < chunk_count len mc)%nat →
       a' !! (idx + j)%nat = Some (wrap64 (vaddr + Z.of_nat j * mc))) ∧
    (∀ k : nat, (k < idx ∨ idx + chunk_count len mc ≤ k)%nat →
       a' !! k = a !! k).
Proof. intros Hmc. apply split_extent_spec. exact Hmc. Qed.

Lemma extent_chunks_lookup mc ext (j : nat) :
  (j < chunk_count ext.2 mc)%nat →
  extent_chunks mc ext !! j = Some (wrap64 (ext.1 + Z.of_nat j * mc)).
Proof.
  intros Hj. unfold extent_chunks.
  rewrite list_lookup_fmap, lookup_seq_lt by exact Hj. reflexivity.
Qed.

Lemma extent_chunks_length mc ext :
  length (extent_chunks mc ext) = chunk_count ext.2 mc.
Proof. unfold extent_chunks. rewrite length_fmap, length_seq. reflexivity. Qed.

Lemma map_scatter_loop_table id vmo mc perms s w exts s' w' :
  0 < mc →
  scatter_progress id vmo mc perms s w exts s' w' →
  s'.2 ≤ 0 →
  ∀ fuel t idx,
    bti_id (bti_ t) = id → vmo_ t = vmo → minimum_contiguity (bti_ t) = mc →
    (idx + length (flat_map (extent_chunks mc) exts)
     = length (mapped_addrs_ t))%nat →
    (length exts + length (mapped_addrs_ t) < fuel)%nat →
    ∃ t',
      map_scatter_loop fuel t perms idx s.1 s.2 w = Ret (t', w', ZX_OK) ∧
      same_token t t' ∧
      (∀ k : nat, (k < idx)%nat → mapped_addrs_ t' !! k = mapped_addrs_ t !! k) ∧
      (∀ j : nat, (j < length (flat_map (extent_chunks mc) exts))%nat →
         mapped_addrs_ t' !! (idx + j)%nat =
         flat_map (extent_chunks mc) exts !! j).
Proof.
  intros Hmc Hprog.
  induction Hprog as [s w|curr rem w w1 vaddr ml exts s' w' Hrem Hmap Hdbg _ IH];
    intros Hexit fuel t idx Hid Hvmo Hmin Hfit Hfuel.
  - destruct fuel as [|fuel]; [lia|]. exists t.
    cbn [map_scatter_loop].
    replace (0 <? s.2) with false by (symmetry; apply Z.ltb_ge; exact Hexit).
    simpl in Hfit. rewrite Nat.add_0_r in Hfit. rewrite Hfit, Nat.eqb_refl.
    rewrite DEBUG_ASSERT_true. cbn [mbind outcome_bind].
    split; [reflexivity|]. split; [apply same_token_refl|].
    split; [auto|]. simpl. intros; lia.
  - destruct fuel as [|fuel]; [lia|].
    cbn [map_scatter_loop fst snd]. rewrite Hid, Hvmo, Hmin.
    apply Z.ltb_lt in Hrem. rewrite Hrem, Hmap.
    change (negb (ZX_OK =? ZX_OK)) with false. cbv iota.
    rewrite Hdbg. cbn [mbind outcome_bind].
    pose proof (Map_range _ _ _ _ _ _ _ _ _ _ Hmap) as [Hva Hml].
    cbn [flat_map] in Hfit |- *. rewrite length_app, extent_chunks_length in *.
    cbn [snd fst length] in *.
    destruct (split_extent_spec mc Hmc (S fuel) (mapped_addrs_ t) idx vaddr ml)
      as (a1 & Hsp & Hl1 & Hnew1 & Hold1); [exact Hva|exact Hml|lia|lia|].
    rewrite Hsp. cbn [mbind outcome_bind].
    destruct (IH Hexit fuel (set_mapped_addrs t a1) (idx + chunk_count ml mc)%nat)
      as (t' & Hrun & Hsame & Hold & Hnew);
      [exact Hid|exact Hvmo|exact Hmin
      |cbn [set_mapped_addrs mapped_addrs_]; lia
      |cbn [set_mapped_addrs mapped_addrs_]; lia|].
    cbn [fst snd] in Hrun. exists t'. split; [exact Hrun|].
    split; [eapply same_token_trans; [apply same_token_set; exact Hl1|exact Hsame]|].
    cbn [set_mapped_addrs mapped_addrs_] in Hold, Hnew.
    split.
    + intros k Hk. rewrite Hold by lia. apply Hold1. lia.
    + intros j Hj.
      destruct (Nat.lt_ge_cases j (chunk_count ml mc)) as [Hlt|Hge].
      * rewrite Hold by lia. rewrite Hnew1 by exact Hlt.
        rewrite lookup_app_l by (rewrite extent_chunks_length; exact Hlt).
        symmetry. apply (extent_chunks_lookup mc (vaddr, ml)). exact Hlt.
      * rewrite lookup_app_r by (rewrite extent_chunks_length; exact Hge).
        rewrite extent_chunks_length. cbn [snd].
        rewrite <- Hnew by lia. f_equal. lia.
Qed.

(** X11: the table the scatter-gather policy builds.  When the map
    calls cover the range and their chunks fill the table exactly, the
    mapping succeeds and the table is, extent after extent in the order
    the IOMMU returned them, the chunk starts vaddr, vaddr + min_contig,
    ... of each extent; nothing else of the token changes. *)
Theorem scatter_gather_table fuel t perms w exts curr rem w' :
  is_contiguous_ t = false →
  0 < minimum_contiguity (bti_ t) →
  scatter_progress (bti_id (bti_ t)) (vmo_ t) (minimum_contiguity (bti_ t))
    perms (offset_ t, size_ t) w exts (curr, rem) w' →
  rem ≤ 0 →
  length (flat_map (extent_chunks (minimum_contiguity (bti_ t))) exts)
    = length (mapped_addrs_ t) →
  (length exts + length (mapped_addrs_ t) < fuel)%nat →
  ∃ t',
    MapIntoIommu fuel t perms w = Ret (t', w', ZX_OK) ∧
    mapped_addrs_ t' =
      flat_map (extent_chunks (minimum_contiguity (bti_ t))) exts ∧
    same_token t t'.
Proof.
  intros Hc Hmc Hprog Hexit Hfit Hfuel.
  destruct (map_scatter_loop_table _ _ _ _ _ _ _ _ _ Hmc Hprog Hexit
              fuel t 0%nat eq_refl eq_refl eq_refl Hfit Hfuel)
    as (t' & Hrun & Hsame & _ & Hnew).
  exists t'. unfold MapIntoIommu. rewrite Hc.
  split; [exact Hrun|]. split; [|exact Hsame].
  destruct Hsame as (_ & _ & _ & _ & _ & _ & _ & Hlen).
  apply list_eq. intros j.
  destruct (Nat.lt_ge_cases j (length (mapped_addrs_ t'))) as [Hlt|Hge].
  - apply (Hnew j). lia.
  - rewrite !lookup_ge_None_2; [reflexivity|lia|exact Hge].
Qed.

End ScatterGather.

Section ScatterTermination.
Context {plat : Platform}.

Lemma scatter_walk_fits_step id vmo mc perms tbl idx curr rem w w1 vaddr ml :
  scatter_walk_fits id vmo mc perms tbl idx (curr, rem) w →
  0 < rem →
  Map w id vmo curr rem perms = (w1, (ZX_OK, vaddr, ml)) →
  DEBUG_ASSERT ((ml mod mc =? 0) || (rem =? ml)) = Ret tt ∧
  (idx + chunk_count ml mc ≤ tbl)%nat ∧
  scatter_walk_fits id vmo mc perms tbl (idx + chunk_count ml mc)
    (add64 curr ml, sub64 rem (Z.min ml rem)) w1.
Proof.
  intros Hfit Hrem Hmap.
  assert (H0 : scatter_progress id vmo mc perms (curr, rem) w []
                 (curr, rem) w) by constructor.
  destruct (Hfit _ _ _ _ H0) as [Hnext _].
  destruct (Hnext Hrem _ _ _ Hmap) as [Hdbg Hroom].
  cbn [flat_map length] in Hroom.
  split; [exact Hdbg|]. split; [lia|].
  intros exts curr' rem' w' Hprog.
  pose proof (scatter_step id vmo mc perms curr rem w w1 vaddr ml exts
                (curr', rem') w' Hrem Hmap Hdbg Hprog) as Hp.
  destruct (Hfit _ _ _ _ Hp) as [Hn Hc].
  cbn [flat_map] in Hn, Hc.
  rewrite length_app, extent_chunks_length in Hn, Hc. cbn [snd] in Hn, Hc.
  rewrite Nat.add_assoc in Hn, Hc.
  split; [exact Hn|exact Hc].
Qed.

(** From any loop state the walk makes at most [remaining] successful
    passes, each taking min(mapped_len, remaining), at least one byte,
    off [remaining]; then either nothing remains and the loop returns
    ZX_OK, or a map call fails and the loop hands over to the unmap
    algorithm. *)
Lemma map_scatter_loop_returns id vmo mc perms tbl :
  map_lengths_positive → 0 < mc →
  ∀ n fuel t idx curr rem w,
    bti_id (bti_ t) = id → vmo_ t = vmo → minimum_contiguity (bti_ t) = mc →
    length (mapped_addrs_ t) = tbl →
    0 ≤ rem < 2 ^ 64 → (Z.to_nat rem ≤ n)%nat → (n + tbl < fuel)%nat →
    scatter_walk_fits id vmo mc perms tbl idx (curr, rem) w →
    ∃ exts curr' rem' w1,
      scatter_progress id vmo mc perms (curr, rem) w exts (curr', rem') w1 ∧
      (length exts ≤ n)%nat ∧
      ((rem' = 0 ∧
        ∃ t', map_scatter_loop fuel t perms idx curr rem w
                = Ret (t', w1, ZX_OK) ∧
              same_token t t') ∨
       (0 < rem' ∧
        ∃ w2 st vaddr ml t0,
          Map w1 id vmo curr' rem' perms = (w2, (st, vaddr, ml)) ∧
          st ≠ ZX_OK ∧ same_token t t0 ∧
          map_scatter_loop fuel t perms idx curr rem w =
            ('(t', w3, err) ← UnmapFromIommuLocked t0 w2;
             _ ← ASSERT (err =? ZX_OK);
             Ret (t', w3, st)))).
Proof.
  intros Hpos Hmc. induction n as [|n IH];
    intros fuel t idx curr rem w Hid Hvmo Hmct Hlen Hrem Hn Hf Hfit;
    (destruct fuel as [|fuel]; [lia|]).
  all: destruct (Z.ltb_spec 0 rem) as [Hgt|Hle].
  all: try lia.
  all: try (
    (* nothing remains *)
    assert (rem = 0) by lia; subst rem;
    exists [], curr, 0, w; split; [constructor|]; split; [cbn; lia|];
    left; split; [reflexivity|]; exists t; split; [|apply same_token_refl];
    cbn [map_scatter_loop];
    assert (H0 : scatter_progress id vmo mc perms (curr, 0) w []
                   (curr, 0) w) by constructor;
    destruct (Hfit _ _ _ _ H0) as [_ Hclose];
    specialize (Hclose ltac:(lia)); cbn [flat_map length] in Hclose;
    rewrite Nat.add_0_r in Hclose; rewrite Hlen, Hclose; reflexivity).
  (* a pass *)
  destruct (Map w id vmo curr rem perms) as [w1 [[st vaddr] ml]] eqn:Hmap.
  destruct (st =? ZX_OK) eqn:Hst.
  - apply Z.eqb_eq in Hst. subst st.
    pose proof (Hpos _ _ _ _ _ _ _ _ _ Hmap) as Hml.
    pose proof (Map_range _ _ _ _ _ _ _ _ _ _ Hmap) as [Hva Hmlr].
    destruct (scatter_walk_fits_step _ _ _ _ _ _ _ _ _ _ _ _ Hfit Hgt Hmap)
      as (Hdbg & Hroom & Hfit').
    destruct (split_extent_spec mc Hmc (S fuel) (mapped_addrs_ t) idx
                vaddr ml Hva Hmlr) as (a' & Hsp & Hla & _); [lia|lia|].
    assert (Hloop :
      map_scatter_loop (S fuel) t perms idx curr rem w =
      map_scatter_loop fuel (set_mapped_addrs t a') perms
        (idx + chunk_count ml mc) (add64 curr ml)
        (sub64 rem (Z.min ml rem)) w1).
    { cbn [map_scatter_loop]. rewrite Hid, Hvmo, Hmct.
      rewrite (proj2 (Z.ltb_lt 0 rem) Hgt), Hmap. cbv beta iota.
      rewrite Z.eqb_refl. cbn [negb]. rewrite Hdbg.
      cbn [mbind outcome_bind]. rewrite Hsp. reflexivity. }
    pose proof (sub64_le rem (Z.min ml rem) ltac:(lia)) as Hsub.
    destruct (IH fuel (set_mapped_addrs t a') (idx + chunk_count ml mc)%nat
                (add64 curr ml) (sub64 rem (Z.min ml rem)) w1)
      as (exts & curr' & rem' & w' & Hprog & Hcount & Hend);
      [exact Hid|exact Hvmo|exact Hmct|cbn; lia|lia|lia|lia|exact Hfit'|].
    exists ((vaddr, ml) :: exts), curr', rem', w'.
    split; [apply (scatter_step id vmo mc perms curr rem w w1 vaddr ml exts
                     (curr', rem') w' Hgt Hmap Hdbg Hprog)|].
    split; [cbn [length]; lia|].
    assert (Hset : same_token t (set_mapped_addrs t a'))
      by (apply same_token_set; exact Hla).
    rewrite Hloop.
    destruct Hend as [[Hz (t' & Hr & Hs)]|
                      [Hp (w2 & st & va & ml2 & t0 & Hm & Hne & Hs & Hr)]].
    + left. split; [exact Hz|]. exists t'. split; [exact Hr|].
      eapply same_token_trans; eauto.
    + right. split; [exact Hp|]. exists w2, st, va, ml2, t0.
      split; [exact Hm|]. split; [exact Hne|].
      split; [eapply same_token_trans; eauto|exact Hr].
  - apply Z.eqb_neq in Hst.
    exists [], curr, rem, w. split; [constructor|]. split; [cbn; lia|].
    right. split; [exact Hgt|]. exists w1, st, vaddr, ml, t.
    split; [exact Hmap|]. split; [exact Hst|].
    split; [apply same_token_refl|].
    cbn [map_scatter_loop]. rewrite Hid, Hvmo, Hmct.
    rewrite (proj2 (Z.ltb_lt 0 rem) Hgt), Hmap. cbv beta iota.
    rewrite (proj2 (Z.eqb_neq st ZX_OK) Hst). reflexivity.
Qed.

(** C10: with every successful map call reporting a positive length, the
    scatter-gather walk terminates, also when a call reports more than
    what remained.  In no case is the loop budget exhausted.  And when
    the table has room for the extents the IOMMU hands out, so that no
    entry outside the table is touched, the walk is a sequence of at
    most [size_] successful passes, each taking
    min(mapped_len, remaining) off [remaining], after which either
    nothing remains and the mapping returns ZX_OK, or a map call fails
    and the mapping hands over to the unmap algorithm, which has no
    unbounded loop, and returns that call's status. *)
Theorem scatter_gather_walk_terminates fuel t perms w :
  map_lengths_positive →
  is_contiguous_ t = false →
  0 < minimum_contiguity (bti_ t) →
  0 ≤ size_ t < 2 ^ 64 →
  (Z.to_nat (size_ t) + length (mapped_addrs_ t) < fuel)%nat →
  MapIntoIommu fuel t perms w ≠ OutOfFuel ∧
  (scatter_walk_fits (bti_id (bti_ t)) (vmo_ t) (minimum_contiguity (bti_ t))
     perms (length (mapped_addrs_ t)) 0 (offset_ t, size_ t) w →
   ∃ exts curr rem w1,
     scatter_progress (bti_id (bti_ t)) (vmo_ t) (minimum_contiguity (bti_ t))
       perms (offset_ t, size_ t) w exts (curr, rem) w1 ∧
     (length exts ≤ Z.to_nat (size_ t))%nat ∧
     ((rem = 0 ∧
       ∃ t', MapIntoIommu fuel t perms w = Ret (t', w1, ZX_OK) ∧
             same_token t t') ∨
      (0 < rem ∧
       ∃ w2 st vaddr ml t0,
         Map w1 (bti_id (bti_ t)) (vmo_ t) curr rem perms
           = (w2, (st, vaddr, ml)) ∧
         st ≠ ZX_OK ∧ same_token t t0 ∧
         MapIntoIommu fuel t perms w =
           ('(t', w3, err) ← UnmapFromIommuLocked t0 w2;
            _ ← ASSERT (err =? ZX_OK);
            Ret (t', w3, st))))).
Proof.
  intros Hpos Hc Hmc Hsize Hf. unfold MapIntoIommu. rewrite Hc. split.
  - apply map_scatter_loop_fuel; [exact Hpos|lia|lia|lia].
  - intros Hfit.
    apply (map_scatter_loop_returns (bti_id (bti_ t)) (vmo_ t)
             (minimum_contiguity (bti_ t)) perms (length (mapped_addrs_ t))
             Hpos Hmc (Z.to_nat (size_ t)));
      try reflexivity; try lia. exact Hfit.
Qed.

End ScatterTermination.

Section AddressExport.

Lemma encode_extent_length n : ∀ limit np addr idx out,
  length (encode_extent n limit np addr idx out).1 = length out.
Proof.
  induction n as [|n IH]; intros limit np addr idx out; [reflexivity|].
  simpl. destruct (_ && _); [|reflexivity].
  rewrite IH. apply length_insert.
Qed.

Lemma encode_extents_length mc np table : ∀ idx out,
  length (encode_extents mc np table idx out).1 = length out.
Proof.
  induction table as [|e rest IH]; intros idx out; [reflexivity|].
  cbn [encode_extents].
  pose proof (encode_extent_length (Z.to_nat np - idx) (add64 e mc) np e idx out)
    as Hl.
  destruct (encode_extent _ _ _ _ _ _) as [out1 idx1]. cbn [fst] in Hl.
  rewrite IH. exact Hl.
Qed.

(** X12: the export's error behaviour.  [EncodeAddrs] answers
    ZX_ERR_INVALID_ARGS exactly when the buffer's element count differs
    from the table length (compressed) or from size / PAGE_SIZE
    (expanded), and then leaves the buffer as it was; otherwise it
    answers ZX_OK.  In no case does the buffer change length. *)
Theorem EncodeAddrs_status t compress buf :
  length (EncodeAddrs t compress buf).2 = length buf ∧
  ((EncodeAddrs t compress buf).1 = ZX_ERR_INVALID_ARGS ∧
   (EncodeAddrs t compress buf).2 = buf ∧
   (if compress then Z.of_nat (length (mapped_addrs_ t))
    else size_ t / PAGE_SIZE) ≠ Z.of_nat (length buf)
   ∨
   (EncodeAddrs t compress buf).1 = ZX_OK ∧
   (if compress then Z.of_nat (length (mapped_addrs_ t))
    else size_ t / PAGE_SIZE) = Z.of_nat (length buf)).
Proof.
  unfold EncodeAddrs. destruct compress.
  - destruct (length (mapped_addrs_ t) =? length buf)%nat eqn:He; cbn [negb fst snd].
    + apply Nat.eqb_eq in He. split.
      * rewrite length_app, length_drop. lia.
      * right. split; [reflexivity|]. lia.
    + apply Nat.eqb_neq in He. split; [reflexivity|].
      left. repeat split. lia.
  - destruct (size_ t / PAGE_SIZE =? Z.of_nat (length buf)) eqn:He;
      cbn [negb fst snd].
    + apply Z.eqb_eq in He. split; [apply encode_extents_length|].
      right. auto.
    + apply Z.eqb_neq in He. split; [reflexivity|]. left. auto.
Qed.

(** X13: at page granularity the two export modes agree.  For a token
    whose minimum contiguity is the page size, with one in-range entry
    per page, both the compressed and the expanded export hand the
    table out verbatim. *)
Theorem EncodeAddrs_page_granularity t buf :
  minimum_contiguity (bti_ t) = PAGE_SIZE →
  Forall (extent_in_range PAGE_SIZE) (mapped_addrs_ t) →
  length (mapped_addrs_ t) = length buf →
  Z.of_nat (length buf) = size_ t / PAGE_SIZE →
  EncodeAddrs t true buf = (ZX_OK, mapped_addrs_ t) ∧
  EncodeAddrs t false buf = (ZX_OK, mapped_addrs_ t).
Proof.
  intros Hmc Hext Hlen Hnp. unfold EncodeAddrs. split.
  - rewrite Hlen, Nat.eqb_refl. cbn [negb].
    rewrite <- Hlen, drop_ge, app_nil_r by lia. reflexivity.
  - rewrite <- Hnp, Z.eqb_refl. cbn [negb]. rewrite Hmc. f_equal.
    destruct (encode_extents_spec PAGE_SIZE (Z.of_nat (length buf)) 1
                ltac:(lia) ltac:(lia) ltac:(lia) (mapped_addrs_ t)
                0%nat 0%nat buf Hext ltac:(lia) ltac:(lia))
      as (out & Hrun & Hlen' & Hnew & _).
    rewrite Hrun. cbn [fst]. apply list_eq. intros i.
    destruct (Nat.lt_ge_cases i (length buf)) as [Hlt|Hge].
    + destruct (Hnew i) as (e & Hl & Ho); [lia|].
      rewrite Nat.div_1_r, Nat.sub_0_r in Hl. rewrite Nat.mod_1_r in Ho.
      rewrite Ho, Hl. f_equal. lia.
    + rewrite !lookup_ge_None_2; [reflexivity|lia|lia].
Qed.

End AddressExport.

(** ** The further properties on concrete runs *)

Lemma Linear_lengths_bounded debug :
  @map_lengths_bounded (Linear.platform debug).
Proof.
  intros w id vmo offset size perms w' vaddr ml Hsize Hr.
  unfold Map in Hr. simpl in Hr. inversion Hr; subst.
  assert (HP : PAGE_SIZE = 4096) by reflexivity.
  rewrite wrap64_small; lia.
Qed.

Lemma Coarse_lengths_positive debug :
  @map_lengths_positive (Coarse.platform debug).
Proof.
  intros w id vmo offset size perms w' vaddr ml Hr.
  unfold Map in Hr. simpl in Hr. inversion Hr; subst. reflexivity.
Qed.

Ltac coarse_map H :=
  unfold Map in H; cbn [iommu_Map Coarse.platform Coarse.map] in H;
  inversion H; subst; clear H.

Ltac coarse_state H :=
  match type of H with
  | scatter_progress _ _ _ _ (?a, ?b) _ _ _ _ =>
      let a' := eval vm_compute in a in
      let b' := eval vm_compute in b in
      change a with a' in H; change b with b' in H
  end.

Lemma Coarse_walk_fits :
  scatter_walk_fits (plat := Coarse.platform true) 7 (Scripted.paged_vmo [])
    8192 3 2 0 (0, 12288) (Coarse.world true).
Proof.
  intros exts curr rem w1 Hp.
  inversion Hp as [|c0 r0 w0 wa va ma e0 s0 w0' Hr0 Hm0 Hd0 Hp0]; subst; clear Hp.
  { split; [|intros Hr; lia].
    intros _ w2 va ml Hm. coarse_map Hm.
    split; [reflexivity|vm_compute; lia]. }
  coarse_map Hm0. coarse_state Hp0.
  inversion Hp0 as [|c1 r1 w1' wb vb mb e1 s1 w1'' Hr1 Hm1 Hd1 Hp1]; subst; clear Hp0.
  { split; [|intros Hr; lia].
    intros _ w2 va ml Hm. coarse_map Hm.
    split; [reflexivity|vm_compute; lia]. }
  coarse_map Hm1. coarse_state Hp1.
  inversion Hp1 as [|c2 r2 w2' wc vc mc e2 s2 w2'' Hr2 Hm2 Hd2 Hp2]; subst; clear Hp1.
  { split; [intros Hr; lia|]. intros _. reflexivity. }
  lia.
Qed.

(** Three pages through the coarse IOMMU with a minimum contiguity of
    two pages: the second call is asked for one page and reports two. *)
Lemma scatter_gather_walk_terminates_witness :
  ∃ t' w1,
    MapIntoIommu (plat := Coarse.platform true) (Z.to_nat 12300)
      (Scripted.token false 12288 8192 [UINT64_MAX; UINT64_MAX])
      3 (Coarse.world true)
    = Ret (t', w1, ZX_OK) ∧
    mapped_addrs_ t' = [65536; 73728] ∧
    trace w1 = [EvMap 7 0 12288 3; EvMap 7 8192 4096 3].
Proof.
  set (t := Scripted.token false 12288 8192 [UINT64_MAX; UINT64_MAX]).
  set (T := Scripted.token false 12288 8192 [65536; 73728]).
  set (W := {| iommu_st := tt : @IommuState (Coarse.platform true);
               trace := [EvMap 7 0 12288 3; EvMap 7 8192 4096 3];
               bti_pmos := ∅; bti_quarantine := ∅ |}).
  assert (E : MapIntoIommu (plat := Coarse.platform true) (Z.to_nat 12300)
                t 3 (Coarse.world true) = Ret (T, W, ZX_OK)).
  { vm_cast_no_check (eq_refl (Ret (T, W, ZX_OK))). }
  destruct (scatter_gather_walk_terminates (plat := Coarse.platform true)
              (Z.to_nat 12300) t 3 (Coarse.world true))
    as [_ Hret].
  - apply Coarse_lengths_positive.
  - reflexivity.
  - reflexivity.
  - split; [discriminate|reflexivity].
  - cbn [size_ mapped_addrs_ t Scripted.token length]. lia.
  - destruct (Hret Coarse_walk_fits)
      as (exts & curr & rem & w1 & _ & _ &
          [[_ (t' & Hr & _)]|[_ (w2 & st & va & ml & t0 & Hm & Hne & _)]]).
    + exists t', w1. split; [exact Hr|].
      rewrite E in Hr. injection Hr as Ht Hw. subst t' w1.
      split; reflexivity.
    + coarse_map Hm. contradiction.
Defined.

(** A paged VMO whose third page breaks the run. *)
Lemma Create_is_contiguous_witness :
  ∃ w t r,
    Create (plat := Scripted.platform true) 10 true true 1
      (Scripted.bti 4096)
      (Scripted.paged_vmo [4096; 8192; 20480]) 0 12288 3
      (Scripted.world true [(ZX_OK, 65536, 12288)] [])
    = Ret (w, ZX_OK, Some (t, r)) ∧
    is_contiguous_ t = false.
Proof.
  assert (E : ∃ w t r,
             Create (plat := Scripted.platform true) 10 true true 1
               (Scripted.bti 4096)
               (Scripted.paged_vmo [4096; 8192; 20480]) 0 12288 3
               (Scripted.world true [(ZX_OK, 65536, 12288)] [])
             = Ret (w, ZX_OK, Some (t, r))).
  { do 3 eexists. vm_compute. reflexivity. }
  destruct E as (w & t & r & E). exists w, t, r. split; [exact E|].
  rewrite (Create_is_contiguous _ _ _ _ _ _ _ _ _ _ _ _ _ _ E). reflexivity.
Defined.

(** The second chunk of a contiguous request is refused by the driver. *)
Lemma Create_failure_releases_witness :
  ∃ w' st,
    Create (plat := Scripted.platform true) 10 true true 1
      (Scripted.bti 4096) (Scripted.paged_vmo [4096; 8192]) 0 8192 3
      (Scripted.world true [(ZX_OK, 65536, 4096)] [])
    = Ret (w', st, None) ∧
    st ≠ ZX_OK ∧ unpin_count (trace w') = 1%nat ∧
    bti_pmos w' = ∅ ∧ bti_quarantine w' = ∅.
Proof.
  assert (E : ∃ w' st,
             Create (plat := Scripted.platform true) 10 true true 1
               (Scripted.bti 4096) (Scripted.paged_vmo [4096; 8192]) 0 8192 3
               (Scripted.world true [(ZX_OK, 65536, 4096)] [])
             = Ret (w', st, None)).
  { do 2 eexists. vm_compute. reflexivity. }
  destruct E as (w' & st & E). exists w', st. split; [exact E|].
  apply (Create_failure_releases _ _ _ _ _ _ _ _ _ _ _ _ E).
  apply not_elem_of_empty.
Defined.

(** The pin is refused. *)
Lemma Create_early_failure_witness :
  ∃ w',
    Create (plat := Scripted.platform true) 10 true true 1
      (Scripted.bti 4096)
      {| is_paged := true; CommitRange := λ _ _, ZX_OK;
         Pin := λ _ _, ZX_ERR_NO_MEMORY; pages := λ _ _, [] |} 0 8192 3
      (Scripted.world true [(ZX_OK, 65536, 8192)] [])
    = Ret (w', ZX_ERR_NO_MEMORY, None) ∧
    iommu_st w' = ([(ZX_OK, 65536, 8192)], []) ∧
    trace w' = [EvCommitRange 0 8192; EvPin 0 8192].
Proof.
  set (vmo := {| is_paged := true; CommitRange := λ _ _, ZX_OK;
                 Pin := λ _ _, ZX_ERR_NO_MEMORY; pages := λ _ _, [] |}).
  assert (E : ∃ w' st res,
             Create (plat := Scripted.platform true) 10 true true 1
               (Scripted.bti 4096) vmo 0 8192 3
               (Scripted.world true [(ZX_OK, 65536, 8192)] [])
             = Ret (w', st, res) ∧
             trace w' = [EvCommitRange 0 8192; EvPin 0 8192]).
  { do 3 eexists. split; vm_compute; reflexivity. }
  destruct E as (w' & st & res & E & Ht).
  destruct (Create_early_failure _ _ _ _ _ _ _ _ _ _ _ _ _ E)
    as (Hres & Hst & _ & _ & Hstatus).
  { left. split; reflexivity. }
  exists w'. rewrite E, Hres, Hstatus. split; [reflexivity|].
  split; [exact Hst|exact Ht].
Defined.

(** A contiguous mapping of four pages made in one call. *)
Lemma contiguous_table_strided_witness :
  ∃ t' w',
    MapIntoIommu (plat := Scripted.platform true) 10
      (Scripted.token true 16384 4096
         [UINT64_MAX; UINT64_MAX; UINT64_MAX; UINT64_MAX])
      3 (Scripted.world true [(ZX_OK, 65536, 16384)] [])
    = Ret (t', w', ZX_OK) ∧
    mapped_addrs_ t' !! 3%nat = Some 77824.
Proof.
  set (t := Scripted.token true 16384 4096
              [UINT64_MAX; UINT64_MAX; UINT64_MAX; UINT64_MAX]).
  set (w := Scripted.world true [(ZX_OK, 65536, 16384)] []).
  assert (E : ∃ t' w', MapIntoIommu 10 t 3 w = Ret (t', w', ZX_OK)).
  { do 2 eexists. vm_compute. reflexivity. }
  destruct E as (t' & w' & E). exists t', w'. split; [exact E|].
  destruct (contiguous_table_strided 10 t 3 w t' w'
              (Map w 7 (vmo_ t) 0 16384 3).1 ZX_OK 65536 16384)
    as [Hlen Hall]; [reflexivity|reflexivity|reflexivity|discriminate|exact E|].
  rewrite Hall by (rewrite Hlen; simpl; lia). reflexivity.
Defined.

(** The first chunk is mapped, the second is refused. *)
Lemma contiguous_map_failure_witness :
  ∃ w',
    MapIntoIommu (plat := Scripted.platform true) 10
      (Scripted.token true 8192 4096 [UINT64_MAX; UINT64_MAX])
      3 (Scripted.world true [(ZX_OK, 65536, 4096)] [])
    = Ret (Scripted.token true 8192 4096 [UINT64_MAX; UINT64_MAX], w',
           ZX_ERR_NO_MEMORY) ∧
    trace w' = [EvMap 7 0 8192 3; EvMap 7 4096 4096 3; EvUnmap 7 65536 4096].
Proof.
  set (t := Scripted.token true 8192 4096 [UINT64_MAX; UINT64_MAX]).
  set (w := Scripted.world true [(ZX_OK, 65536, 4096)] []).
  set (wn := (Map w 7 (vmo_ t) 0 8192 3).1).
  set (wm := (Map wn 7 (vmo_ t) 4096 4096 3).1).
  destruct (contiguous_map_failure 10 t 3 w 1 65536 4096 4096 wn wm
              ZX_ERR_NO_MEMORY 0 0) as (w' & Hr & Ht).
  - reflexivity.
  - apply (progress_step t 3 0 kInvalidAddr 0 8192 w wn 65536 4096);
      [reflexivity|reflexivity|left; reflexivity|apply progress_none].
  - reflexivity.
  - reflexivity.
  - discriminate.
  - lia.
  - exists w'. split; [exact Hr|]. rewrite Ht. reflexivity.
Defined.

(** A four-page contiguous mapping through the linear IOMMU. *)
Lemma contiguous_walk_terminates_witness :
  is_contiguous_
    (Scripted.token true 16384 4096
       [UINT64_MAX; UINT64_MAX; UINT64_MAX; UINT64_MAX]) = true ∧
  MapIntoIommu (plat := Linear.platform true) (Z.to_nat 16385)
    (Scripted.token true 16384 4096
       [UINT64_MAX; UINT64_MAX; UINT64_MAX; UINT64_MAX])
    3 (Linear.world true) ≠ OutOfFuel.
Proof.
  split; [reflexivity|].
  apply contiguous_walk_terminates.
  - apply Linear_lengths_bounded.
  - reflexivity.
  - split; [discriminate|reflexivity].
  - cbn [size_ Scripted.token]. lia.
Defined.

(** A table of four entries of which two are filled. *)
Lemma unmap_walk_stops_at_sentinel_witness :
  ∃ w' st',
    unmap_walk (plat := Scripted.platform true) 7 4096 4
      ([65536; 69632] ++ UINT64_MAX :: [73728]) 0 16384 ZX_OK
      (Scripted.world true [] []) = Ret (w', st') ∧
    trace w' = [EvUnmap 7 65536 4096; EvUnmap 7 69632 4096].
Proof.
  assert (E : ∃ w' st',
             unmap_walk (plat := Scripted.platform true) 7 4096 4
               ([65536; 69632] ++ UINT64_MAX :: [73728]) 0 16384 ZX_OK
               (Scripted.world true [] []) = Ret (w', st')).
  { do 2 eexists. vm_compute. reflexivity. }
  destruct E as (w' & st' & E). exists w', st'. split; [exact E|].
  assert (Hv : all_valid [65536; 69632])
    by (repeat constructor; discriminate).
  rewrite (unmap_walk_stops_at_sentinel _ _ _ _ _ _ _ _ _ _ _ Hv E).
  reflexivity.
Defined.

(** A scatter-gather token of two chunks, marked unpinned before its
    last handle is dropped. *)
Lemma destroy_after_on_zero_handles_witness :
  ∃ t1 w1 w2,
    on_zero_handles (plat := Scripted.platform true)
      (MarkUnpinned (Scripted.token false 8192 4096 [65536; 69632]))
      (Scripted.world true [] []) = Ret (t1, w1) ∧
    destroy t1 w1 = Ret w2 ∧
    trace w2 =
      [EvUnmap 7 65536 4096; EvUnmap 7 69632 4096; EvUnpin 0 8192] ∧
    bti_quarantine w2 = ∅.
Proof.
  set (t := MarkUnpinned (Scripted.token false 8192 4096 [65536; 69632])).
  set (w := Scripted.world true [] []).
  assert (E : ∃ t1 w1,
             on_zero_handles t w = Ret (t1, w1) ∧
             trace w1 = [EvUnmap 7 65536 4096; EvUnmap 7 69632 4096]).
  { do 2 eexists. split; vm_compute; reflexivity. }
  destruct E as (t1 & w1 & E & Ht1).
  destruct (destroy_after_on_zero_handles t w t1 w1 E) as [Hq1 Hd].
  specialize (Hq1 eq_refl). change (bti_quarantine w) with (∅ : gset nat) in Hq1.
  destruct (Hd w1) as (w2 & Hd2 & Ht & _ & _ & Hq2 & _).
  { rewrite Hq1. apply not_elem_of_empty. }
  exists t1, w1, w2. split; [exact E|]. split; [exact Hd2|].
  split; [rewrite Ht, Ht1; reflexivity|]. rewrite Hq2. exact Hq1.
Defined.

(** A scatter-gather token of two pages, created and then let go twice
    over: marked unpinned and destroyed, and dropped without the mark. *)
Lemma token_life_cycle_witness :
  ∃ w t r t1 w1 w2 t1' w1',
    Create (plat := Scripted.platform true) 10 true true 1
      (Scripted.bti 4096) (Scripted.paged_vmo [4096; 12288]) 0 8192 3
      (Scripted.world true
         [(ZX_OK, 65536, 4096); (ZX_OK, 131072, 4096)] [])
    = Ret (w, ZX_OK, Some (t, r)) ∧
    on_zero_handles (MarkUnpinned t) w = Ret (t1, w1) ∧
    destroy t1 w1 = Ret w2 ∧
    (bti_pmos w2 = ∅ ∧ bti_quarantine w2 = ∅ ∧
     unpin_count (trace w2) = 1%nat) ∧
    on_zero_handles t w = Ret (t1', w1') ∧
    (bti_pmos w1' = {[1%nat]} ∪ ∅ ∧ bti_quarantine w1' = {[1%nat]} ∪ ∅ ∧
     unpin_count (trace w1') = 0%nat).
Proof.
  set (t := {| koid := 1; vmo_ := Scripted.paged_vmo [4096; 12288];
               offset_ := 0; size_ := 8192; is_contiguous_ := false;
               bti_ := Scripted.bti 4096;
               mapped_addrs_ := [65536; 131072];
               explicitly_unpinned_ := false |}).
  set (mk := λ evs pmos quar,
         {| iommu_st := ([], []) : @IommuState (Scripted.platform true);
            trace := evs; bti_pmos := pmos; bti_quarantine := quar |}).
  set (w := mk [EvCommitRange 0 8192; EvPin 0 8192; EvMap 7 0 8192 3;
                EvMap 7 4096 4096 3] ({[1%nat]} ∪ ∅) ∅).
  set (t1 := InvalidateMappedAddrsLocked (MarkUnpinned t)).
  set (w1 := mk [EvCommitRange 0 8192; EvPin 0 8192; EvMap 7 0 8192 3;
                 EvMap 7 4096 4096 3; EvUnmap 7 65536 4096;
                 EvUnmap 7 131072 4096] ({[1%nat]} ∪ ∅) ∅).
  set (w2 := mk [EvCommitRange 0 8192; EvPin 0 8192; EvMap 7 0 8192 3;
                 EvMap 7 4096 4096 3; EvUnmap 7 65536 4096;
                 EvUnmap 7 131072 4096; EvUnpin 0 8192]
               (({[1%nat]} ∪ ∅) ∖ {[1%nat]}) ∅).
  set (t1' := InvalidateMappedAddrsLocked t).
  set (w1' := mk [EvCommitRange 0 8192; EvPin 0 8192; EvMap 7 0 8192 3;
                  EvMap 7 4096 4096 3; EvUnmap 7 65536 4096;
                  EvUnmap 7 131072 4096] ({[1%nat]} ∪ ∅) ({[1%nat]} ∪ ∅)).
  assert (Ec : Create (plat := Scripted.platform true) 10 true true 1
                 (Scripted.bti 4096) (Scripted.paged_vmo [4096; 12288])
                 0 8192 3
                 (Scripted.world true
                    [(ZX_OK, 65536, 4096); (ZX_OK, 131072, 4096)] [])
               = Ret (w, ZX_OK, Some (t, ZX_DEFAULT_PMT_RIGHTS))).
  { vm_cast_no_check
      (eq_refl (Ret (w, ZX_OK, Some (t, ZX_DEFAULT_PMT_RIGHTS)))). }
  assert (Ez : on_zero_handles (MarkUnpinned t) w = Ret (t1, w1)).
  { vm_cast_no_check (eq_refl (Ret (t1, w1))). }
  assert (Ed : destroy t1 w1 = Ret w2).
  { vm_cast_no_check (eq_refl (Ret w2)). }
  assert (Eq : on_zero_handles t w = Ret (t1', w1')).
  { vm_cast_no_check (eq_refl (Ret (t1', w1'))). }
  exists w, t, ZX_DEFAULT_PMT_RIGHTS, t1, w1, w2, t1', w1'.
  split; [exact Ec|]. split; [exact Ez|]. split; [exact Ed|].
  destruct (token_life_cycle _ _ _ _ _ _ _ _ _ _ _ _ _ _ Ec)
    as [Hlife Hheld]; [apply not_elem_of_empty|].
  split; [apply (Hlife t1 w1 w2 Ez Ed)|].
  split; [exact Eq|]. apply (Hheld t1' w1' Eq).
Defined.

(** An extent of two and a half chunks. *)
Lemma split_extent_chunks_witness :
  ∃ a',
    split_extent 10 4096 [0; 0; 0; 0] 1 65536 10240 = Ret (a', 4%nat) ∧
    a' = [0; 65536; 69632; 73728].
Proof.
  destruct (split_extent_chunks 4096 10 [0; 0; 0; 0] 1%nat
              65536 10240) as (a' & Hr & _).
  - reflexivity.
  - split; [discriminate|reflexivity].
  - split; [discriminate|reflexivity].
  - vm_compute. lia.
  - vm_compute. lia.
  - exists a'. change (1 + chunk_count 10240 4096)%nat with 4%nat in Hr.
    split; [exact Hr|]. vm_compute in Hr. injection Hr as Ha. congruence.
Defined.

(** Two extents of two chunks and one chunk. *)
Lemma scatter_gather_table_witness :
  ∃ t' w',
    MapIntoIommu (plat := Scripted.platform true) 10
      (Scripted.token false 12288 4096 [UINT64_MAX; UINT64_MAX; UINT64_MAX])
      3 (Scripted.world true [(ZX_OK, 65536, 8192); (ZX_OK, 131072, 4096)] [])
    = Ret (t', w', ZX_OK) ∧
    mapped_addrs_ t' = [65536; 69632; 131072].
Proof.
  set (t := Scripted.token false 12288 4096
              [UINT64_MAX; UINT64_MAX; UINT64_MAX]).
  set (w := Scripted.world true
              [(ZX_OK, 65536, 8192); (ZX_OK, 131072, 4096)] []).
  set (w1 := (Map w 7 (vmo_ t) 0 12288 3).1).
  set (w2 := (Map w1 7 (vmo_ t) 8192 4096 3).1).
  destruct (scatter_gather_table 10 t 3 w [(65536, 8192); (131072, 4096)]
              12288 0 w2) as (t' & Hr & Ha & _).
  - reflexivity.
  - reflexivity.
  - apply (scatter_step 7 (vmo_ t) 4096 3 0 12288 w w1 65536 8192);
      [reflexivity|reflexivity|reflexivity|].
    apply (scatter_step 7 (vmo_ t) 4096 3 8192 4096 w1 w2 131072 4096);
      [reflexivity|reflexivity|reflexivity|].
    apply scatter_none.
  - reflexivity.
  - reflexivity.
  - vm_compute. lia.
  - exists t', w2. split; [exact Hr|]. rewrite Ha. reflexivity.
Defined.

(** A token of three pages at page granularity. *)
Lemma EncodeAddrs_page_granularity_witness :
  EncodeAddrs (Scripted.token false 12288 4096 [65536; 131072; 196608])
    true [0; 0; 0] = (ZX_OK, [65536; 131072; 196608]) ∧
  EncodeAddrs (Scripted.token false 12288 4096 [65536; 131072; 196608])
    false [0; 0; 0] = (ZX_OK, [65536; 131072; 196608]).
Proof.
  apply (EncodeAddrs_page_granularity
           (Scripted.token false 12288 4096 [65536; 131072; 196608])
           [0; 0; 0]).
  - reflexivity.
  - repeat constructor; discriminate.
  - reflexivity.
  - reflexivity.
Defined.

(** ** The FVM dump utility *)

Section SliceDump.

Lemma end_run_lines s len :
  1 ≤ len → end_run (Some s) len = Ret (run_lines (s, len)).
Proof.
  intros Hlen. unfold end_run, run_lines. cbn [deref fst snd].
  destruct (len =? 1) eqn:E1; [reflexivity|].
  apply Z.eqb_neq in E1.
  assert (H1 : (1 <? len) = true) by (apply Z.ltb_lt; lia). rewrite H1.
  reflexivity.
Qed.

Lemma expand_run_single s : slice_wf s → expand_run (s, 1) = [s].
Proof.
  intros (Hp & Hv & Hs). unfold expand_run.
  change (Z.to_nat (s, 1).2) with 1%nat. cbn [seq fmap list_fmap fst Z.of_nat].
  rewrite !Z.add_0_r, !wrap64_small by assumption.
  destruct s; reflexivity.
Qed.

Lemma expand_run_snoc s0 len s :
  0 ≤ len → continues (s0, len) s = true →
  expand_run (s0, len + 1) = expand_run (s0, len) ++ [s].
Proof.
  intros Hlen Hc. unfold continues in Hc. cbn [fst snd] in Hc.
  apply andb_prop in Hc as [Hc Hpart]. apply andb_prop in Hc as [Hps Hvs].
  apply Z.eqb_eq in Hpart, Hps, Hvs.
  unfold expand_run. cbn [fst snd].
  replace (Z.to_nat (len + 1)) with (Z.to_nat len + 1)%nat by lia.
  rewrite seq_app, fmap_app. f_equal. cbn.
  rewrite Z2Nat.id by lia. unfold add64 in Hps, Hvs.
  rewrite <- Hps, <- Hvs, <- Hpart. destruct s; reflexivity.
Qed.

Lemma dump_loop_runs rest :
  ∀ s0 len,
    slice_wf s0 → Forall slice_wf rest → 1 ≤ len →
    len + Z.of_nat (length rest) < 2 ^ 64 →
    ∃ len' more,
      dump_loop rest (Some s0) len
        = Ret (flat_map run_lines ((s0, len') :: more)) ∧
      len ≤ len' ∧
      flat_map expand_run ((s0, len') :: more) = expand_run (s0, len) ++ rest ∧
      Forall (λ r, 1 ≤ r.2) ((s0, len') :: more) ∧
      runs_maximal ((s0, len') :: more).
Proof.
  induction rest as [|s rest IH]; intros s0 len Hs0 Hrest Hlen Hbound.
  - exists len, []. cbn [dump_loop flat_map].
    rewrite end_run_lines by exact Hlen.
    rewrite !app_nil_r. split; [reflexivity|]. split; [lia|].
    split; [reflexivity|]. split; [|exact I].
    constructor; [exact Hlen|constructor].
  - apply Forall_cons in Hrest as [Hs Hrest]. cbn [length] in Hbound.
    cbn [dump_loop deref mbind outcome_bind].
    change ((physical_slice s =? add64 (physical_slice s0) len)
            && (virtual_slice s =? add64 (virtual_slice s0) len)
            && (virtual_partition s =? virtual_partition s0))
      with (continues (s0, len) s).
    destruct (continues (s0, len) s) eqn:Hc.
    + assert (Hadd : add64 len 1 = len + 1)
        by (unfold add64; apply wrap64_small; lia).
      rewrite Hadd.
      destruct (IH s0 (len + 1)) as (len' & more & Hr & Hle & Hex & Hpos & Hmax);
        [assumption|assumption|lia|lia|].
      exists len', more. split; [exact Hr|]. split; [lia|].
      split; [|split; assumption].
      rewrite Hex, (expand_run_snoc s0 len s); [|lia|exact Hc].
      rewrite <- app_assoc. reflexivity.
    + rewrite end_run_lines by exact Hlen.
      destruct (IH s 1) as (len' & more & Hr & Hle & Hex & Hpos & Hmax);
        [assumption|assumption|lia|lia|].
      exists len, ((s, len') :: more).
      cbn [mbind outcome_bind]. rewrite Hr. cbn [mbind outcome_bind].
      split; [reflexivity|]. split; [lia|]. split; [|split].
      * change (flat_map expand_run ((s0, len) :: (s, len') :: more))
          with (expand_run (s0, len) ++ flat_map expand_run ((s, len') :: more)).
        rewrite Hex, expand_run_single by assumption. reflexivity.
      * constructor; [exact Hlen|exact Hpos].
      * cbn [runs_maximal fst]. split; [exact Hc|exact Hmax].
Qed.

(** X14: the slice dump is a run-length encoding.  After the heading,
    [DumpSlices] prints the lines of a list of runs (three lines each);
    every run has at least one slice, the runs expanded one after the
    other are exactly the slices given, in their order, and no run could
    have been carried on by the slice that starts the next.  In
    particular the dump returns: no null [run_start] is read. *)
Theorem DumpSlices_runs slices :
  Forall slice_wf slices →
  Z.of_nat (length slices) < 2 ^ 64 →
  ∃ runs,
    DumpSlices slices = Ret (LSliceInfo :: flat_map run_lines runs) ∧
    flat_map expand_run runs = slices ∧
    Forall (λ r, 1 ≤ r.2) runs ∧
    runs_maximal runs.
Proof.
  intros Hwf Hlen. destruct slices as [|s0 rest].
  - exists []. cbn. repeat split. constructor.
  - apply Forall_cons in Hwf as [Hs0 Hrest]. cbn [length] in Hlen.
    destruct (dump_loop_runs rest s0 1 Hs0 Hrest)
      as (len' & more & Hr & _ & Hex & Hpos & Hmax); [lia|lia|].
    exists ((s0, len') :: more). unfold DumpSlices. cbn [tail].
    rewrite Hr. cbn [mbind outcome_bind]. split; [reflexivity|].
    split; [|split; assumption].
    rewrite Hex, expand_run_single by assumption. reflexivity.
Qed.

End SliceDump.

Section PartitionLoad.
Context {fmt : FvmFormat}.

Lemma array_at_Ret {A} (a : list A) i x :
  a !! i = Some x → array_at a i = Ret x.
Proof. intros H. unfold array_at. rewrite H. reflexivity. Qed.

Lemma array_update_Ret {A} (a : list A) i (f : A → A) x :
  a !! i = Some x → array_update a i f = Ret (<[i:=f x]> a).
Proof. intros H. unfold array_update. rewrite H. reflexivity. Qed.

Lemma bool_decide_elem_cons_ne (k i : nat) l :
  k ≠ i → bool_decide (k ∈ i :: l) = bool_decide (k ∈ l).
Proof. intros Hne. apply bool_decide_ext. rewrite elem_of_cons. tauto. Qed.

Lemma allocated_at_insert partitions v p0 p1 j :
  partitions !! v = Some p0 → entry p1 = entry p0 →
  allocated_at (<[v:=p1]> partitions) j = allocated_at partitions j.
Proof.
  intros Hp He. unfold allocated_at.
  destruct (decide (j = v)) as [->|Hne].
  - rewrite list_lookup_insert_eq by (eapply lookup_lt_Some; exact Hp).
    rewrite Hp. unfold Allocated. rewrite He. reflexivity.
  - rewrite list_lookup_insert_ne by auto. reflexivity.
Qed.

Lemma init_partitions_spec vt idxs :
  ∀ parts,
    Forall (λ i, (i < length parts)%nat) idxs →
    ∃ parts',
      init_partitions idxs vt parts = Ret parts' ∧
      length parts' = length parts ∧
      ∀ k p, parts !! k = Some p →
        ∃ p', parts' !! k = Some p' ∧ slices p' = slices p ∧
          entry p' = if bool_decide (k ∈ idxs) && negb (vt k =? 0)
                     then Some k else entry p.
Proof.
  induction idxs as [|i rest IH]; intros parts Hin.
  - exists parts. split; [reflexivity|]. split; [reflexivity|].
    intros k p Hk. exists p. split; [exact Hk|]. split; [reflexivity|].
    rewrite bool_decide_eq_false_2 by apply not_elem_of_nil. reflexivity.
  - apply Forall_cons in Hin as [Hi Hrest]. cbn [init_partitions].
    destruct (negb (vt i =? 0)) eqn:E.
    + destruct (lookup_lt_is_Some_2 parts i Hi) as [pi Hpi].
      rewrite (array_update_Ret _ _ _ _ Hpi). cbn [mbind outcome_bind].
      destruct (IH (<[i:={| entry := Some i; slices := slices pi |}]> parts))
        as (parts' & Hr & Hl & Hall);
        [rewrite length_insert; exact Hrest|].
      exists parts'. split; [exact Hr|].
      split; [rewrite Hl, length_insert; reflexivity|].
      intros k p Hk. destruct (decide (k = i)) as [->|Hne].
      * assert (p = pi) as -> by congruence.
        destruct (Hall i {| entry := Some i; slices := slices pi |})
          as (p' & Hp' & Hs & He); [apply list_lookup_insert_eq; exact Hi|].
        exists p'. split; [exact Hp'|]. split; [exact Hs|].
        rewrite He, E. cbn [entry].
        rewrite (bool_decide_eq_true_2 (i ∈ i :: rest)) by apply list_elem_of_here.
        destruct (bool_decide (i ∈ rest)); reflexivity.
      * destruct (Hall k p) as (p' & Hp' & Hs & He);
          [rewrite list_lookup_insert_ne by auto; exact Hk|].
        exists p'. split; [exact Hp'|]. split; [exact Hs|].
        rewrite He, bool_decide_elem_cons_ne by exact Hne. reflexivity.
    + cbn [mbind outcome_bind].
      destruct (IH parts Hrest) as (parts' & Hr & Hl & Hall).
      exists parts'. split; [exact Hr|]. split; [exact Hl|].
      intros k p Hk. destruct (Hall k p Hk) as (p' & Hp' & Hs & He).
      exists p'. split; [exact Hp'|]. split; [exact Hs|]. rewrite He.
      destruct (decide (k = i)) as [->|Hne].
      * rewrite E, !andb_false_r. reflexivity.
      * rewrite bool_decide_elem_cons_ne by exact Hne. reflexivity.
Qed.

Lemma live_slices_cons st i rest :
  live_slices st (i :: rest)
  = (if negb ((st i).1 =? FVM_SLICE_ENTRY_FREE) then [slice_at st i] else [])
    ++ live_slices st rest.
Proof. reflexivity. Qed.

Lemma elem_of_live_slices st idxs s :
  s ∈ live_slices st idxs ↔
  ∃ i, i ∈ idxs ∧ (st i).1 ≠ FVM_SLICE_ENTRY_FREE ∧ s = slice_at st i.
Proof.
  induction idxs as [|i rest IH].
  - split; [intros H; inversion H|intros (i & H & _); inversion H].
  - rewrite live_slices_cons, elem_of_app, IH. split.
    + intros [H|(j & Hj & Hf & Hs)].
      * destruct ((st i).1 =? FVM_SLICE_ENTRY_FREE) eqn:E;
          cbn [negb] in H; [inversion H|].
        apply list_elem_of_singleton in H. apply Z.eqb_neq in E.
        exists i. split; [apply list_elem_of_here|]. split; assumption.
      * exists j. split; [apply list_elem_of_further; exact Hj|].
        split; assumption.
    + intros (j & Hj & Hf & Hs). apply elem_of_cons in Hj as [->|Hj].
      * left. apply Z.eqb_neq in Hf. rewrite Hf. cbn [negb].
        apply list_elem_of_singleton. exact Hs.
      * right. exists j. split; [exact Hj|]. split; assumption.
Qed.

Lemma live_slices_sorted st n :
  ∀ a, StronglySorted (λ x y, physical_slice x < physical_slice y)
         (live_slices st (seq a n)).
Proof.
  induction n as [|n IH]; intros a; [constructor|].
  cbn [seq]. rewrite live_slices_cons.
  destruct (negb ((st a).1 =? FVM_SLICE_ENTRY_FREE)); [|apply IH].
  cbn [app]. constructor; [apply IH|].
  apply Forall_forall. intros s Hs.
  apply elem_of_live_slices in Hs as (i & Hi & _ & ->).
  apply elem_of_seq in Hi. cbn. lia.
Qed.

Lemma load_slices_out st idxs :
  ∀ out parts valid diag r,
    load_slices idxs st (out, parts, valid, diag) = Ret r →
    r.1.1.1 = out ++ live_slices st idxs.
Proof.
  induction idxs as [|i rest IH]; intros out parts valid diag r Hr.
  - cbn in Hr. inversion Hr; subst. cbn. rewrite app_nil_r. reflexivity.
  - rewrite live_slices_cons. cbn [load_slices] in Hr.
    destruct (st i) as [vpart vslice] eqn:Est. cbn [fst].
    destruct (negb (vpart =? FVM_SLICE_ENTRY_FREE)) eqn:Efree.
    + apply bind_Ret in Hr as ([v1 d1] & _ & Hr).
      apply bind_Ret in Hr as (parts1 & _ & Hr).
      apply IH in Hr. rewrite Hr, <- app_assoc.
      unfold slice_at. rewrite Est. reflexivity.
    + apply IH in Hr. exact Hr.
Qed.

Lemma load_slices_spec st idxs :
  ∀ out parts valid diag,
    length parts = FVM_MAX_ENTRIES →
    (∀ i, i ∈ idxs → (st i).1 ≠ FVM_SLICE_ENTRY_FREE →
       0 ≤ (st i).1 < Z.of_nat FVM_MAX_ENTRIES) →
    ∃ parts' valid' diag',
      load_slices idxs st (out, parts, valid, diag)
        = Ret (out ++ live_slices st idxs, parts', valid', diag') ∧
      length parts' = FVM_MAX_ENTRIES ∧
      (∀ k p, parts !! k = Some p →
         ∃ p', parts' !! k = Some p' ∧ entry p' = entry p ∧
           slices p' = slices p ++ slices_of k (live_slices st idxs)) ∧
      (valid' = true ↔
       valid = true ∧
       ∀ s, s ∈ live_slices st idxs →
         allocated_at parts (Z.to_nat (virtual_partition s)) = true).
Proof.
  induction idxs as [|i rest IH]; intros out parts valid diag Hlen Hrange.
  - exists parts, valid, diag. cbn [load_slices live_slices flat_map].
    rewrite app_nil_r. split; [reflexivity|]. split; [exact Hlen|]. split.
    + intros k p Hk. exists p. split; [exact Hk|]. split; [reflexivity|].
      unfold slices_of. rewrite filter_nil, app_nil_r. reflexivity.
    + split; [intros Hv; split; [exact Hv|intros s Hs; inversion Hs]|].
      intros [Hv _]. exact Hv.
  - rewrite live_slices_cons. cbn [load_slices].
    assert (Hrest : ∀ j, j ∈ rest → (st j).1 ≠ FVM_SLICE_ENTRY_FREE →
                      0 ≤ (st j).1 < Z.of_nat FVM_MAX_ENTRIES)
      by (intros j Hj; apply Hrange, list_elem_of_further, Hj).
    pose proof (Hrange i (list_elem_of_here _ _)) as Hi.
    assert (Hsl : slice_at st i
                  = {| virtual_partition := (st i).1;
                       virtual_slice := (st i).2;
                       physical_slice := Z.of_nat i |}) by reflexivity.
    destruct (st i) as [vpart vslice] eqn:Est. cbn [fst snd] in *.
    destruct (negb (vpart =? FVM_SLICE_ENTRY_FREE)) eqn:Efree.
    2:{ cbn [app]. apply IH; assumption. }
    apply negb_true_iff, Z.eqb_neq in Efree. specialize (Hi Efree).
    assert (Hle : (Z.of_nat FVM_MAX_ENTRIES <=? vpart) = false)
      by (apply Z.leb_gt; lia).
    rewrite Hle.
    destruct (lookup_lt_is_Some_2 parts (Z.to_nat vpart)) as [p0 Hp0];
      [lia|].
    rewrite (array_at_Ret _ _ _ Hp0). cbn [mbind outcome_bind].
    assert (Hv : ∃ v1 d1,
               (if negb (Allocated p0)
                then Ret (false, diag ++ [UnallocatedPartition vpart])
                else Ret (valid, diag)) = Ret (v1, d1) ∧
               (v1 = true ↔ valid = true ∧ Allocated p0 = true)).
    { destruct (Allocated p0); cbn [negb]; eexists _, _;
        (split; [reflexivity|]); split; intros H;
        try tauto; try discriminate; destruct H; discriminate. }
    destruct Hv as (v1 & d1 & Hv & Hv1). rewrite Hv.
    cbn [mbind outcome_bind].
    rewrite (array_update_Ret _ _ _ _ Hp0). cbn [mbind outcome_bind].
    rewrite <- Hsl.
    set (p1 := {| entry := entry p0; slices := slices p0 ++ [slice_at st i] |}).
    destruct (IH (out ++ [slice_at st i]) (<[Z.to_nat vpart:=p1]> parts) v1 d1)
      as (parts' & valid' & diag' & Hr & Hl & Hparts & Hvalid);
      [rewrite length_insert; exact Hlen|exact Hrest|].
    exists parts', valid', diag'. rewrite Hr.
    split; [rewrite <- app_assoc; reflexivity|]. split; [exact Hl|].
    assert (Hvp : virtual_partition (slice_at st i) = vpart)
      by (rewrite Hsl; reflexivity).
    split.
    + intros k p Hk. destruct (decide (k = Z.to_nat vpart)) as [->|Hne].
      * assert (p = p0) as -> by congruence.
        destruct (Hparts (Z.to_nat vpart) p1) as (p' & Hp' & He & Hs);
          [apply list_lookup_insert_eq; lia|].
        exists p'. split; [exact Hp'|]. split; [exact He|].
        rewrite Hs. cbn [slices p1]. rewrite <- app_assoc. f_equal.
        unfold slices_of. cbn [app].
        rewrite filter_cons_True by (rewrite Hvp; lia). reflexivity.
      * destruct (Hparts k p) as (p' & Hp' & He & Hs);
          [rewrite list_lookup_insert_ne by auto; exact Hk|].
        exists p'. split; [exact Hp'|]. split; [exact He|].
        rewrite Hs. f_equal. unfold slices_of. cbn [app].
        rewrite filter_cons_False by (rewrite Hvp; lia). reflexivity.
    + rewrite Hvalid, Hv1. cbn [app]. split.
      * intros [[Hv0 Ha] Hall]. split; [exact Hv0|]. intros s Hs.
        apply elem_of_cons in Hs as [->|Hs].
        -- rewrite Hvp. unfold allocated_at. rewrite Hp0. exact Ha.
        -- rewrite <- (allocated_at_insert parts (Z.to_nat vpart) p0 p1)
             by (exact Hp0 || reflexivity).
           apply Hall. exact Hs.
      * intros [Hv0 Hall]. split; [split; [exact Hv0|]|].
        -- specialize (Hall (slice_at st i) (list_elem_of_here _ _)).
           rewrite Hvp in Hall. unfold allocated_at in Hall.
           rewrite Hp0 in Hall. exact Hall.
        -- intros s Hs.
           rewrite (allocated_at_insert parts (Z.to_nat vpart) p0 p1)
             by (exact Hp0 || reflexivity).
           apply Hall. apply list_elem_of_further. exact Hs.
Qed.

Lemma check_counts_spec vt parts idxs :
  ∀ valid diag,
    Forall (λ i, (i < length parts)%nat) idxs →
    ∃ valid' diag',
      check_counts idxs vt parts (valid, diag) = Ret (valid', diag') ∧
      (valid' = true ↔
       valid = true ∧
       ∀ i p k, i ∈ idxs → parts !! i = Some p → entry p = Some k →
         vt k = Z.of_nat (length (slices p))).
Proof.
  induction idxs as [|i rest IH]; intros valid diag Hin.
  - exists valid, diag. split; [reflexivity|]. split.
    + intros Hv. split; [exact Hv|]. intros i p k Hi. inversion Hi.
    + intros [Hv _]. exact Hv.
  - apply Forall_cons in Hin as [Hi Hrest]. cbn [check_counts].
    destruct (lookup_lt_is_Some_2 parts i Hi) as [pi Hpi].
    rewrite (array_at_Ret _ _ _ Hpi). cbn [mbind outcome_bind].
    assert (Hst : ∃ v1 d1,
               match entry pi with
               | Some k =>
                   if negb (vt k =? Z.of_nat (length (slices pi)))
                   then (false,
                         (valid, diag).2 ++
                         [SliceCountDisagreement i (vt k)
                            (Z.of_nat (length (slices pi)))])
                   else (valid, diag)
               | None => (valid, diag)
               end = (v1, d1) ∧
               (v1 = true ↔
                valid = true ∧
                ∀ k, entry pi = Some k →
                  vt k = Z.of_nat (length (slices pi)))).
    { destruct (entry pi) as [k|].
      - destruct (vt k =? Z.of_nat (length (slices pi))) eqn:E; cbn [negb].
        + apply Z.eqb_eq in E. eexists _, _. split; [reflexivity|].
          split; [intros Hv; split; [exact Hv|congruence]|tauto].
        + apply Z.eqb_neq in E. eexists _, _. split; [reflexivity|].
          split; [discriminate|]. intros [_ H]. elim E. apply H. reflexivity.
      - eexists _, _. split; [reflexivity|].
        split; [intros Hv; split; [exact Hv|discriminate]|tauto]. }
    destruct Hst as (v1 & d1 & Hst & Hv1). rewrite Hst.
    destruct (IH v1 d1 Hrest) as (valid' & diag' & Hr & Hvalid).
    exists valid', diag'. split; [exact Hr|]. rewrite Hvalid, Hv1. split.
    + intros [[Hv Hhead] Hall]. split; [exact Hv|].
      intros j p k Hj Hp He. apply elem_of_cons in Hj as [->|Hj].
      * assert (p = pi) as -> by congruence. apply Hhead. exact He.
      * apply (Hall j p k Hj Hp He).
    + intros [Hv Hall]. split; [split; [exact Hv|]|].
      * intros k He. apply (Hall i pi k (list_elem_of_here _ _) Hpi He).
      * intros j p k Hj. apply Hall. apply list_elem_of_further. exact Hj.
Qed.

Lemma snoc_not_nil {A} (l : list A) x : l ++ [x] = [] ↔ false = true.
Proof. split; [destruct l; discriminate|discriminate]. Qed.

Lemma load_slices_silent st idxs :
  ∀ out parts valid diag out' parts' valid' diag',
    load_slices idxs st (out, parts, valid, diag)
      = Ret (out', parts', valid', diag') →
    (valid = true ↔ diag = []) → (valid' = true ↔ diag' = []).
Proof.
  induction idxs as [|i rest IH];
    intros out parts valid diag out' parts' valid' diag' Hr Hinv.
  - cbn in Hr. inversion Hr; subst. exact Hinv.
  - cbn [load_slices] in Hr. destruct (st i) as [vpart vslice].
    destruct (negb (vpart =? FVM_SLICE_ENTRY_FREE)).
    2:{ apply (IH _ _ _ _ _ _ _ _ Hr Hinv). }
    apply bind_Ret in Hr as ([v1 d1] & H1 & Hr).
    apply bind_Ret in Hr as (parts1 & _ & Hr).
    apply (IH _ _ _ _ _ _ _ _ Hr).
    destruct (Z.of_nat FVM_MAX_ENTRIES <=? vpart).
    + inversion H1; subst. symmetry. apply snoc_not_nil.
    + apply bind_Ret in H1 as (p & _ & H1).
      destruct (negb (Allocated p)); inversion H1; subst;
        [symmetry; apply snoc_not_nil|exact Hinv].
Qed.

Lemma check_counts_silent vt parts idxs :
  ∀ valid diag valid' diag',
    check_counts idxs vt parts (valid, diag) = Ret (valid', diag') →
    (valid = true ↔ diag = []) → (valid' = true ↔ diag' = []).
Proof.
  induction idxs as [|i rest IH]; intros valid diag valid' diag' Hr Hinv.
  - cbn in Hr. inversion Hr; subst. exact Hinv.
  - cbn [check_counts] in Hr. apply bind_Ret in Hr as (p & _ & Hr).
    destruct (entry p) as [k|]; [|apply (IH _ _ _ _ Hr Hinv)].
    destruct (negb (vt k =? Z.of_nat (length (slices p))));
      [|apply (IH _ _ _ _ Hr Hinv)].
    apply (IH _ _ _ _ Hr). symmetry. apply snoc_not_nil.
Qed.

Lemma load_slices_out_of_range st idxs :
  ∀ out parts valid diag,
    length parts = FVM_MAX_ENTRIES →
    (∃ i, i ∈ idxs ∧ (st i).1 ≠ FVM_SLICE_ENTRY_FREE ∧
          Z.of_nat FVM_MAX_ENTRIES ≤ (st i).1) →
    load_slices idxs st (out, parts, valid, diag) = Panic.
Proof.
  induction idxs as [|i0 rest IH];
    intros out parts valid diag Hlen (i & Hi & Hfree & Hbig).
  - inversion Hi.
  - cbn [load_slices]. destruct (st i0) as [vpart vslice] eqn:Est.
    destruct (vpart =? FVM_SLICE_ENTRY_FREE) eqn:Efree; cbn [negb].
    + apply IH; [exact Hlen|]. exists i. split; [|split; assumption].
      apply elem_of_cons in Hi as [->|Hi]; [|exact Hi].
      rewrite Est in Hfree. apply Z.eqb_eq in Efree. contradiction.
    + destruct (Z.of_nat FVM_MAX_ENTRIES <=? vpart) eqn:Ele.
      * apply Z.leb_le in Ele. cbn [mbind outcome_bind]. unfold array_update.
        rewrite lookup_ge_None_2 by lia. reflexivity.
      * apply Z.leb_gt in Ele. unfold array_at, array_update.
        destruct (parts !! Z.to_nat vpart) as [p0|] eqn:Hp0; [|reflexivity].
        cbn [mbind outcome_bind].
        assert (Hi' : i ∈ rest).
        { apply elem_of_cons in Hi as [->|Hi]; [|exact Hi].
          rewrite Est in Hbig. cbn in Hbig. lia. }
        destruct (negb (Allocated p0)); cbn [mbind outcome_bind];
          (apply IH; [rewrite length_insert; exact Hlen|]);
          exists i; (split; [exact Hi'|split; assumption]).
Qed.

Lemma seq_below n : Forall (λ i, (i < length (replicate n
    {| entry := None; slices := [] |}))%nat) (seq 1 (n - 1)).
Proof.
  apply Forall_forall. intros i Hi. apply elem_of_seq in Hi.
  rewrite length_replicate. lia.
Qed.

Lemma bool_decide_seq (k n : nat) :
  (k < n)%nat → bool_decide (k ∈ seq 1 (n - 1)) = (1 <=? k)%nat.
Proof.
  intros Hk. destruct (1 <=? k)%nat eqn:E.
  - apply Nat.leb_le in E. apply bool_decide_eq_true_2, elem_of_seq. lia.
  - apply Nat.leb_gt in E. apply bool_decide_eq_false_2.
    rewrite elem_of_seq. lia.
Qed.

Lemma LoadPartitions_spec n st vt :
  vparts_in_range n st →
  ∃ parts valid diag,
    LoadPartitions n st vt
      = Ret (live_slices st (seq 1 n), parts, valid, diag) ∧
    length parts = FVM_MAX_ENTRIES ∧
    (∀ k : nat, (k < FVM_MAX_ENTRIES)%nat →
       ∃ p, parts !! k = Some p ∧
         slices p = slices_of k (live_slices st (seq 1 n)) ∧
         entry p = if (1 <=? k)%nat && negb (vt k =? 0)
                   then Some k else None) ∧
    (valid = true ↔
     (∀ s, s ∈ live_slices st (seq 1 n) → virtual_partition s ≠ 0) ∧
     (∀ k : nat, (1 ≤ k < FVM_MAX_ENTRIES)%nat →
        vt k = Z.of_nat (length (slices_of k (live_slices st (seq 1 n)))))).
Proof.
  intros Hrange. unfold LoadPartitions.
  set (live := live_slices st (seq 1 n)).
  set (fresh := {| entry := None; slices := [] |}).
  destruct (init_partitions_spec vt (seq 1 (FVM_MAX_ENTRIES - 1))
              (replicate FVM_MAX_ENTRIES fresh) (seq_below _))
    as (parts1 & Hr1 & Hl1 & Hp1).
  rewrite length_replicate in Hl1. rewrite Hr1. cbn [mbind outcome_bind].
  destruct (load_slices_spec st (seq 1 n) [] parts1 true [] Hl1)
    as (parts2 & valid2 & diag2 & Hr2 & Hl2 & Hp2 & Hv2).
  { intros i Hi. apply elem_of_seq in Hi. apply Hrange. lia. }
  rewrite Hr2. cbn [mbind outcome_bind app]. fold live in Hp2, Hv2 |- *.
  destruct (check_counts_spec vt parts2 (seq 1 (FVM_MAX_ENTRIES - 1))
              valid2 diag2) as (valid3 & diag3 & Hr3 & Hv3).
  { apply Forall_forall. intros i Hi. apply elem_of_seq in Hi. lia. }
  rewrite Hr3. cbn [mbind outcome_bind].
  exists parts2, valid3, diag3. split; [reflexivity|]. split; [exact Hl2|].
  assert (Hentry : ∀ k : nat, (k < FVM_MAX_ENTRIES)%nat →
            ∃ p1, parts1 !! k = Some p1 ∧ slices p1 = [] ∧
              entry p1 = if (1 <=? k)%nat && negb (vt k =? 0)
                         then Some k else None).
  { intros k Hk.
    destruct (Hp1 k fresh (lookup_replicate_2 _ _ _ Hk))
      as (p1 & Hk1 & Hs1 & He1).
    exists p1. split; [exact Hk1|]. split; [exact Hs1|].
    rewrite He1, bool_decide_seq by exact Hk. reflexivity. }
  assert (Hfinal : ∀ k : nat, (k < FVM_MAX_ENTRIES)%nat →
            ∃ p, parts2 !! k = Some p ∧ slices p = slices_of k live ∧
              entry p = if (1 <=? k)%nat && negb (vt k =? 0)
                        then Some k else None).
  { intros k Hk. destruct (Hentry k Hk) as (p1 & Hk1 & Hs1 & He1).
    destruct (Hp2 k p1 Hk1) as (p2 & Hk2 & He2 & Hs2).
    exists p2. split; [exact Hk2|].
    split; [rewrite Hs2, Hs1; reflexivity|congruence]. }
  split; [exact Hfinal|].
  assert (Halloc : ∀ k : nat, (k < FVM_MAX_ENTRIES)%nat →
            allocated_at parts1 k = (1 <=? k)%nat && negb (vt k =? 0)).
  { intros k Hk. destruct (Hentry k Hk) as (p1 & Hk1 & _ & He1).
    unfold allocated_at, Allocated. rewrite Hk1, He1.
    destruct ((1 <=? k)%nat && negb (vt k =? 0)); reflexivity. }
  assert (Hlive : ∀ s, s ∈ live →
            virtual_partition s ≠ FVM_SLICE_ENTRY_FREE ∧
            0 ≤ virtual_partition s < Z.of_nat FVM_MAX_ENTRIES).
  { intros s Hs. apply elem_of_live_slices in Hs as (i & Hi & Hf & ->).
    apply elem_of_seq in Hi. split; [exact Hf|]. apply Hrange; [lia|exact Hf]. }
  rewrite Hv3, Hv2. split.
  - intros [[_ Ha] Hc]. split.
    + intros s Hs Hz. destruct (Hlive s Hs) as [_ Hin].
      specialize (Ha s Hs). rewrite Halloc in Ha by lia.
      rewrite Hz in Ha. discriminate Ha.
    + intros k Hk. destruct (Hfinal k) as (p & Hpk & Hs & He); [lia|].
      assert (H1 : (1 <=? k)%nat = true) by (apply Nat.leb_le; lia).
      rewrite H1 in He. cbn [andb] in He.
      destruct (vt k =? 0) eqn:Ez; cbn [negb] in He.
      * apply Z.eqb_eq in Ez. rewrite Ez.
        destruct (slices_of k live) as [|s l] eqn:Esl; [reflexivity|].
        assert (Hin : s ∈ slices_of k live)
          by (rewrite Esl; apply list_elem_of_here).
        apply list_elem_of_filter in Hin as [Hvp Hin].
        specialize (Ha s Hin). rewrite Hvp, Nat2Z.id in Ha.
        rewrite Halloc in Ha by lia.
        assert (Hz : (vt k =? 0) = true) by (apply Z.eqb_eq; exact Ez).
        rewrite Hz, andb_false_r in Ha. discriminate Ha.
      * rewrite <- Hs. apply (Hc k p k); [apply elem_of_seq; lia|exact Hpk|].
        exact He.
  - intros [Hnz Hc]. split; [split; [reflexivity|]|].
    + intros s Hs. destruct (Hlive s Hs) as [_ Hin].
      specialize (Hnz s Hs).
      rewrite Halloc by lia.
      assert (H1 : (1 <=? Z.to_nat (virtual_partition s))%nat = true)
        by (apply Nat.leb_le; lia).
      rewrite H1. cbn [andb]. apply negb_true_iff, Z.eqb_neq.
      rewrite (Hc (Z.to_nat (virtual_partition s))) by lia.
      assert (Hin' : s ∈ slices_of (Z.to_nat (virtual_partition s)) live).
      { apply list_elem_of_filter. split; [lia|exact Hs]. }
      destruct (slices_of (Z.to_nat (virtual_partition s)) live);
        [inversion Hin'|cbn [length]; lia].
    + intros i p k Hi Hp He. apply elem_of_seq in Hi.
      destruct (Hfinal i) as (p' & Hp' & Hs & He'); [lia|].
      assert (p' = p) as -> by congruence.
      rewrite He' in He.
      destruct ((1 <=? i)%nat && negb (vt i =? 0)); [|discriminate].
      injection He as <-. rewrite Hs. apply Hc. lia.
Qed.

(** X15: the slices handed out.  When [LoadPartitions] returns, the
    vector of slices holds exactly the entries 1..slice_count of the
    slice table that are not free, each with its index as physical
    slice, in strictly growing physical order: the order [DumpSlices]
    assumes. *)
Theorem LoadPartitions_slices n st vt out parts valid diag :
  LoadPartitions n st vt = Ret (out, parts, valid, diag) →
  (∀ s, s ∈ out ↔
        ∃ i : nat, (1 ≤ i ≤ n)%nat ∧ (st i).1 ≠ FVM_SLICE_ENTRY_FREE ∧
                   s = slice_at st i) ∧
  StronglySorted (λ x y, physical_slice x < physical_slice y) out.
Proof.
  intros Hr. unfold LoadPartitions in Hr.
  apply bind_Ret in Hr as (parts1 & _ & Hr).
  apply bind_Ret in Hr as ([[[out2 parts2] valid2] diag2] & Hload & Hr).
  apply bind_Ret in Hr as ([valid3 diag3] & _ & Hr).
  inversion Hr; subst. apply load_slices_out in Hload. cbn in Hload.
  subst out. split; [|apply live_slices_sorted].
  intros s. rewrite elem_of_live_slices. split.
  - intros (i & Hi & H). apply elem_of_seq in Hi. exists i. split; [lia|exact H].
  - intros (i & Hi & H). exists i. split; [apply elem_of_seq; lia|exact H].
Qed.

(** X16: a partition number out of range.  When an entry of the slice
    table that is not free names a partition number of at least
    FVM_MAX_ENTRIES, [LoadPartitions] reports it and then still runs
    [partitions[vpart].slices.push_back]: the array is indexed outside
    its bounds and the function does not return its verdict. *)
Theorem LoadPartitions_out_of_range n st vt (i : nat) :
  (1 ≤ i ≤ n)%nat →
  (st i).1 ≠ FVM_SLICE_ENTRY_FREE →
  Z.of_nat FVM_MAX_ENTRIES ≤ (st i).1 →
  LoadPartitions n st vt = Panic.
Proof.
  intros Hi Hfree Hbig. unfold LoadPartitions.
  destruct (init_partitions_spec vt (seq 1 (FVM_MAX_ENTRIES - 1))
              (replicate FVM_MAX_ENTRIES {| entry := None; slices := [] |})
              (seq_below _)) as (parts1 & Hr1 & Hl1 & _).
  rewrite length_replicate in Hl1. rewrite Hr1. cbn [mbind outcome_bind].
  rewrite load_slices_out_of_range; [reflexivity|exact Hl1|].
  exists i. split; [apply elem_of_seq; lia|]. split; assumption.
Qed.

(** X17: the partitions handed out.  When every live entry names a
    partition number inside the array, [LoadPartitions] returns; the
    array has FVM_MAX_ENTRIES partitions, partition [k] holds exactly the
    slices that name [k], in the order of the slice vector, and it is
    allocated (its [entry] points at entry [k] of the partition table)
    exactly when [k] is at least 1 and that entry claims slices. *)
Theorem LoadPartitions_partitions n st vt :
  vparts_in_range n st →
  ∃ out parts valid diag,
    LoadPartitions n st vt = Ret (out, parts, valid, diag) ∧
    length parts = FVM_MAX_ENTRIES ∧
    ∀ k : nat, (k < FVM_MAX_ENTRIES)%nat →
      ∃ p, parts !! k = Some p ∧
        slices p = slices_of k out ∧
        entry p = if (1 <=? k)%nat && negb (vt k =? 0)
                  then Some k else None.
Proof.
  intros Hrange.
  destruct (LoadPartitions_spec n st vt Hrange)
    as (parts & valid & diag & Hr & Hl & Hp & _).
  exists (live_slices st (seq 1 n)), parts, valid, diag.
  split; [exact Hr|]. split; [exact Hl|exact Hp].
Qed.

(** X18: the verdict.  When every live entry names a partition number
    inside the array, [LoadPartitions] answers true exactly when no
    slice names partition 0 and, for every partition number from 1 on,
    the count the partition table claims is the number of slices that
    name it. *)
Theorem LoadPartitions_verdict n st vt out parts valid diag :
  vparts_in_range n st →
  LoadPartitions n st vt = Ret (out, parts, valid, diag) →
  (valid = true ↔
   (∀ s, s ∈ out → virtual_partition s ≠ 0) ∧
   (∀ k : nat, (1 ≤ k < FVM_MAX_ENTRIES)%nat →
      vt k = Z.of_nat (length (slices_of k out)))).
Proof.
  intros Hrange Hr.
  destruct (LoadPartitions_spec n st vt Hrange)
    as (parts' & valid' & diag' & Hr' & _ & _ & Hv).
  rewrite Hr in Hr'. inversion Hr'; subst. exact Hv.
Qed.

(** X19: the verdict and the diagnostics.  [LoadPartitions] answers
    false exactly when it has written at least one diagnostic to
    stderr. *)
Theorem LoadPartitions_silent n st vt out parts valid diag :
  LoadPartitions n st vt = Ret (out, parts, valid, diag) →
  (valid = true ↔ diag = []).
Proof.
  intros Hr. unfold LoadPartitions in Hr.
  apply bind_Ret in Hr as (parts1 & _ & Hr).
  apply bind_Ret in Hr as ([[[out2 parts2] valid2] diag2] & Hload & Hr).
  apply bind_Ret in Hr as ([valid3 diag3] & Hcheck & Hr).
  inversion Hr; subst.
  apply (check_counts_silent _ _ _ _ _ _ _ Hcheck).
  apply (load_slices_silent _ _ _ _ _ _ _ _ _ _ Hload). tauto.
Qed.

End PartitionLoad.

(** ** The dump utility on concrete tables *)

Lemma SmallDisk_in_range :
  vparts_in_range (fmt := SmallDisk.format) 4
    (SmallDisk.slice_table [(0, 0); (1, 0); (1, 1); (0, 0); (2, 0)]).
Proof.
  intros i Hi Hf.
  assert (Hcases : (i = 1 ∨ i = 2 ∨ i = 3 ∨ i = 4)%nat) by lia.
  destruct Hcases as [Hc | [Hc | [Hc | Hc]]]; subst i; cbn in *; lia.
Qed.

(** Two slices that follow each other, then one further on. *)
Lemma DumpSlices_runs_witness :
  DumpSlices [Build_Slice 1 0 1; Build_Slice 1 1 2; Build_Slice 2 0 4]
    = Ret [LSliceInfo; LPhysicalSlices 1 2; LVirtualSlices 0 1; LPartition 1;
           LPhysicalSlice 4; LVirtualSlice 0; LPartition 2] ∧
  ∃ runs,
    DumpSlices [Build_Slice 1 0 1; Build_Slice 1 1 2; Build_Slice 2 0 4]
      = Ret (LSliceInfo :: flat_map run_lines runs) ∧
    flat_map expand_run runs
      = [Build_Slice 1 0 1; Build_Slice 1 1 2; Build_Slice 2 0 4] ∧
    Forall (λ r, 1 ≤ r.2) runs ∧
    runs_maximal runs.
Proof.
  split; [reflexivity|]. apply DumpSlices_runs.
  - repeat (apply Forall_cons; split); try apply Forall_nil;
      unfold slice_wf; cbn; lia.
  - cbn. lia.
Defined.

(** Slice 3 of four is free. *)
Lemma LoadPartitions_slices_witness :
  ∃ out parts valid diag,
    LoadPartitions (fmt := SmallDisk.format) 4
      (SmallDisk.slice_table [(0, 0); (1, 0); (1, 1); (0, 0); (2, 0)])
      (SmallDisk.vpart_table [0; 2; 1; 0])
    = Ret (out, parts, valid, diag) ∧
    out = [Build_Slice 1 0 1; Build_Slice 1 1 2; Build_Slice 2 0 4] ∧
    StronglySorted (λ x y, physical_slice x < physical_slice y) out.
Proof.
  assert (E : ∃ parts valid diag,
             LoadPartitions (fmt := SmallDisk.format) 4
               (SmallDisk.slice_table [(0, 0); (1, 0); (1, 1); (0, 0); (2, 0)])
               (SmallDisk.vpart_table [0; 2; 1; 0])
             = Ret ([Build_Slice 1 0 1; Build_Slice 1 1 2; Build_Slice 2 0 4],
                    parts, valid, diag)).
  { do 3 eexists. vm_compute. reflexivity. }
  destruct E as (parts & valid & diag & E).
  eexists _, parts, valid, diag. split; [exact E|]. split; [reflexivity|].
  apply (LoadPartitions_slices _ _ _ _ _ _ _ E).
Defined.

(** Slice 2 names partition 9 of four. *)
Lemma LoadPartitions_out_of_range_witness :
  LoadPartitions (fmt := SmallDisk.format) 2
    (SmallDisk.slice_table [(0, 0); (1, 0); (9, 0)])
    (SmallDisk.vpart_table [0; 1; 0; 0])
  = Panic.
Proof.
  apply (LoadPartitions_out_of_range (fmt := SmallDisk.format) 2 _ _ 2).
  - lia.
  - cbn. discriminate.
  - cbn. lia.
Defined.

(** Partition 1 takes slices 1 and 2, partition 2 takes slice 4. *)
Lemma LoadPartitions_partitions_witness :
  ∃ out parts valid diag,
    LoadPartitions (fmt := SmallDisk.format) 4
      (SmallDisk.slice_table [(0, 0); (1, 0); (1, 1); (0, 0); (2, 0)])
      (SmallDisk.vpart_table [0; 2; 1; 0])
    = Ret (out, parts, valid, diag) ∧
    length parts = 4%nat ∧
    ∀ k : nat, (k < 4)%nat →
      ∃ p, parts !! k = Some p ∧
        slices p = slices_of k out ∧
        entry p = if (1 <=? k)%nat
                     && negb (SmallDisk.vpart_table [0; 2; 1; 0] k =? 0)
                  then Some k else None.
Proof.
  apply (LoadPartitions_partitions (fmt := SmallDisk.format)).
  apply SmallDisk_in_range.
Defined.

(** The claimed counts 2 and 1 are the counts found. *)
Lemma LoadPartitions_verdict_witness :
  ∃ out parts diag,
    LoadPartitions (fmt := SmallDisk.format) 4
      (SmallDisk.slice_table [(0, 0); (1, 0); (1, 1); (0, 0); (2, 0)])
      (SmallDisk.vpart_table [0; 2; 1; 0])
    = Ret (out, parts, true, diag) ∧
    (∀ s, s ∈ out → virtual_partition s ≠ 0) ∧
    (∀ k : nat, (1 ≤ k < 4)%nat →
       SmallDisk.vpart_table [0; 2; 1; 0] k
       = Z.of_nat (length (slices_of k out))).
Proof.
  assert (E : ∃ out parts diag,
             LoadPartitions (fmt := SmallDisk.format) 4
               (SmallDisk.slice_table [(0, 0); (1, 0); (1, 1); (0, 0); (2, 0)])
               (SmallDisk.vpart_table [0; 2; 1; 0])
             = Ret (out, parts, true, diag)).
  { do 3 eexists. vm_compute. reflexivity. }
  destruct E as (out & parts & diag & E).
  exists out, parts, diag. split; [exact E|].
  apply (LoadPartitions_verdict (fmt := SmallDisk.format) _ _ _ _ _ _ _
           SmallDisk_in_range E).
  reflexivity.
Defined.

(** Partition 1 claims one slice and has two; partition 2 claims none
    and has one. *)
Lemma LoadPartitions_silent_witness :
  ∃ out parts diag,
    LoadPartitions (fmt := SmallDisk.format) 4
      (SmallDisk.slice_table [(0, 0); (1, 0); (1, 1); (0, 0); (2, 0)])
      (SmallDisk.vpart_table [0; 1; 0; 0])
    = Ret (out, parts, false, diag) ∧
    diag ≠ [].
Proof.
  assert (E : ∃ out parts diag,
             LoadPartitions (fmt := SmallDisk.format) 4
               (SmallDisk.slice_table [(0, 0); (1, 0); (1, 1); (0, 0); (2, 0)])
               (SmallDisk.vpart_table [0; 1; 0; 0])
             = Ret (out, parts, false, diag)).
  { do 3 eexists. vm_compute. reflexivity. }
  destruct E as (out & parts & diag & E).
  exists out, parts, diag. split; [exact E|].
  intros Hd. apply (LoadPartitions_silent _ _ _ _ _ _ _ E) in Hd.
  discriminate Hd.
Defined.
